(** * segmentation/predict.py: checkpoint lookup, colouring, overlay, evaluation

    A shallow embedding of [src/segmentation/predict.py].  Python values are
    modelled as follows.

    - Exceptions: a function that can raise returns a [result]; [Raise e]
      aborts the enclosing computation ([bind]).
    - Integer-valued arrays (class maps, uint8 images, the float64 image that
      [get_colored_segmentation_image] fills with uint8 values, the float64
      counters of [evaluate_segmentation]) hold [Z]: float64 represents every
      integer of magnitude up to 2^53 exactly, a number of pixels no input
      list reaches.
    - float64 arithmetic whose result is not an integer (the halves of
      [overlay_seg_image], the scores of [evaluate_segmentation]) is IEEE-754
      binary64: the exact rational result rounded to 53 significant bits,
      ties to even (module [F64]).
    - A [str] is the [string] of its UTF-8 bytes; [Py.decode] gives its
      characters.
    - The collaborators that are not in this file (glob, os.path, cv2, the
      model object, segmentation.data_loader) are section variables. *)

From Stdlib Require Import ZArith QArith Qround Qpower Qabs Lqa Lia.
From Stdlib Require Import List String Ascii Bool Permutation.
From Stdlib Require Import Floats.
From Stdlib Require Qcanon.
Import ListNotations.

Local Open Scope Z_scope.

(** ** Exceptions *)

Inductive exn : Type :=
| AssertionError (msg : string)
| ValueError (msg : string)
| IndexError
| KeyError
| AttributeError.

Inductive result (A : Type) : Type :=
| Ok (a : A)
| Raise (e : exn).

Arguments Ok {A} a.
Arguments Raise {A} e.

Definition bind {A B : Type} (m : result A) (k : A -> result B) : result B :=
  match m with
  | Ok a => k a
  | Raise e => Raise e
  end.

Notation "x <- m ;; k" := (bind m (fun x => k))
  (at level 61, m at next level, right associativity).
Notation "m ;;; k" := (bind m (fun _ => k))
  (at level 61, right associativity).

(** [assert cond, msg] *)
Definition assert (cond : bool) (msg : string) : result unit :=
  if cond then Ok tt else Raise (AssertionError msg).

Definition is_ok {A : Type} (m : result A) : bool :=
  match m with Ok _ => true | Raise _ => false end.

Fixpoint mapM {A B : Type} (f : A -> result B) (l : list A) : result (list B) :=
  match l with
  | [] => Ok []
  | x :: t => y <- f x ;; ys <- mapM f t ;; Ok (y :: ys)
  end.

(** ** IEEE-754 binary64 arithmetic on finite values *)

Module F64.

Local Open Scope Q_scope.

Definition pow2 (k : Z) : Q := 2 ^ k.

(** [ilog2 x] is the binary exponent of a positive [x]:
    [2^(ilog2 x) <= x < 2^(ilog2 x + 1)]. *)
Definition ilog2 (x : Q) : Z :=
  let d := (Z.log2 (Qnum x) - Z.log2 (Zpos (Qden x)))%Z in
  if Qle_bool (pow2 d) x then d else (d - 1)%Z.

(** Nearest integer, ties to the even one. *)
Definition round_half_even (y : Q) : Z :=
  let f := Qfloor y in
  match Qcompare (y - inject_Z f) (1 # 2) with
  | Lt => f
  | Gt => (f + 1)%Z
  | Eq => if Z.even f then f else (f + 1)%Z
  end.

(** A positive [x] rounded to a 53-bit significand. *)
Definition round_pos (x : Q) : Q :=
  let e := ilog2 x in
  inject_Z (round_half_even (x * pow2 (52 - e))) * pow2 (e - 52).

(** [round64 x]: the binary64 value nearest to [x] (exponent range unbounded:
    the magnitudes that occur here are far from overflow and underflow).
    The result is in lowest terms, so that equal values are equal terms. *)
Definition round64 (x : Q) : Q :=
  Qred (match Qcompare x 0 with
        | Eq => 0
        | Gt => round_pos x
        | Lt => - round_pos (- x)
        end).

(** A float64 value: a finite number, or [None] for the values that are not
    (nan, inf), which only a division by zero produces here and which every
    later operation hands on. *)
Definition f64 : Type := option Q.

Definition of_Z (z : Z) : f64 := Some (round64 (inject_Z z)).

Definition lift2 (op : Q -> Q -> Q) (a b : f64) : f64 :=
  match a, b with
  | Some x, Some y => Some (round64 (op x y))
  | _, _ => None
  end.

Definition add : f64 -> f64 -> f64 := lift2 Qplus.
Definition mul : f64 -> f64 -> f64 := lift2 Qmult.

Definition div (a b : f64) : f64 :=
  match a, b with
  | Some x, Some y => if Qeq_bool y 0 then None else Some (round64 (x / y))
  | _, _ => None
  end.

(** The value of a finite number of Rocq's primitive binary64 floats, to
    compare [round64] with the hardware's rounding on examples. *)
Definition of_prim (x : PrimFloat.float) : f64 :=
  match Prim2SF x with
  | S754_zero _ => Some 0
  | S754_finite s m e =>
      Some (Qred ((if s then - inject_Z (Zpos m) else inject_Z (Zpos m)) * pow2 e))
  | _ => None
  end.


End F64.

(** ** Python built-ins on strings and lists *)

Module Py.

Local Open Scope string_scope.

(** [s.replace(old, new)] for a non-empty [old]: scan from the left; at an
    occurrence of [old] emit [new] and skip the occurrence ([skip] counts the
    characters of it still to pass). *)
Fixpoint replace_from (old new s : string) (skip : nat) : string :=
  match s with
  | EmptyString => EmptyString
  | String c t =>
      match skip with
      | S k => replace_from old new t k
      | O =>
          if prefix old s
          then new ++ replace_from old new t (String.length old - 1)
          else String c (replace_from old new t 0)
      end
  end.

(** [s.replace("", new)] puts [new] before every character and at the end. *)
Fixpoint intersperse (new s : string) : string :=
  match s with
  | EmptyString => new
  | String c t => new ++ String c (intersperse new t)
  end.

Definition replace (old new s : string) : string :=
  match old with
  | EmptyString => intersperse new s
  | _ => replace_from old new s 0
  end.

(** [s.lstrip(c)], [s.rstrip(c)] and [s.strip(c)] for a one-character [c]. *)
Fixpoint lstrip (c : ascii) (s : string) : string :=
  match s with
  | String a t => if Ascii.eqb a c then lstrip c t else s
  | EmptyString => EmptyString
  end.

Fixpoint rstrip (c : ascii) (s : string) : string :=
  match s with
  | String a t =>
      match rstrip c t with
      | EmptyString => if Ascii.eqb a c then EmptyString else String a EmptyString
      | t' => String a t'
      end
  | EmptyString => EmptyString
  end.

Definition strip (c : ascii) (s : string) : string := rstrip c (lstrip c s).

(** *** Characters

    A [str] is held as the [string] of its UTF-8 bytes, as a file name is
    on disk.  [replace], [strip] and [+] work on the bytes, where they find
    what they find on the characters; [str.isdigit] and [int] look at the
    characters themselves, the code points [decode] gives.  Bytes that are
    no UTF-8 are no characters for them (they are read from a file name as
    lone surrogates, which are neither digits nor spaces). *)

Local Open Scope N_scope.

(** The six low bits of a continuation byte [10xxxxxx]. *)
Definition continuation (a : ascii) : option N :=
  let b := N_of_ascii a in
  if (128 <=? b) && (b <? 192) then Some (b - 128) else None.

Fixpoint decode (s : string) : option (list N) :=
  match s with
  | EmptyString => Some []
  | String a t =>
      let b := N_of_ascii a in
      if b <? 128 then option_map (cons b) (decode t)
      else if b <? 192 then None
      else if b <? 224 then
        match t with
        | String a1 t1 =>
            match continuation a1 with
            | Some c1 =>
                let cp := (b - 192) * 64 + c1 in
                if 128 <=? cp then option_map (cons cp) (decode t1) else None
            | None => None
            end
        | _ => None
        end
      else if b <? 240 then
        match t with
        | String a1 (String a2 t2) =>
            match continuation a1, continuation a2 with
            | Some c1, Some c2 =>
                let cp := ((b - 224) * 64 + c1) * 64 + c2 in
                if (2048 <=? cp) && negb ((55296 <=? cp) && (cp <=? 57343))
                then option_map (cons cp) (decode t2) else None
            | _, _ => None
            end
        | _ => None
        end
      else if b <? 248 then
        match t with
        | String a1 (String a2 (String a3 t3)) =>
            match continuation a1, continuation a2, continuation a3 with
            | Some c1, Some c2, Some c3 =>
                let cp := (((b - 240) * 64 + c1) * 64 + c2) * 64 + c3 in
                if (65536 <=? cp) && (cp <=? 1114111)
                then option_map (cons cp) (decode t3) else None
            | _, _, _ => None
            end
        | _ => None
        end
      else None
  end.

Definition in_ranges (table : list (N * N)) (c : N) : bool :=
  existsb (fun r => (fst r <=? c) && (c <=? snd r)) table.

(** The characters [str.isdigit] accepts, those of the Unicode numeric
    types Decimal and Digit (version 14.0.0 of the database, that of
    CPython 3.11), as ranges of code points: the decimal digits of the
    scripts, and superscripts, subscripts, circled digits and the like. *)
Definition digit_ranges : list (N * N) :=
  [(48, 57); (178, 179); (185, 185); (1632, 1641); (1776, 1785); (1984, 1993);
   (2406, 2415); (2534, 2543); (2662, 2671); (2790, 2799); (2918, 2927);
   (3046, 3055); (3174, 3183); (3302, 3311); (3430, 3439); (3558, 3567);
   (3664, 3673); (3792, 3801); (3872, 3881); (4160, 4169); (4240, 4249);
   (4969, 4977); (6112, 6121); (6160, 6169); (6470, 6479); (6608, 6618);
   (6784, 6793); (6800, 6809); (6992, 7001); (7088, 7097); (7232, 7241);
   (7248, 7257); (8304, 8304); (8308, 8313); (8320, 8329); (9312, 9320);
   (9332, 9340); (9352, 9360); (9450, 9450); (9461, 9469); (9471, 9471);
   (10102, 10110); (10112, 10120); (10122, 10130); (42528, 42537);
   (43216, 43225); (43264, 43273); (43472, 43481); (43504, 43513);
   (43600, 43609); (44016, 44025); (65296, 65305); (66720, 66729);
   (68160, 68163); (68912, 68921); (69216, 69224); (69714, 69722);
   (69734, 69743); (69872, 69881); (69942, 69951); (70096, 70105);
   (70384, 70393); (70736, 70745); (70864, 70873); (71248, 71257);
   (71360, 71369); (71472, 71481); (71904, 71913); (72016, 72025);
   (72784, 72793); (73040, 73049); (73120, 73129); (92768, 92777);
   (92864, 92873); (93008, 93017); (120782, 120831); (123200, 123209);
   (123632, 123641); (125264, 125273); (127232, 127242); (130032, 130041)].

(** The decimal digits among them, the characters [int] reads: each range
    holds the digits 0 to 9 in order, once or several times over. *)
Definition decimal_ranges : list (N * N) :=
  [(48, 57); (1632, 1641); (1776, 1785); (1984, 1993); (2406, 2415);
   (2534, 2543); (2662, 2671); (2790, 2799); (2918, 2927); (3046, 3055);
   (3174, 3183); (3302, 3311); (3430, 3439); (3558, 3567); (3664, 3673);
   (3792, 3801); (3872, 3881); (4160, 4169); (4240, 4249); (6112, 6121);
   (6160, 6169); (6470, 6479); (6608, 6617); (6784, 6793); (6800, 6809);
   (6992, 7001); (7088, 7097); (7232, 7241); (7248, 7257); (42528, 42537);
   (43216, 43225); (43264, 43273); (43472, 43481); (43504, 43513);
   (43600, 43609); (44016, 44025); (65296, 65305); (66720, 66729);
   (68912, 68921); (69734, 69743); (69872, 69881); (69942, 69951);
   (70096, 70105); (70384, 70393); (70736, 70745); (70864, 70873);
   (71248, 71257); (71360, 71369); (71472, 71481); (71904, 71913);
   (72016, 72025); (72784, 72793); (73040, 73049); (73120, 73129);
   (92768, 92777); (92864, 92873); (93008, 93017); (120782, 120831);
   (123200, 123209); (123632, 123641); (125264, 125273); (130032, 130041)].

(** The white space [int] skips beyond the ASCII characters. *)
Definition space_ranges : list (N * N) :=
  [(133, 133); (160, 160); (5760, 5760); (8192, 8202); (8232, 8233);
   (8239, 8239); (8287, 8287); (12288, 12288)].

Definition is_digit (c : N) : bool := in_ranges digit_ranges c.

Definition decimal (c : N) : option N :=
  match List.find (fun r => (fst r <=? c) && (c <=? snd r)) decimal_ranges with
  | Some r => Some ((c - fst r) mod 10)
  | None => None
  end.

(** [s.isdigit()]: at least one character, and digits only. *)
Definition isdigit (s : string) : bool :=
  match decode s with
  | Some (c :: l) => forallb is_digit (c :: l)
  | _ => false
  end.

(** [int(s)] for a [str]: the decimal digits and the white space become
    their ASCII counterparts, and the result is read as white space, a sign,
    digits with single underscores between them, white space. *)
Fixpoint to_ascii (l : list N) : option (list N) :=
  match l with
  | [] => Some []
  | c :: t =>
      if c <? 127 then option_map (cons c) (to_ascii t)
      else if in_ranges space_ranges c then option_map (cons 32) (to_ascii t)
      else match decimal c with
           | Some d => option_map (cons (48 + d)) (to_ascii t)
           | None => None
           end
  end.

Definition ascii_space (c : N) : bool := ((9 <=? c) && (c <=? 13)) || (c =? 32).
Definition ascii_digit (c : N) : bool := (48 <=? c) && (c <=? 57).
Definition underscore : N := 95.

Fixpoint skip_spaces (l : list N) : list N :=
  match l with
  | c :: t => if ascii_space c then skip_spaces t else l
  | [] => []
  end.

(** The digits and underscores at the front of [l], and what follows. *)
Fixpoint span_digits (l : list N) : list N * list N :=
  match l with
  | c :: t =>
      if ascii_digit c || (c =? underscore)
      then let '(body, rest) := span_digits t in (c :: body, rest)
      else ([], l)
  | [] => ([], [])
  end.

(** No underscore at the front, at the end or after another. *)
Fixpoint single_underscores (prev_digit : bool) (body : list N) : bool :=
  match body with
  | [] => prev_digit
  | c :: t =>
      if c =? underscore then prev_digit && single_underscores false t
      else single_underscores true t
  end.

Fixpoint digits_value (acc : Z) (body : list N) : Z :=
  match body with
  | [] => acc
  | c :: t =>
      if c =? underscore then digits_value acc t
      else digits_value (10 * acc + (Z.of_N c - 48))%Z t
  end.

(** A sign at the front, [+] or [-], and what follows. *)
Definition sign (l : list N) : bool * list N :=
  match l with
  | c :: t => if c =? 43 then (false, t) else if c =? 45 then (true, t) else (false, l)
  | [] => (false, [])
  end.

(** [sys.get_int_max_str_digits()], as the interpreter starts. *)
Definition max_str_digits : nat := 4300.

(** The message of the interpreter goes on with the string. *)
Definition invalid_literal {A : Type} : result A :=
  Raise (ValueError "invalid literal for int() with base 10").

Definition int (s : string) : result Z :=
  match decode s with
  | None => invalid_literal
  | Some l =>
      match to_ascii l with
      | None => invalid_literal
      | Some l =>
          let '(negative, l) := sign (skip_spaces l) in
          let '(body, rest) := span_digits l in
          let digits := List.length (filter ascii_digit body) in
          if single_underscores false body
             && (digits <=? max_str_digits)%nat
             && match skip_spaces rest with [] => true | _ => false end
          then
            let v := digits_value 0 body in
            Ok (if negative then (- v)%Z else v)
          else invalid_literal
      end
  end.

Local Close Scope N_scope.

(** [max(l, key=key)]: the first element whose key no later key exceeds. *)
Fixpoint max_from {A : Type} (key : A -> result Z) (best : A) (kbest : Z)
    (l : list A) : result A :=
  match l with
  | [] => Ok best
  | x :: t =>
      k <- key x ;;
      if Z.ltb kbest k then max_from key x k t else max_from key best kbest t
  end.

Definition max_key {A : Type} (key : A -> result Z) (l : list A) : result A :=
  match l with
  | [] => Raise (ValueError "max() arg is an empty sequence")
  | x :: t => k <- key x ;; max_from key x k t
  end.

(** [range(n)] *)
Definition range (n : Z) : list Z := map Z.of_nat (seq 0 (Z.to_nat n)).

End Py.

(** ** Checkpoint resolution *)

Section Checkpoints.

Local Open Scope string_scope.

(** [glob.glob]: the entries of the file system that match a pattern. *)
Variable glob : string -> list string.
(** [os.path.normpath] *)
Variable normpath : string -> string.

Definition dot : ascii := Ascii.ascii_of_nat 46.

Definition get_epoch_number_from_path (checkpoints_path path : string) : string :=
  Py.strip dot (Py.replace (normpath checkpoints_path) "" path).

(** The entries [find_latest_checkpoint] looks at: the glob's, normalised,
    with [".index"] removed. *)
Definition checkpoint_files (checkpoints_path : string) : list string :=
  let all_checkpoint_files := glob (checkpoints_path ++ ".*") in
  let all_checkpoint_files :=
    if (List.length all_checkpoint_files =? 0)%nat
    then glob (checkpoints_path ++ "*.*")
    else all_checkpoint_files in
  let all_checkpoint_files := map normpath all_checkpoint_files in
  map (Py.replace ".index" "") all_checkpoint_files.

(** [fail_safe] is a keyword argument, [True] when left out. *)
Definition fail_safe_default : bool := true.

Definition find_latest_checkpoint (checkpoints_path : string) (fail_safe : bool)
  : result (option string) :=
  let all_checkpoint_files := checkpoint_files checkpoints_path in
  let all_checkpoint_files :=
    filter (fun f => Py.isdigit (get_epoch_number_from_path checkpoints_path f))
           all_checkpoint_files in
  if (List.length all_checkpoint_files =? 0)%nat then
    if negb fail_safe
    then Raise (ValueError ("Checkpoint path " ++ checkpoints_path ++ " invalid"))
    else Ok None
  else
    latest_epoch_checkpoint <-
      Py.max_key (fun f => Py.int (get_epoch_number_from_path checkpoints_path f))
                 all_checkpoint_files ;;
    Ok (Some latest_epoch_checkpoint).

End Checkpoints.

(** [os.path.normpath] on POSIX, for relative paths without [".."]
    components: empty and ["."] components go, and so do repeated and trailing
    slashes. *)
Module Posix.

Local Open Scope string_scope.

Definition slash : ascii := Ascii.ascii_of_nat 47.

(** [path.split("/")] *)
Fixpoint split_slash (cur : string) (s : string) : list string :=
  match s with
  | EmptyString => [cur]
  | String a t =>
      if Ascii.eqb a slash then cur :: split_slash "" t
      else split_slash (cur ++ String a "") t
  end.

Definition keep_component (comp : string) : bool :=
  negb (String.eqb comp "" || String.eqb comp ".").

Definition normpath (path : string) : string :=
  let comps := filter keep_component (split_slash "" path) in
  let joined := String.concat "/" comps in
  let joined := if prefix "/" path then "/" ++ joined else joined in
  if String.eqb joined "" then "." else joined.

End Posix.

(** ** Arrays *)

(** A colour, and a pixel of an image of shape [(h, w, 3)]. *)
Definition color : Type := (Z * Z * Z)%type.
Definition pixel : Type := (Z * Z * Z)%type.

(** An image: its rows.  A class map: a 2-D array of class indices. *)
Definition image : Type := list (list pixel).
Definition class_map : Type := list (list Z).

(** [a.shape[0]] and [a.shape[1]] *)
Definition height {A : Type} (a : list (list A)) : nat := List.length a.
Definition width {A : Type} (a : list (list A)) : nat :=
  match a with
  | [] => 0%nat
  | row :: _ => List.length row
  end.

(** Every row of a numpy array has the same length. *)
Definition rectangular {A : Type} (a : list (list A)) : Prop :=
  Forall (fun row => List.length row = width a) a.

(** [a[i, j]], when there is such an element. *)
Definition at2 {A : Type} (a : list (list A)) (i j : nat) : option A :=
  match nth_error a i with
  | Some row => nth_error row j
  | None => None
  end.

(** [l[i]] for a list or tuple [l] and [i >= 0]. *)
Definition getitem {A : Type} (l : list A) (i : Z) : result A :=
  match nth_error l (Z.to_nat i) with
  | Some x => Ok x
  | None => Raise IndexError
  end.

Fixpoint zip_with {A B C : Type} (f : A -> B -> C) (a : list A) (b : list B)
  : list C :=
  match a, b with
  | x :: a', y :: b' => f x y :: zip_with f a' b'
  | _, _ => []
  end.

(** An element-wise binary operation of numpy along one axis: equal lengths
    pair up, an axis of length one is repeated, anything else raises. *)
Definition broadcast2 {A B C : Type} (f : A -> B -> result C)
    (a : list A) (b : list B) : result (list C) :=
  if (List.length a =? List.length b)%nat
  then mapM (fun xy => f (fst xy) (snd xy)) (combine a b)
  else
    match a, b with
    | [x], _ => mapM (f x) b
    | _, [y] => mapM (fun x => f x y) a
    | _, _ => Raise (ValueError "operands could not be broadcast together")
    end.

Fixpoint foldM {A S : Type} (f : S -> A -> result S) (l : list A) (s : S)
  : result S :=
  match l with
  | [] => Ok s
  | x :: t => s' <- f s x ;; foldM f t s'
  end.

(** [x.astype("uint8")] for an integer [x] *)
Definition astype_uint8 (x : Z) : Z := x mod 256.

(** [x.astype("uint8")] for a float64 [x]: the fraction is dropped. *)
Definition f64_astype_uint8 (x : F64.f64) : Z :=
  match x with
  | Some q => astype_uint8 (Z.quot (Qnum q) (Zpos (Qden q)))
  | None => 0
  end.

Definition b2z (b : bool) : Z := if b then 1 else 0.

(** ** Colouring *)

(** [np.zeros((h, w, 3))] *)
Definition zeros (h w : nat) : image := repeat (repeat (0, 0, 0) w) h.

(** What one pass of the loop of [get_colored_segmentation_image] adds to a
    pixel [p] whose class is [v]: for each channel [k],
    [((seg_arr == c) * colors[c][k]).astype("uint8")], for a component
    [colors[c][k]] that fits the integers of numpy ([int64]; the product
    raises [OverflowError] for another). *)
Definition add_pixel (c : Z) (col : color) (p : pixel) (v : Z) : pixel :=
  let '(c0, c1, c2) := col in
  let '(p0, p1, p2) := p in
  let seg_arr_c := b2z (v =? c) in
  (p0 + astype_uint8 (seg_arr_c * c0),
   p1 + astype_uint8 (seg_arr_c * c1),
   p2 + astype_uint8 (seg_arr_c * c2)).

(** One pass of the loop: the three [seg_img[:, :, k] += ...]. *)
Definition add_class (seg_arr : class_map) (c : Z) (col : color) (seg_img : image)
  : image :=
  zip_with (zip_with (add_pixel c col)) seg_img seg_arr.

Definition get_colored_segmentation_image (seg_arr : class_map) (n_classes : Z)
    (colors : list color) : result image :=
  let output_height := height seg_arr in
  let output_width := width seg_arr in
  let seg_img := zeros output_height output_width in
  foldM (fun seg_img c =>
           col <- getitem colors c ;;
           Ok (add_class seg_arr c col seg_img))
        (Py.range n_classes) seg_img.

(** ** Overlay, legend and their composition *)

Inductive interpolation : Type := INTER_NEAREST | INTER_LINEAR.

Section Visualisation.

(** [cv2.resize(img, (w, h), interpolation=...)] *)
Variable cv2_resize : interpolation -> image -> nat -> nat -> image.

(** [cv2.putText] and [cv2.rectangle] draw into the image they are given:
    the value they leave at row [i], column [j], from the value found there. *)
Variable cv2_putText : string -> Z * Z -> nat -> nat -> pixel -> pixel.
Variable cv2_rectangle : Z * Z -> Z * Z -> color -> nat -> nat -> pixel -> pixel.

Definition draw (f : nat -> nat -> pixel -> pixel) (img : image) : image :=
  map (fun ir => map (fun jp => f (fst ir) (fst jp) (snd jp))
                     (combine (seq 0 (List.length (snd ir))) (snd ir)))
      (combine (seq 0 (List.length img)) img).

(** One channel of [(inp_img / 2 + seg_img / 2).astype("uint8")]. *)
Definition fuse (a b : Z) : Z :=
  f64_astype_uint8
    (F64.add (F64.div (F64.of_Z a) (F64.of_Z 2)) (F64.div (F64.of_Z b) (F64.of_Z 2))).

Definition fuse_pixel (p q : pixel) : result pixel :=
  let '(p0, p1, p2) := p in
  let '(q0, q1, q2) := q in
  Ok (fuse p0 q0, fuse p1 q1, fuse p2 q2).

Definition overlay_seg_image (inp_img seg_img : image) : result image :=
  let orininal_h := height inp_img in
  let orininal_w := width inp_img in
  let seg_img := cv2_resize INTER_NEAREST seg_img orininal_w orininal_h in
  broadcast2 (broadcast2 fuse_pixel) inp_img seg_img.

Definition get_legends (class_names : list string) (colors : list color) : image :=
  let n_classes := List.length class_names in
  let legend : image := repeat (repeat (255, 255, 255) 125) (n_classes * 25 + 25) in
  let class_names_colors :=
    combine (seq 0 n_classes)
            (combine (firstn n_classes class_names) (firstn n_classes colors)) in
  fold_left
    (fun legend entry =>
       let '(i, (class_name, col)) := entry in
       let i := Z.of_nat i in
       let legend := draw (cv2_putText class_name (0, i * 25 + 17)) legend in
       draw (cv2_rectangle (110, i * 25) (135, i * 25 + 25) col) legend)
    class_names_colors legend.

(** [legend_img] is a [uint8] image, as [get_legends] makes it, and so is
    [out_img], into which [seg_img] is cast. *)
Definition concat_legends (seg_img legend_img : image) : result image :=
  let new_h := Nat.max (height seg_img) (height legend_img) in
  row0 <- getitem legend_img 0 ;;
  px0 <- getitem row0 0 ;;
  let bg := astype_uint8 (0 + fst (fst px0)) in
  let blank (w : nat) : list pixel := repeat (bg, bg, bg) w in
  Ok (map (fun i =>
             nth i legend_img (blank (width legend_img)) ++
             nth i (map (map (fun p : pixel =>
                                let '(p0, p1, p2) := p in
                                (astype_uint8 p0, astype_uint8 p1, astype_uint8 p2)))
                         seg_img)
                   (blank (width seg_img)))
          (seq 0 new_h)).

(** [np.max(a)] of a 2-D array *)
Definition np_max (a : class_map) : result Z :=
  match List.concat a with
  | [] => Raise (ValueError "zero-size array to reduction operation maximum")
  | x :: t => Ok (fold_left Z.max t x)
  end.

Definition visualize_segmentation (seg_arr : class_map) (inp_img : option image)
    (n_classes : option Z) (colors : list color)
    (class_names : option (list string)) (overlay_img show_legends : bool)
    (prediction_width prediction_height : option nat) : result image :=
  n_classes <- match n_classes with
               | None => np_max seg_arr
               | Some n => Ok n
               end ;;
  seg_img <- get_colored_segmentation_image seg_arr n_classes colors ;;
  let seg_img :=
    match inp_img with
    | Some inp_img =>
        cv2_resize INTER_NEAREST seg_img (width inp_img) (height inp_img)
    | None => seg_img
    end in
  let '(seg_img, inp_img) :=
    match prediction_height, prediction_width with
    | Some prediction_height, Some prediction_width =>
        (cv2_resize INTER_NEAREST seg_img prediction_width prediction_height,
         option_map (fun inp_img =>
                       cv2_resize INTER_LINEAR inp_img prediction_width prediction_height)
                    inp_img)
    | _, _ => (seg_img, inp_img)
    end in
  seg_img <- (if overlay_img then
                match inp_img with
                | None => Raise (AssertionError "")
                | Some inp_img => overlay_seg_image inp_img seg_img
                end
              else Ok seg_img) ;;
  seg_img <- (if show_legends then
                match class_names with
                | None => Raise (AssertionError "")
                | Some class_names =>
                    let legend_img := get_legends class_names colors in
                    concat_legends seg_img legend_img
                end
              else Ok seg_img) ;;
  Ok seg_img.

End Visualisation.

(** ** Prediction *)

(** [reshape]: the rows of a flat array cut into [n] pieces of length [k]. *)
Fixpoint chunks {A : Type} (k n : nat) (l : list A) : list (list A) :=
  match n with
  | O => []
  | S n' => firstn k l :: chunks k n' (skipn k l)
  end.

(** [a.reshape((h, w, n))] *)
Definition reshape3 {A : Type} (h w n : nat) (a : list A)
  : result (list (list (list A))) :=
  if (List.length a =? h * w * n)%nat
  then Ok (chunks w h (chunks n (h * w) a))
  else Raise (ValueError "cannot reshape array").

Fixpoint argmax_from {A : Type} (ltb : A -> A -> bool) (best : Z) (vbest : A)
    (i : Z) (l : list A) : Z :=
  match l with
  | [] => best
  | x :: t =>
      if ltb vbest x then argmax_from ltb i x (i + 1) t
      else argmax_from ltb best vbest (i + 1) t
  end.

(** [np.argmax] of a 1-D array: the first index of the largest value. *)
Definition argmax {A : Type} (ltb : A -> A -> bool) (l : list A) : result Z :=
  match l with
  | [] => Raise (ValueError "attempt to get argmax of an empty sequence")
  | x :: t => Ok (argmax_from ltb 0 x 1 t)
  end.

(** [a.argmax(axis=2)] of a 3-D array *)
Definition argmax_axis2 {A : Type} (ltb : A -> A -> bool)
    (a : list (list (list A))) : result class_map :=
  mapM (mapM (argmax ltb)) a.

Definition Qltb (x y : Q) : bool := negb (Qle_bool y x).

(** What [predict_segmentation] is given as [inp]: an image or a file name. *)
Inductive input : Type :=
| InpArray (a : image)
| InpPath (p : string).

(** The keys of [<checkpoints_path>_config.json]. *)
Record config : Type := {
  model_class : string;
  cfg_n_classes : nat;
  cfg_input_height : nat;
  cfg_input_width : nat
}.

Section Prediction.

(** The array [get_image_array] hands to the model. *)
Variable tensor : Type.

(** The model object: its attributes, and [predict] from a batch to the flat
    class scores of each of its elements. *)
Record Model : Type := {
  n_classes : nat;
  input_width : nat;
  input_height : nat;
  output_width : nat;
  output_height : nat;
  predict : list tensor -> list (list Q)
}.

(** The file system and [os.path] *)
Variable glob : string -> list string.
Variable normpath : string -> string.
Variable isfile : string -> bool.
(** [json.loads(open(path, "r").read())] *)
Variable read_config : string -> result config.
(** [segmentation.models.all_models.model_from_name] *)
Variable model_from_name : string -> option (nat -> nat -> nat -> Model).
(** [model.load_weights(path)]: the model with the weights loaded. *)
Variable load_weights : Model -> string -> result Model.
(** [cv2.imread(path, cv2.IMREAD_COLOR)]: [None] when the file is no image. *)
Variable imread : string -> option image.
Variable cv2_resize : interpolation -> image -> nat -> nat -> image.
Variable cv2_putText : string -> Z * Z -> nat -> nat -> pixel -> pixel.
Variable cv2_rectangle : Z * Z -> Z * Z -> color -> nat -> nat -> pixel -> pixel.
(** [segmentation.data_loader] *)
Variable class_colors : list color.
Variable get_image_array : image -> nat -> nat -> tensor.

Definition model_from_checkpoint_path (checkpoints_path : string) : result Model :=
  let config_path := (checkpoints_path ++ "_config.json")%string in
  assert (isfile config_path) "Checkpoint config isn't found" ;;;
  model_config <- read_config config_path ;;
  latest_weights <-
    find_latest_checkpoint glob normpath checkpoints_path fail_safe_default ;;
  match latest_weights with
  | None => Raise (AssertionError "Checkpoint weights aren't found")
  | Some latest_weights =>
      match model_from_name (model_class model_config) with
      | None => Raise KeyError
      | Some constructor =>
          let model := constructor (cfg_n_classes model_config)
                                   (cfg_input_height model_config)
                                   (cfg_input_width model_config) in
          load_weights model latest_weights
      end
  end.

(** The class map of [predict_segmentation]:
    [model.predict(np.array([x]))[0].reshape((h, w, n)).argmax(axis=2)]. *)
Definition predicted_class_map (model : Model) (inp : image) : result class_map :=
  let output_width := output_width model in
  let output_height := output_height model in
  let input_width := input_width model in
  let input_height := input_height model in
  let n_classes := n_classes model in
  let x := get_image_array inp input_width input_height in
  pr <- getitem (predict model [x]) 0 ;;
  pr <- reshape3 output_height output_width n_classes pr ;;
  argmax_axis2 Qltb pr.

Definition visualize := visualize_segmentation cv2_resize cv2_putText cv2_rectangle.

(** [predict_segmentation] returns the class map; the files it writes with
    [cv2.imwrite] are listed beside it, in the order written. *)
Definition predict_segmentation (model : option Model) (inp : option input)
    (out_fname : option string) (checkpoints_path : option string)
    (overlay_img : bool) (class_names : option (list string))
    (show_legends : bool) (colors : list color)
    (prediction_width prediction_height : option nat)
    (all_visualisations : bool) (out_fnames : option (list string))
  : result (class_map * list (string * image)) :=
  model <- match model, checkpoints_path with
           | None, Some checkpoints_path =>
               m <- model_from_checkpoint_path checkpoints_path ;; Ok (Some m)
           | _, _ => Ok model
           end ;;
  inp <- match inp with
         | None => Raise (AssertionError "")
         | Some inp => Ok inp
         end ;;
  inp <- match inp with
         | InpPath p =>
             match imread p with
             | Some a => Ok a
             | None => Raise AttributeError
             end
         | InpArray a => Ok a
         end ;;
  (* len(inp.shape) is 3: an [image] has shape (h, w, 3) *)
  model <- match model with
           | None => Raise AttributeError
           | Some model => Ok model
           end ;;
  let n_classes := Z.of_nat (n_classes model) in
  pr <- predicted_class_map model inp ;;
  let vis overlay_img show_legends :=
    visualize pr (Some inp) (Some n_classes) colors class_names
              overlay_img show_legends prediction_width prediction_height in
  written <-
    (if all_visualisations then
       overlay_and_legends <- vis true true ;;
       overlay <- vis true false ;;
       legends <- vis false true ;;
       plain <- vis false false ;;
       match out_fnames with
       | Some out_fnames =>
           f0 <- getitem out_fnames 0 ;;
           f1 <- getitem out_fnames 1 ;;
           f2 <- getitem out_fnames 2 ;;
           f3 <- getitem out_fnames 3 ;;
           Ok [(f0, overlay_and_legends); (f1, overlay); (f2, legends); (f3, plain)]
       | None => Ok []
       end
     else
       seg_img <- vis overlay_img show_legends ;;
       match out_fname with
       | Some out_fname => Ok [(out_fname, seg_img)]
       | None => Ok []
       end) ;;
  Ok (pr, written).

(** ** Evaluation *)

(** [segmentation.data_loader]: an annotation, the ground truth read from
    it as an array of shape [(height, width, nClasses)], and the pairs of a
    directory of images and a directory of annotations. *)
Variable annotation : Type.
Variable get_segmentation_array :
  annotation -> nat -> nat -> nat -> result (list (list (list Z))).
Variable get_pairs_from_paths : string -> string -> result (list (input * annotation)).

(** The four accumulators, each of shape [(n_classes,)]. *)
Record counters : Type := {
  tp : list Z;
  fp : list Z;
  fn : list Z;
  n_pixels : list Z
}.

(** [a[i] += v] *)
Definition add_at (a : list Z) (i : Z) (v : Z) : result (list Z) :=
  x <- getitem a i ;;
  Ok (firstn (Z.to_nat i) a ++ (x + v) :: skipn (S (Z.to_nat i)) a).

(** [np.sum] of a boolean array *)
Definition count_true (m : list bool) : Z := fold_left (fun s b => s + b2z b) m 0.

(** [a * b] for boolean arrays *)
Definition bool_mul (a b : list bool) : result (list bool) :=
  broadcast2 (fun x y => Ok (x && y)) a b.

Definition eq_class (cl_i : Z) (a : list Z) : list bool := map (fun v => v =? cl_i) a.
Definition ne_class (cl_i : Z) (a : list Z) : list bool :=
  map (fun v => negb (v =? cl_i)) a.

(** One pass of the loop over the classes. *)
Definition count_class (pr gt : list Z) (st : counters) (cl_i : Z) : result counters :=
  m <- bool_mul (eq_class cl_i pr) (eq_class cl_i gt) ;;
  tp' <- add_at (tp st) cl_i (count_true m) ;;
  m <- bool_mul (eq_class cl_i pr) (ne_class cl_i gt) ;;
  fp' <- add_at (fp st) cl_i (count_true m) ;;
  m <- bool_mul (ne_class cl_i pr) (eq_class cl_i gt) ;;
  fn' <- add_at (fn st) cl_i (count_true m) ;;
  n_pixels' <- add_at (n_pixels st) cl_i (count_true (eq_class cl_i gt)) ;;
  Ok {| tp := tp'; fp := fp'; fn := fn'; n_pixels := n_pixels' |}.

(** The flattened prediction and ground truth of one pair. *)
Definition pair_labels (model : Model) (inp : input) (ann : annotation)
  : result (list Z * list Z) :=
  pr <- predict_segmentation (Some model) (Some inp) None None false None false
          class_colors None None false None ;;
  let pr := fst pr in
  gt <- get_segmentation_array ann (n_classes model) (output_width model)
          (output_height model) ;;
  gt <- argmax_axis2 Z.ltb gt ;;
  let pr := List.concat pr in
  let gt := List.concat gt in
  Ok (pr, gt).

(** One pass of the loop over the pairs. *)
Definition count_pair (model : Model) (st : counters) (pair : input * annotation)
  : result counters :=
  let '(inp, ann) := pair in
  labels <- pair_labels model inp ann ;;
  let '(pr, gt) := labels in
  foldM (count_class pr gt) (Py.range (Z.of_nat (n_classes model))) st.

Definition zero_counters (n : nat) : counters :=
  {| tp := repeat 0 n; fp := repeat 0 n; fn := repeat 0 n; n_pixels := repeat 0 n |}.

(** [0.000000000001] *)
Definition eps : F64.f64 := Some (F64.round64 (1 # 1000000000000)).

(** Element-wise float64 operations of numpy, and its reductions. *)
Definition np_add (a b : list F64.f64) : result (list F64.f64) :=
  broadcast2 (fun x y => Ok (F64.add x y)) a b.
Definition np_mul (a b : list F64.f64) : result (list F64.f64) :=
  broadcast2 (fun x y => Ok (F64.mul x y)) a b.
Definition np_div (a b : list F64.f64) : result (list F64.f64) :=
  broadcast2 (fun x y => Ok (F64.div x y)) a b.

(** [np.sum] of a 1-D float64 array adds as numpy's [add.reduce] does: fewer
    than 8 elements one after the other; up to 128 elements in 8 running
    sums, each of the elements 8 apart, that are added two by two at the
    end, the elements left over after them; a longer array as the sum of
    those of its two parts, the first of a length that 8 divides. *)
Definition sum8 (r : list F64.f64) : F64.f64 :=
  match r with
  | [r0; r1; r2; r3; r4; r5; r6; r7] =>
      F64.add (F64.add (F64.add r0 r1) (F64.add r2 r3))
              (F64.add (F64.add r4 r5) (F64.add r6 r7))
  | _ => None
  end.

Fixpoint add_blocks (k : nat) (r a : list F64.f64) : list F64.f64 * list F64.f64 :=
  match k with
  | O => (r, a)
  | S k' => add_blocks k' (zip_with F64.add r (firstn 8 a)) (skipn 8 a)
  end.

Fixpoint pairwise_sum (fuel : nat) (a : list F64.f64) : F64.f64 :=
  let n := List.length a in
  if (n <? 8)%nat then fold_left F64.add a (Some 0%Q)
  else if (n <=? 128)%nat then
    let '(r, rest) := add_blocks (n / 8 - 1) (firstn 8 a) (skipn 8 a) in
    fold_left F64.add rest (sum8 r)
  else
    match fuel with
    | O => None
    | S fuel' =>
        let n2 := (n / 2 - (n / 2) mod 8)%nat in
        F64.add (pairwise_sum fuel' (firstn n2 a)) (pairwise_sum fuel' (skipn n2 a))
    end.

Definition np_sum (a : list F64.f64) : F64.f64 := pairwise_sum (List.length a) a.
Definition np_mean (a : list F64.f64) : F64.f64 :=
  F64.div (np_sum a) (F64.of_Z (Z.of_nat (List.length a))).

(** What [evaluate_segmentation] returns. *)
Record scores : Type := {
  frequency_weighted_IU : F64.f64;
  mean_IU : F64.f64;
  class_wise_IU : list F64.f64
}.

(** The lines after the loop. *)
Definition iu_scores (st : counters) : result scores :=
  let tp := map F64.of_Z (tp st) in
  let fp := map F64.of_Z (fp st) in
  let fn := map F64.of_Z (fn st) in
  let n_pixels := map F64.of_Z (n_pixels st) in
  s <- np_add tp fp ;;
  s <- np_add s fn ;;
  let s := map (fun x => F64.add x eps) s in
  cl_wise_score <- np_div tp s ;;
  let total := np_sum n_pixels in
  let n_pixels_norm := map (fun x => F64.div x total) n_pixels in
  weighted <- np_mul cl_wise_score n_pixels_norm ;;
  let frequency_weighted_IU := np_sum weighted in
  let mean_IU := np_mean cl_wise_score in
  Ok {| frequency_weighted_IU := frequency_weighted_IU;
        mean_IU := mean_IU;
        class_wise_IU := cl_wise_score |}.

(** The loop of [evaluate_segmentation]. *)
Definition count_pairs (model : Model) (pairs : list (input * annotation))
  : result counters :=
  foldM (count_pair model) pairs (zero_counters (n_classes model)).

Definition evaluate_segmentation (model : option Model)
    (inp_images : option (list input)) (annotations : option (list annotation))
    (inp_images_dir annotations_dir : option string)
    (checkpoints_path : option string) : result scores :=
  model <- match model with
           | None =>
               match checkpoints_path with
               | None =>
                   Raise (AssertionError "Please provide the model or the checkpoints_path")
               | Some checkpoints_path => model_from_checkpoint_path checkpoints_path
               end
           | Some model => Ok model
           end ;;
  lists <- match inp_images with
           | None =>
               match inp_images_dir, annotations_dir with
               | None, _ | _, None =>
                   Raise (AssertionError "Please provide inp_images or inp_images_dir")
               | Some inp_images_dir, Some annotations_dir =>
                   paths <- get_pairs_from_paths inp_images_dir annotations_dir ;;
                   match paths with
                   | [] => Raise IndexError
                   | _ => Ok (map fst paths, Some (map snd paths))
                   end
               end
           | Some inp_images => Ok (inp_images, annotations)
           end ;;
  let '(inp_images, annotations) := lists in
  annotations <- match annotations with
                 | None => Raise (AssertionError "")
                 | Some annotations => Ok annotations
                 end ;;
  st <- count_pairs model (combine inp_images annotations) ;;
  iu_scores st.

End Prediction.

Arguments n_classes {tensor} m.
Arguments input_width {tensor} m.
Arguments input_height {tensor} m.
Arguments output_width {tensor} m.
Arguments output_height {tensor} m.
Arguments predict {tensor} m batch.

(** * Properties *)

(** ** binary64 rounding *)

Module F64Facts.

Import F64.
Local Open Scope Q_scope.

(** *** Powers of two *)

Lemma pow2_pos (k : Z) : 0 < pow2 k.
Proof. apply Qpower_0_lt. reflexivity. Qed.

Lemma pow2_add (a b : Z) : pow2 (a + b) == pow2 a * pow2 b.
Proof. apply Qpower_plus. discriminate. Qed.

Lemma pow2_le (a b : Z) : (a <= b)%Z -> pow2 a <= pow2 b.
Proof. intros H. apply Qpower_le_compat_l; [exact H | discriminate]. Qed.

Lemma pow2_lt_inv (a b : Z) : pow2 a < pow2 b -> (a < b)%Z.
Proof. intros H. apply (Qpower_lt_compat_l_inv 2); [exact H | reflexivity]. Qed.

Lemma pow2_Z (k : Z) : (0 <= k)%Z -> pow2 k == inject_Z (2 ^ k).
Proof. intros H. unfold pow2. rewrite Zpower_Qpower by exact H. reflexivity. Qed.

Lemma pow2_cancel (a : Z) : pow2 a * pow2 (- a) == 1.
Proof. rewrite <- pow2_add. replace (a + - a)%Z with 0%Z by ring. reflexivity. Qed.

(** *** The binary exponent *)

Lemma Q_as_fraction (x : Q) :
  x * inject_Z (Zpos (Qden x)) == inject_Z (Qnum x).
Proof.
  destruct x as [a b]. unfold Qeq, Qmult, inject_Z. simpl.
  rewrite Pos.mul_1_r. ring.
Qed.

Lemma ilog2_spec (x : Q) :
  0 < x -> pow2 (ilog2 x) <= x /\ x < pow2 (ilog2 x + 1).
Proof.
  intros Hx.
  assert (Ha : (0 < Qnum x)%Z).
  { destruct x as [a b]. unfold Qlt in Hx. simpl in *. lia. }
  pose proof (Q_as_fraction x) as Hfrac.
  set (a := Qnum x) in *. set (b := Zpos (Qden x)) in *.
  assert (Hb : (0 < b)%Z) by (unfold b; lia).
  destruct (Z.log2_spec a Ha) as [Ha1 Ha2].
  destruct (Z.log2_spec b Hb) as [Hb1 Hb2].
  pose proof (Z.log2_nonneg a) as Hla. pose proof (Z.log2_nonneg b) as Hlb.
  set (la := Z.log2 a) in *. set (lb := Z.log2 b) in *.
  assert (HA1 : pow2 la <= inject_Z a).
  { rewrite pow2_Z by lia. rewrite <- Zle_Qle. exact Ha1. }
  assert (HA2 : inject_Z a < pow2 (la + 1)).
  { rewrite pow2_Z by lia. rewrite <- Zlt_Qlt. unfold Z.succ in Ha2. exact Ha2. }
  assert (HB1 : pow2 lb <= inject_Z b).
  { rewrite pow2_Z by lia. rewrite <- Zle_Qle. exact Hb1. }
  assert (HB2 : inject_Z b < pow2 (lb + 1)).
  { rewrite pow2_Z by lia. rewrite <- Zlt_Qlt. unfold Z.succ in Hb2. exact Hb2. }
  assert (HB : 0 < inject_Z b).
  { change 0 with (inject_Z 0). rewrite <- Zlt_Qlt. exact Hb. }
  (* x lies strictly between 2^(d-1) and 2^(d+1) *)
  assert (Hlow : pow2 (la - lb - 1) < x).
  { assert (E : pow2 (la - lb - 1) * pow2 (lb + 1) == pow2 la).
    { rewrite <- pow2_add. replace (la - lb - 1 + (lb + 1))%Z with la by ring.
      reflexivity. }
    pose proof (pow2_pos (la - lb - 1)) as Hp.
    apply (Qmult_lt_r _ _ (inject_Z b) HB).
    rewrite Hfrac.
    apply Qlt_le_trans with (pow2 (la - lb - 1) * pow2 (lb + 1)).
    - apply Qmult_lt_l; assumption.
    - rewrite E. exact HA1. }
  assert (Hhigh : x < pow2 (la - lb + 1)).
  { assert (E : pow2 (la - lb + 1) * pow2 lb == pow2 (la + 1)).
    { rewrite <- pow2_add. replace (la - lb + 1 + lb)%Z with (la + 1)%Z by ring.
      reflexivity. }
    pose proof (pow2_pos (la - lb + 1)) as Hp.
    apply (Qmult_lt_r _ _ (inject_Z b) HB).
    rewrite Hfrac.
    apply Qlt_le_trans with (pow2 (la + 1)); [exact HA2 |].
    rewrite <- E. apply Qmult_le_l; assumption. }
  unfold ilog2. fold a b la lb.
  destruct (Qle_bool (pow2 (la - lb)) x) eqn:E.
  - apply Qle_bool_iff in E. split; assumption.
  - assert (Hlt : x < pow2 (la - lb)).
    { apply Qnot_le_lt. intros H. apply Qle_bool_iff in H. congruence. }
    split.
    + apply Qlt_le_weak. exact Hlow.
    + replace (la - lb - 1 + 1)%Z with (la - lb)%Z by ring. exact Hlt.
Qed.

Lemma ilog2_unique (x : Q) (e : Z) :
  pow2 e <= x -> x < pow2 (e + 1) -> ilog2 x = e.
Proof.
  intros H1 H2.
  assert (Hx : 0 < x) by (eapply Qlt_le_trans; [apply (pow2_pos e) | exact H1]).
  destruct (ilog2_spec x Hx) as [H3 H4].
  assert (ilog2 x < e + 1)%Z.
  { apply pow2_lt_inv. eapply Qle_lt_trans; eassumption. }
  assert (e < ilog2 x + 1)%Z.
  { apply pow2_lt_inv. eapply Qle_lt_trans; eassumption. }
  lia.
Qed.

Lemma ilog2_comp (x y : Q) : 0 < x -> x == y -> ilog2 x = ilog2 y.
Proof.
  intros Hx E. symmetry. destruct (ilog2_spec x Hx) as [H1 H2].
  apply ilog2_unique; rewrite <- E; assumption.
Qed.

Lemma ilog2_le (x : Q) (k : Z) : 0 < x -> x < pow2 k -> (ilog2 x < k)%Z.
Proof.
  intros Hx H. destruct (ilog2_spec x Hx) as [H1 _].
  apply pow2_lt_inv. eapply Qle_lt_trans; eassumption.
Qed.

(** *** Rounding to the nearest integer *)

Lemma round_half_even_comp (x y : Q) :
  x == y -> round_half_even x = round_half_even y.
Proof.
  intros E. unfold round_half_even.
  rewrite (Qfloor_comp _ _ E).
  assert (E' : x - inject_Z (Qfloor y) == y - inject_Z (Qfloor y))
    by (rewrite E; reflexivity).
  rewrite (Qcompare_comp _ _ E' _ _ (Qeq_refl (1 # 2))). reflexivity.
Qed.

Lemma round_half_even_floor (y : Q) : (Qfloor y <= round_half_even y)%Z.
Proof.
  unfold round_half_even.
  destruct (Qcompare (y - inject_Z (Qfloor y)) (1 # 2));
    [destruct (Z.even (Qfloor y)) | |]; lia.
Qed.

Lemma round_half_even_ceiling (y : Q) : (round_half_even y <= Qceiling y)%Z.
Proof.
  assert (Hfc : (Qfloor y <= Qceiling y)%Z).
  { rewrite Zle_Qle. apply Qle_trans with y; [apply Qfloor_le | apply Qle_ceiling]. }
  assert (Hstep : inject_Z (Qfloor y) < y -> (Qfloor y + 1 <= Qceiling y)%Z).
  { intros H. pose proof (Qle_ceiling y) as Hc.
    assert (Hlt : inject_Z (Qfloor y) < inject_Z (Qceiling y))
      by (eapply Qlt_le_trans; eassumption).
    rewrite <- Zlt_Qlt in Hlt. lia. }
  unfold round_half_even.
  destruct (Qcompare_spec (y - inject_Z (Qfloor y)) (1 # 2)) as [E | E | E].
  - destruct (Z.even (Qfloor y)); [exact Hfc |]. apply Hstep. lra.
  - exact Hfc.
  - apply Hstep. lra.
Qed.

Lemma round_half_even_ge (y : Q) (k : Z) :
  inject_Z k <= y -> (k <= round_half_even y)%Z.
Proof.
  intros H. apply Qfloor_resp_le in H. rewrite Qfloor_Z in H.
  pose proof (round_half_even_floor y). lia.
Qed.

Lemma round_half_even_le (y : Q) (k : Z) :
  y <= inject_Z k -> (round_half_even y <= k)%Z.
Proof.
  intros H. apply Qceiling_resp_le in H. rewrite Qceiling_Z in H.
  pose proof (round_half_even_ceiling y). lia.
Qed.

(** *** Rounding to 53 bits: grid points bound the result *)

(** [n * 2^j] with [j] at least the exponent of the last bit of [x] is a
    multiple of the rounding step for [x]. *)
Lemma on_grid (n j e : Z) :
  (e - 52 <= j)%Z ->
  inject_Z n * pow2 j * pow2 (52 - e) == inject_Z (n * 2 ^ (j + 52 - e)).
Proof.
  intros H. rewrite inject_Z_mult, <- pow2_Z by lia.
  rewrite <- Qmult_assoc, <- pow2_add.
  replace (j + (52 - e))%Z with (j + 52 - e)%Z by ring. reflexivity.
Qed.

Lemma off_grid (m : Q) (e : Z) : m * pow2 (52 - e) * pow2 (e - 52) == m.
Proof.
  rewrite <- Qmult_assoc, <- pow2_add.
  replace (52 - e + (e - 52))%Z with 0%Z by ring.
  change (pow2 0) with 1. ring.
Qed.

Lemma round_pos_ge (x : Q) (n j : Z) :
  0 < x -> (ilog2 x - 52 <= j)%Z ->
  inject_Z n * pow2 j <= x -> inject_Z n * pow2 j <= round_pos x.
Proof.
  intros Hx Hj H. unfold round_pos. set (e := ilog2 x) in *.
  rewrite <- (off_grid (inject_Z n * pow2 j) e).
  apply Qmult_le_compat_r; [| apply Qlt_le_weak, pow2_pos].
  rewrite on_grid by exact Hj. rewrite <- Zle_Qle.
  apply round_half_even_ge. rewrite <- on_grid by exact Hj.
  apply Qmult_le_compat_r; [exact H | apply Qlt_le_weak, pow2_pos].
Qed.

Lemma round_pos_le (x : Q) (n j : Z) :
  0 < x -> (ilog2 x - 52 <= j)%Z ->
  x <= inject_Z n * pow2 j -> round_pos x <= inject_Z n * pow2 j.
Proof.
  intros Hx Hj H. unfold round_pos. set (e := ilog2 x) in *.
  rewrite <- (off_grid (inject_Z n * pow2 j) e).
  apply Qmult_le_compat_r; [| apply Qlt_le_weak, pow2_pos].
  rewrite on_grid by exact Hj. rewrite <- Zle_Qle.
  apply round_half_even_le. rewrite <- on_grid by exact Hj.
  apply Qmult_le_compat_r; [exact H | apply Qlt_le_weak, pow2_pos].
Qed.

Lemma round_pos_comp (x y : Q) : 0 < x -> x == y -> round_pos x == round_pos y.
Proof.
  intros Hx E. unfold round_pos. rewrite <- (ilog2_comp x y Hx E).
  rewrite (round_half_even_comp (x * pow2 (52 - ilog2 x)) (y * pow2 (52 - ilog2 x))).
  - reflexivity.
  - apply Qmult_comp; [exact E | reflexivity].
Qed.

Lemma round_pos_pos (x : Q) : 0 < x -> 0 < round_pos x.
Proof.
  intros Hx. apply Qlt_le_trans with (inject_Z 1 * pow2 (ilog2 x)).
  - change (inject_Z 1) with 1. rewrite Qmult_1_l. apply pow2_pos.
  - apply round_pos_ge; [exact Hx | lia |].
    change (inject_Z 1) with 1. rewrite Qmult_1_l. apply ilog2_spec, Hx.
Qed.

(** *** [round64] *)

Lemma round64_comp (x y : Q) : x == y -> round64 x = round64 y.
Proof.
  intros E. unfold round64. apply Qred_complete.
  rewrite <- (Qcompare_comp _ _ E _ _ (Qeq_refl 0)).
  destruct (Qcompare_spec x 0) as [H | H | H].
  - reflexivity.
  - assert (Hx : 0 < - x) by lra.
    rewrite (round_pos_comp (- x) (- y) Hx); [reflexivity | rewrite E; reflexivity].
  - apply round_pos_comp; assumption.
Qed.

Lemma round64_pos_eq (x : Q) : 0 < x -> round64 x == round_pos x.
Proof.
  intros Hx. unfold round64. rewrite Qred_correct.
  destruct (Qcompare_spec x 0) as [H | H | H]; [lra | lra | reflexivity].
Qed.

Lemma round64_nonneg (x : Q) : 0 <= x -> 0 <= round64 x.
Proof.
  intros Hx. destruct (Qlt_le_dec 0 x) as [H | H].
  - rewrite round64_pos_eq by exact H. apply Qlt_le_weak, round_pos_pos, H.
  - assert (E : x == 0) by lra. rewrite (round64_comp x 0 E). discriminate.
Qed.

Lemma round64_pos (x : Q) : 0 < x -> 0 < round64 x.
Proof.
  intros Hx. rewrite round64_pos_eq by exact Hx. apply round_pos_pos, Hx.
Qed.

(** An integer bound that fits the significand is kept by rounding. *)
Lemma round64_ge_Z (x : Q) (n : Z) :
  inject_Z n <= x -> x < pow2 53 -> (0 <= n)%Z -> inject_Z n <= round64 x.
Proof.
  intros H Hlt Hn. destruct (Qlt_le_dec 0 x) as [Hx | Hx].
  - rewrite round64_pos_eq by exact Hx.
    pose proof (ilog2_le x 53 Hx Hlt).
    rewrite <- (Qmult_1_r (inject_Z n)). change 1 with (pow2 0).
    apply round_pos_ge; [exact Hx | lia |].
    change (pow2 0) with 1. rewrite Qmult_1_r. exact H.
  - apply Qle_trans with x; [exact H |].
    apply Qle_trans with 0; [exact Hx |]. apply round64_nonneg.
    apply Qle_trans with (inject_Z n); [| exact H].
    change 0 with (inject_Z 0). rewrite <- Zle_Qle. exact Hn.
Qed.

Lemma round64_le_1 (x : Q) : x <= 1 -> round64 x <= 1.
Proof.
  intros H. destruct (Qlt_le_dec 0 x) as [Hx | Hx].
  - rewrite round64_pos_eq by exact Hx.
    assert (Hlt : x < pow2 1) by (change (pow2 1) with 2; lra).
    pose proof (ilog2_le x 1 Hx Hlt).
    apply Qle_trans with (inject_Z 1 * pow2 0); [| discriminate].
    apply round_pos_le; [exact Hx | lia |].
    change (inject_Z 1 * pow2 0) with (1 * 1). lra.
  - unfold round64. rewrite Qred_correct.
    destruct (Qcompare_spec x 0) as [E | E | E]; [discriminate | | lra].
    assert (Hp : 0 < round_pos (- x)) by (apply round_pos_pos; lra). lra.
Qed.

(** A number with a significand of at most 53 bits is its own rounding. *)
Lemma round64_exact (x : Q) (n j : Z) :
  (0 <= n < 2 ^ 53)%Z -> x == inject_Z n * pow2 j -> round64 x = Qred x.
Proof.
  intros Hn E. destruct (Z.eq_dec n 0) as [-> | Hn0].
  - assert (E0 : x == 0) by (rewrite E; ring).
    rewrite (round64_comp x 0 E0). symmetry.
    change (round64 0) with (Qred 0). apply Qred_complete, E0.
  - assert (Hx : 0 < x).
    { rewrite E. apply Qmult_lt_0_compat; [| apply pow2_pos].
      change 0 with (inject_Z 0). rewrite <- Zlt_Qlt. lia. }
    assert (Hlt : x < pow2 (53 + j)).
    { rewrite E, pow2_add. apply Qmult_lt_r; [apply pow2_pos |].
      rewrite pow2_Z by lia. rewrite <- Zlt_Qlt. lia. }
    pose proof (ilog2_le x (53 + j) Hx Hlt) as He.
    unfold round64. apply Qred_complete.
    destruct (Qcompare_spec x 0) as [H | H | H]; [lra | lra |].
    apply Qle_antisym.
    + rewrite E at 2. apply round_pos_le; [exact Hx | lia | rewrite E; apply Qle_refl].
    + rewrite E at 1. apply round_pos_ge; [exact Hx | lia | rewrite E; apply Qle_refl].
Qed.

Lemma round64_Z (n : Z) : (0 <= n < 2 ^ 53)%Z -> round64 (inject_Z n) = inject_Z n.
Proof.
  intros Hn. rewrite (round64_exact (inject_Z n) n 0 Hn).
  - apply Qcanon.Qred_identity. simpl. apply Z.gcd_1_r.
  - change (pow2 0) with 1. ring.
Qed.

(** *** Rounding is monotone and reaches a fixed point at once *)

Lemma round_half_even_mono (x y : Q) :
  x <= y -> (round_half_even x <= round_half_even y)%Z.
Proof.
  intros H. pose proof (Qfloor_resp_le _ _ H) as Hf.
  destruct (Z.eq_dec (Qfloor x) (Qfloor y)) as [E | N].
  - unfold round_half_even. rewrite <- E.
    destruct (Qcompare_spec (x - inject_Z (Qfloor x)) (1 # 2)) as [Ex | Ex | Ex];
      destruct (Qcompare_spec (y - inject_Z (Qfloor x)) (1 # 2)) as [Ey | Ey | Ey];
      try destruct (Z.even (Qfloor x)); try lia; lra.
  - apply Z.le_trans with (Qfloor x + 1)%Z.
    + apply round_half_even_le. apply Qlt_le_weak, Qlt_floor.
    + apply Z.le_trans with (Qfloor y); [lia | apply round_half_even_floor].
Qed.

Lemma round_pos_mono (x y : Q) : 0 < x -> x <= y -> round_pos x <= round_pos y.
Proof.
  intros Hx H. assert (Hy : 0 < y) by lra.
  destruct (ilog2_spec x Hx) as [Hx1 Hx2]. destruct (ilog2_spec y Hy) as [Hy1 Hy2].
  assert (He : (ilog2 x <= ilog2 y)%Z).
  { assert (ilog2 x < ilog2 y + 1)%Z; [| lia].
    apply pow2_lt_inv. lra. }
  destruct (Z.eq_dec (ilog2 x) (ilog2 y)) as [E | N].
  - unfold round_pos. rewrite E.
    apply Qmult_le_compat_r; [| apply Qlt_le_weak, pow2_pos].
    rewrite <- Zle_Qle. apply round_half_even_mono.
    apply Qmult_le_compat_r; [exact H | apply Qlt_le_weak, pow2_pos].
  - apply Qle_trans with (inject_Z 1 * pow2 (ilog2 x + 1)).
    + apply round_pos_le; [exact Hx | lia |].
      change (inject_Z 1) with 1. lra.
    + apply Qle_trans with (inject_Z 1 * pow2 (ilog2 y)).
      * apply Qmult_le_l; [reflexivity | apply pow2_le; lia].
      * apply round_pos_ge; [exact Hy | lia |].
        change (inject_Z 1) with 1. lra.
Qed.

Lemma round64_mono (x y : Q) : 0 <= x -> x <= y -> round64 x <= round64 y.
Proof.
  intros Hx H. destruct (Qlt_le_dec 0 x) as [Hpos | Hz].
  - rewrite !round64_pos_eq by lra. apply round_pos_mono; assumption.
  - assert (E : x == 0) by lra. rewrite (round64_comp x 0 E).
    change (round64 0) with 0. apply round64_nonneg. lra.
Qed.

Lemma round_pos_mantissa (x : Q) :
  0 < x -> (0 <= round_half_even (x * pow2 (52 - ilog2 x)) <= 2 ^ 53)%Z.
Proof.
  intros Hx. destruct (ilog2_spec x Hx) as [H1 H2]. split.
  - apply round_half_even_ge. change (inject_Z 0) with 0.
    apply Qmult_le_0_compat; [lra | apply Qlt_le_weak, pow2_pos].
  - apply round_half_even_le. rewrite <- pow2_Z by lia.
    apply Qle_trans with (pow2 (ilog2 x + 1) * pow2 (52 - ilog2 x)).
    + apply Qmult_le_compat_r; [lra | apply Qlt_le_weak, pow2_pos].
    + rewrite <- pow2_add. replace (ilog2 x + 1 + (52 - ilog2 x))%Z with 53%Z by ring.
      apply Qle_refl.
Qed.

Lemma round64_idempotent (x : Q) : 0 <= x -> round64 (round64 x) = round64 x.
Proof.
  intros H0. destruct (Qlt_le_dec 0 x) as [Hx | Hz].
  - pose proof (round_pos_mantissa x Hx) as Hm.
    set (m := round_half_even (x * pow2 (52 - ilog2 x))) in *.
    assert (Er : round64 x == inject_Z m * pow2 (ilog2 x - 52))
      by (rewrite round64_pos_eq by exact Hx; reflexivity).
    assert (Eq : round64 x = Qred (round_pos x)).
    { unfold round64. destruct (Qcompare_spec x 0); [lra | lra | reflexivity]. }
    destruct (Z.eq_dec m (2 ^ 53)) as [E | N].
    + rewrite (round64_exact (round64 x) 1 (ilog2 x + 1)).
      * rewrite Eq. apply Qcanon.Qred_involutive.
      * split; [lia | reflexivity].
      * rewrite Er, E. rewrite <- pow2_Z by lia. rewrite <- pow2_add.
        change (inject_Z 1) with 1. rewrite Qmult_1_l.
        replace (53 + (ilog2 x - 52))%Z with (ilog2 x + 1)%Z by ring. reflexivity.
    + rewrite (round64_exact (round64 x) m (ilog2 x - 52)).
      * rewrite Eq. apply Qcanon.Qred_involutive.
      * lia.
      * exact Er.
  - assert (E : x == 0) by lra. rewrite (round64_comp x 0 E). reflexivity.
Qed.

End F64Facts.

(** ** The result monad *)

Lemma bind_ok {A B : Type} (m : result A) (k : A -> result B) (b : B) :
  bind m k = Ok b -> exists a, m = Ok a /\ k a = Ok b.
Proof.
  destruct m as [a | e]; simpl; intros H; [exists a; auto | discriminate].
Qed.

Lemma Ok_inj {A : Type} (a b : A) : @Ok A a = Ok b -> a = b.
Proof. intros H. injection H as H. exact H. Qed.

Ltac inv_bind H :=
  let x := fresh "x" in
  let Hx := fresh "Hx" in
  apply bind_ok in H; destruct H as (x & Hx & H).

Ltac inv_bind_as H x Hx :=
  apply bind_ok in H; destruct H as (x & Hx & H).

(** ** Checkpoint resolution *)

(** [old in s] *)
Definition occurs (old s : string) : Prop :=
  exists a b, s = (a ++ old ++ b)%string.

(** A string of the characters [0] to [9], and the number it writes. *)
Fixpoint decimal_digits (s : string) : bool :=
  match s with
  | EmptyString => true
  | String a t => Py.ascii_digit (N_of_ascii a) && decimal_digits t
  end.

Definition decimal_literal (s : string) : bool :=
  match s with
  | EmptyString => false
  | _ => decimal_digits s
  end.

Fixpoint decimal_value_from (acc : Z) (s : string) : Z :=
  match s with
  | EmptyString => acc
  | String a t => decimal_value_from (10 * acc + (Z.of_N (N_of_ascii a) - 48)) t
  end.

Definition decimal_value (s : string) : Z := decimal_value_from 0 s.

Module PyFacts.

(** The code points of a string of ASCII characters. *)
Definition codes (s : string) : list N := map N_of_ascii (list_ascii_of_string s).

Definition digit_code (c : N) : Prop := (48 <= c <= 57)%N.

Lemma decode_decimal (s : string) :
  decimal_digits s = true ->
  Py.decode s = Some (codes s) /\ Forall digit_code (codes s).
Proof.
  induction s as [| a t IH]; intros H; [split; [reflexivity | constructor] |].
  cbn [decimal_digits] in H. apply andb_true_iff in H. destruct H as [Ha Ht].
  destruct (IH Ht) as [Hd Hall].
  unfold Py.ascii_digit in Ha. apply andb_true_iff in Ha. destruct Ha as [H1 H2].
  apply N.leb_le in H1, H2.
  change (codes (String a t)) with (N_of_ascii a :: codes t).
  split; [| constructor; [split; assumption | exact Hall]].
  cbn [Py.decode]. cbv zeta.
  destruct (N.ltb_spec (N_of_ascii a) 128) as [_ | Hge]; [| lia].
  rewrite Hd. reflexivity.
Qed.

Lemma is_digit_code (c : N) : digit_code c -> Py.is_digit c = true.
Proof.
  intros [H1 H2]. unfold Py.is_digit, Py.in_ranges. apply existsb_exists.
  exists (48%N, 57%N). split; [left; reflexivity |]. cbn [fst snd].
  apply andb_true_iff. split; apply N.leb_le; assumption.
Qed.

Lemma digit_code_test (c : N) :
  digit_code c ->
  Py.ascii_digit c = true /\ (c =? Py.underscore)%N = false /\
  Py.ascii_space c = false /\ (c <? 127)%N = true /\
  (c =? 43)%N = false /\ (c =? 45)%N = false.
Proof.
  intros [H1 H2]. unfold Py.ascii_digit, Py.ascii_space, Py.underscore.
  repeat split;
    repeat match goal with
           | |- context [(?x <=? ?y)%N] => destruct (N.leb_spec x y)
           | |- context [(?x <? ?y)%N] => destruct (N.ltb_spec x y)
           | |- context [(?x =? ?y)%N] => destruct (N.eqb_spec x y)
           end; cbn [andb orb]; try reflexivity; lia.
Qed.

Lemma to_ascii_digits (l : list N) : Forall digit_code l -> Py.to_ascii l = Some l.
Proof.
  induction 1 as [| c l Hc _ IH]; [reflexivity |]. cbn [Py.to_ascii].
  destruct (digit_code_test c Hc) as (_ & _ & _ & -> & _). rewrite IH. reflexivity.
Qed.

Lemma span_digits_all (l : list N) : Forall digit_code l -> Py.span_digits l = (l, []).
Proof.
  induction 1 as [| c l Hc _ IH]; [reflexivity |]. cbn [Py.span_digits].
  destruct (digit_code_test c Hc) as (-> & _). cbn [orb]. rewrite IH. reflexivity.
Qed.

Lemma filter_digits_all (l : list N) : Forall digit_code l -> filter Py.ascii_digit l = l.
Proof.
  induction 1 as [| c l Hc _ IH]; [reflexivity |]. cbn [filter].
  destruct (digit_code_test c Hc) as (-> & _). rewrite IH. reflexivity.
Qed.

Lemma single_underscores_digits (l : list N) :
  Forall digit_code l -> Py.single_underscores true l = true.
Proof.
  induction 1 as [| c l Hc _ IH]; [reflexivity |]. cbn [Py.single_underscores].
  destruct (digit_code_test c Hc) as (_ & -> & _). exact IH.
Qed.

Lemma digits_value_decimal (s : string) :
  Forall digit_code (codes s) ->
  forall acc, Py.digits_value acc (codes s) = decimal_value_from acc s.
Proof.
  induction s as [| a t IH]; intros H acc; [reflexivity |].
  change (codes (String a t)) with (N_of_ascii a :: codes t) in *.
  inversion H as [| ? ? Hc Ht]; subst. cbn [Py.digits_value decimal_value_from].
  destruct (digit_code_test _ Hc) as (_ & -> & _). apply IH, Ht.
Qed.

(** [str.isdigit] accepts a string of the characters [0] to [9], and [int]
    reads the number it writes. *)
Lemma decimal_literal_int (s : string) :
  decimal_literal s = true ->
  (String.length s <= Py.max_str_digits)%nat ->
  Py.isdigit s = true /\ Py.int s = Ok (decimal_value s).
Proof.
  intros Hs Hlen. destruct s as [| a t]; [discriminate |].
  cbn [decimal_literal] in Hs.
  destruct (decode_decimal _ Hs) as [Hd Hall].
  assert (Hcodes : List.length (codes (String a t)) = String.length (String a t)).
  { unfold codes. rewrite length_map. clear. generalize (String a t) as s.
    induction s as [| c s IH]; simpl; [reflexivity | rewrite IH; reflexivity]. }
  unfold Py.isdigit, Py.int. rewrite Hd.
  change (codes (String a t)) with (N_of_ascii a :: codes t) in *.
  inversion Hall as [| ? ? Hc Ht]; subst. split.
  - cbn [forallb]. rewrite (is_digit_code _ Hc). cbn [andb].
    apply forallb_forall. intros c Hin. rewrite Forall_forall in Ht.
    apply is_digit_code, Ht, Hin.
  - rewrite (to_ascii_digits _ Hall).
    destruct (digit_code_test _ Hc) as (Hdig & Hus & Hsp & _ & Hplus & Hminus).
    cbn [Py.skip_spaces]. rewrite Hsp. unfold Py.sign. rewrite Hplus, Hminus.
    rewrite (span_digits_all _ Hall), (filter_digits_all _ Hall).
    cbn [Py.single_underscores]. rewrite Hus, (single_underscores_digits _ Ht).
    cbn [Py.skip_spaces andb]. rewrite Hcodes.
    destruct (Nat.leb_spec (String.length (String a t)) Py.max_str_digits) as [_ | Hgt];
      [| lia].
    cbn [andb]. f_equal.
    exact (digits_value_decimal (String a t) Hall 0).
Qed.


(** [max_from] returns the candidate it holds or a later element, and no
    key exceeds the key of what it returns. *)
Lemma max_from_spec {A : Type} (key : A -> result Z) (l : list A) :
  forall (best : A) (kbest : Z),
    key best = Ok kbest ->
    (forall x, In x l -> exists k, key x = Ok k) ->
    exists r kr,
      Py.max_from key best kbest l = Ok r /\ (r = best \/ In r l) /\
      key r = Ok kr /\ kbest <= kr /\
      (forall x k, In x l -> key x = Ok k -> k <= kr).
Proof.
  induction l as [| x t IH]; intros best kbest Hbest Hall.
  - exists best, kbest. simpl. repeat split; auto; try lia; try (intros ? ? []).
  - destruct (Hall x (or_introl eq_refl)) as [k Hk].
    assert (Ht : forall y, In y t -> exists k, key y = Ok k)
      by (intros y Hy; apply Hall; right; exact Hy).
    simpl. rewrite Hk. simpl.
    destruct (Z.ltb_spec kbest k) as [Hlt | Hge].
    + destruct (IH x k Hk Ht) as (r & kr & Hr & Hin & Hkr & Hle & Hmax).
      exists r, kr. repeat split; auto; try lia.
      * destruct Hin as [-> | Hin]; [right; left; reflexivity | right; right; exact Hin].
      * intros y ky [<- | Hy] Hky; [congruence || (rewrite Hk in Hky; injection Hky; lia) |].
        eapply Hmax; eauto.
    + destruct (IH best kbest Hbest Ht) as (r & kr & Hr & Hin & Hkr & Hle & Hmax).
      exists r, kr. repeat split; auto.
      * destruct Hin as [-> | Hin]; [left; reflexivity | right; right; exact Hin].
      * intros y ky [<- | Hy] Hky; [rewrite Hk in Hky; injection Hky; lia |].
        eapply Hmax; eauto.
Qed.

Lemma max_key_spec {A : Type} (key : A -> result Z) (l : list A) :
  l <> [] ->
  (forall x, In x l -> exists k, key x = Ok k) ->
  exists r kr,
    Py.max_key key l = Ok r /\ In r l /\ key r = Ok kr /\
    (forall x k, In x l -> key x = Ok k -> k <= kr).
Proof.
  destruct l as [| x t]; [congruence |]. intros _ Hall.
  destruct (Hall x (or_introl eq_refl)) as [k Hk].
  assert (Ht : forall y, In y t -> exists k, key y = Ok k)
    by (intros y Hy; apply Hall; right; exact Hy).
  destruct (max_from_spec key t x k Hk Ht) as (r & kr & Hr & Hin & Hkr & Hle & Hmax).
  exists r, kr. simpl. rewrite Hk. simpl. repeat split; auto.
  - destruct Hin as [-> | Hin]; [left; reflexivity | right; exact Hin].
  - intros y ky [<- | Hy] Hky; [rewrite Hk in Hky; injection Hky; lia |].
    eapply Hmax; eauto.
Qed.

(** What [max_from] returns has the largest key, and every key was read. *)
Lemma max_from_inv {A : Type} (key : A -> result Z) (l : list A) :
  forall (best : A) (kbest : Z) (r : A),
    key best = Ok kbest ->
    Py.max_from key best kbest l = Ok r ->
    (r = best \/ In r l) /\
    exists kr, key r = Ok kr /\ kbest <= kr /\
               forall x, In x l -> exists k, key x = Ok k /\ k <= kr.
Proof.
  induction l as [| x t IH]; intros best kbest r Hbest H.
  - apply Ok_inj in H. subst r. split; [left; reflexivity |].
    exists kbest. split; [exact Hbest |]. split; [lia |]. intros x [].
  - cbn [Py.max_from] in H. inv_bind_as H k Hk.
    destruct (Z.ltb_spec kbest k) as [Hlt | Hge].
    + destruct (IH x k r Hk H) as (Hin & kr & Hkr & Hle & Hall).
      split; [destruct Hin as [-> | Hin]; right; [left; reflexivity | right; exact Hin] |].
      exists kr. split; [exact Hkr |]. split; [lia |].
      intros y [<- | Hy]; [exists k; split; [exact Hk | exact Hle] | apply Hall, Hy].
    + destruct (IH best kbest r Hbest H) as (Hin & kr & Hkr & Hle & Hall).
      split; [destruct Hin as [-> | Hin]; [left; reflexivity | right; right; exact Hin] |].
      exists kr. split; [exact Hkr |]. split; [exact Hle |].
      intros y [<- | Hy]; [exists k; split; [exact Hk | lia] | apply Hall, Hy].
Qed.

Lemma max_key_inv {A : Type} (key : A -> result Z) (l : list A) (r : A) :
  Py.max_key key l = Ok r ->
  In r l /\
  exists kr, key r = Ok kr /\ forall x, In x l -> exists k, key x = Ok k /\ k <= kr.
Proof.
  destruct l as [| x t]; [discriminate |]. cbn [Py.max_key]. intros H.
  inv_bind_as H k Hk.
  destruct (max_from_inv key t x k r Hk H) as (Hin & kr & Hkr & Hle & Hall).
  split; [destruct Hin as [-> | Hin]; [left; reflexivity | right; exact Hin] |].
  exists kr. split; [exact Hkr |].
  intros y [<- | Hy]; [exists k; split; [exact Hk | exact Hle] | apply Hall, Hy].
Qed.

(** Skipping the rest of an occurrence. *)
Lemma replace_from_skip (old new u rest : string) :
  Py.replace_from old new (u ++ rest) (String.length u)
  = Py.replace_from old new rest 0.
Proof.
  induction u as [| c u IH]; simpl.
  - destruct rest; reflexivity.
  - exact IH.
Qed.

Lemma prefix_app (p rest : string) : prefix p (p ++ rest) = true.
Proof.
  induction p as [| c p IH]; simpl.
  - destruct rest; reflexivity.
  - destruct (ascii_dec c c) as [_ | N]; [exact IH | congruence].
Qed.

(** [replace] removes a leading occurrence and goes on behind it. *)
Lemma replace_prefix (p new rest : string) :
  p <> EmptyString ->
  Py.replace p new (p ++ rest) = (new ++ Py.replace p new rest)%string.
Proof.
  intros Hp. destruct p as [| c p]; [congruence |].
  unfold Py.replace.
  change (String c p ++ rest)%string with (String c (p ++ rest)).
  cbn [Py.replace_from].
  change (String c (p ++ rest)) with (String c p ++ rest)%string.
  rewrite prefix_app. cbn [String.length]. rewrite Nat.sub_1_r. cbn [Nat.pred].
  rewrite replace_from_skip. reflexivity.
Qed.

Lemma prefix_inv (p : string) :
  forall s, prefix p s = true -> exists b, s = (p ++ b)%string.
Proof.
  induction p as [| c p IH]; intros s H.
  - exists s. reflexivity.
  - destruct s as [| d s]; simpl in H; [discriminate |].
    destruct (ascii_dec c d) as [<- | _]; [| discriminate].
    destruct (IH s H) as [b ->]. exists b. reflexivity.
Qed.

(** [replace] leaves a string in which [old] does not occur as it is. *)
Lemma replace_absent (old new s : string) :
  old <> EmptyString -> ~ occurs old s -> Py.replace old new s = s.
Proof.
  intros Hold. destruct old as [| o old]; [congruence |].
  unfold Py.replace. induction s as [| c s IH]; intros Hno; [reflexivity |].
  cbn [Py.replace_from].
  destruct (prefix (String o old) (String c s)) eqn:E.
  - exfalso. apply Hno. destruct (prefix_inv _ _ E) as [b Hb].
    exists EmptyString, b. exact Hb.
  - f_equal. apply IH. intros (a & b & ->). apply Hno.
    exists (String c a), b. reflexivity.
Qed.

End PyFacts.

Section CheckpointFacts.

Local Open Scope string_scope.

Variable glob : string -> list string.
Variable normpath : string -> string.

Local Abbreviation epoch := (get_epoch_number_from_path normpath).
Local Abbreviation files := (checkpoint_files glob normpath).
Local Abbreviation find := (find_latest_checkpoint glob normpath).

(** The entries that pass the filter of [find_latest_checkpoint]. *)
Definition numbered_files (checkpoints_path : string) : list string :=
  filter (fun f => Py.isdigit (epoch checkpoints_path f)) (files checkpoints_path).

Lemma find_latest_checkpoint_none (checkpoints_path : string) (fail_safe : bool) :
  numbered_files checkpoints_path = [] ->
  find checkpoints_path fail_safe =
  if fail_safe then Ok None
  else Raise (ValueError ("Checkpoint path " ++ checkpoints_path ++ " invalid")).
Proof.
  unfold numbered_files, find_latest_checkpoint. intros ->. simpl.
  destruct fail_safe; reflexivity.
Qed.

(** Where [int] reads the epoch of every entry kept, the entry returned is
    one of the largest epoch. *)
Lemma find_latest_checkpoint_some (checkpoints_path : string) (fail_safe : bool) :
  numbered_files checkpoints_path <> [] ->
  (forall g, In g (numbered_files checkpoints_path) ->
             exists k, Py.int (epoch checkpoints_path g) = Ok k) ->
  exists f n,
    find checkpoints_path fail_safe = Ok (Some f) /\
    In f (numbered_files checkpoints_path) /\
    Py.int (epoch checkpoints_path f) = Ok n /\
    forall g m, In g (numbered_files checkpoints_path) ->
                Py.int (epoch checkpoints_path g) = Ok m -> m <= n.
Proof.
  intros Hne Hkeys.
  destruct (PyFacts.max_key_spec _ _ Hne Hkeys) as (r & kr & Hr & Hin & Hkr & Hmax).
  exists r, kr. repeat split; auto.
  unfold find_latest_checkpoint. fold (numbered_files checkpoints_path).
  destruct (numbered_files checkpoints_path) eqn:E; [congruence |].
  cbn [List.length Nat.eqb]. rewrite Hr. reflexivity.
Qed.

(** What [find_latest_checkpoint] returns is an entry kept; [int] has read
    the epoch of every entry kept, and none is larger than its own. *)
Lemma find_latest_checkpoint_inv (checkpoints_path : string) (fail_safe : bool)
    (f : string) :
  find checkpoints_path fail_safe = Ok (Some f) ->
  In f (numbered_files checkpoints_path) /\
  exists n,
    Py.int (epoch checkpoints_path f) = Ok n /\
    forall g, In g (numbered_files checkpoints_path) ->
              exists m, Py.int (epoch checkpoints_path g) = Ok m /\ m <= n.
Proof.
  unfold find_latest_checkpoint. fold (numbered_files checkpoints_path).
  destruct (numbered_files checkpoints_path) as [| x t] eqn:E.
  - cbn [List.length Nat.eqb]. destruct fail_safe; discriminate.
  - cbn [List.length Nat.eqb]. intros H. inv_bind_as H r Hr.
    apply Ok_inj in H. injection H as <-.
    apply (PyFacts.max_key_inv _ _ _ Hr).
Qed.

(** An entry kept whose epoch [int] does not read makes the call raise,
    with or without [fail_safe]. *)
Lemma find_latest_checkpoint_raise (checkpoints_path : string) (fail_safe : bool)
    (g : string) (e : exn) :
  In g (numbered_files checkpoints_path) ->
  Py.int (epoch checkpoints_path g) = Raise e ->
  exists e', find checkpoints_path fail_safe = Raise e'.
Proof.
  intros Hg He. destruct (find checkpoints_path fail_safe) as [[f |] | e'] eqn:E.
  - destruct (find_latest_checkpoint_inv _ _ _ E) as (_ & n & _ & Hall).
    destruct (Hall g Hg) as (m & Hm & _). congruence.
  - exfalso. revert E. unfold find_latest_checkpoint.
    fold (numbered_files checkpoints_path).
    destruct (numbered_files checkpoints_path) as [| x t]; [destruct Hg |].
    cbn [List.length Nat.eqb].
    destruct (Py.max_key _ (x :: t)); discriminate.
  - exists e'. reflexivity.
Qed.

(** For an entry that starts with the normalised checkpoint path, the epoch
    is what follows, less any further occurrence of that path and the dots
    around. *)
Lemma get_epoch_number_from_path_prefix (checkpoints_path rest : string) :
  normpath checkpoints_path <> "" ->
  epoch checkpoints_path (normpath checkpoints_path ++ rest)
  = Py.strip dot (Py.replace (normpath checkpoints_path) "" rest).
Proof.
  intros Hp. unfold get_epoch_number_from_path.
  rewrite PyFacts.replace_prefix by exact Hp. reflexivity.
Qed.

(** Where that path does not occur again, the epoch is what follows it,
    less the dots around. *)
Lemma get_epoch_number_from_path_suffix (checkpoints_path rest : string) :
  normpath checkpoints_path <> "" ->
  ~ occurs (normpath checkpoints_path) rest ->
  epoch checkpoints_path (normpath checkpoints_path ++ rest) = Py.strip dot rest.
Proof.
  intros Hp Hno. rewrite get_epoch_number_from_path_prefix by exact Hp.
  rewrite PyFacts.replace_absent by assumption. reflexivity.
Qed.

End CheckpointFacts.

(** A directory holding [ckpt.1], [ckpt.bak], [ckpt.5], the two files of
    epoch 10 and nothing else. *)
Definition ckpt_dir (pattern : string) : list string :=
  if String.eqb pattern "ckpt.*"
  then ["ckpt.1"; "ckpt.bak"; "ckpt.5"; "ckpt.10.index"; "ckpt.10.data-00000-of-00001"]%string
  else [].

(** A directory with no numbered entry for [ckpt]. *)
Definition bare_dir (pattern : string) : list string :=
  if String.eqb pattern "ckpt.*" then ["ckpt.bak"]%string else [].

(** The UTF-8 bytes of SUPERSCRIPT TWO (U+00B2), a digit that is no decimal
    digit, and of FULLWIDTH DIGIT ONE and TWO (U+FF11, U+FF12), which are. *)
Definition superscript_two : string :=
  String (ascii_of_nat 194) (String (ascii_of_nat 178) EmptyString).

Definition fullwidth_twelve : string :=
  String (ascii_of_nat 239) (String (ascii_of_nat 188) (String (ascii_of_nat 145)
    (String (ascii_of_nat 239) (String (ascii_of_nat 188) (String (ascii_of_nat 146)
       EmptyString))))).

(** A directory holding [ckpt.1] and an entry whose suffix is SUPERSCRIPT
    TWO. *)
Definition superscript_dir (pattern : string) : list string :=
  if String.eqb pattern "ckpt.*"
  then ["ckpt.1"; "ckpt." ++ superscript_two]%string
  else [].

(** A directory holding [ckpt.5] and an entry whose suffix is 12 in
    fullwidth digits. *)
Definition fullwidth_dir (pattern : string) : list string :=
  if String.eqb pattern "ckpt.*"
  then ["ckpt.5"; "ckpt." ++ fullwidth_twelve]%string
  else [].

(** C2. An entry whose suffix is a digit that writes no integer is kept
    all the same: [str.isdigit] accepts SUPERSCRIPT TWO, which [int] does
    not read.  In a directory that holds [ckpt.1] and such an entry,
    [find_latest_checkpoint] keeps both and raises [ValueError] from [int]
    inside [max], with or without [fail_safe], where the entry was to be
    left out and [ckpt.1] returned. *)
Theorem find_latest_checkpoint_digit_not_integer :
  Py.decode superscript_two = Some [178%N]
  /\ Py.isdigit superscript_two = true
  /\ (exists msg, Py.int superscript_two = Raise (ValueError msg))
  /\ get_epoch_number_from_path Posix.normpath "ckpt" ("ckpt." ++ superscript_two)
     = superscript_two
  /\ numbered_files superscript_dir Posix.normpath "ckpt"
     = ["ckpt.1"; "ckpt." ++ superscript_two]%string
  /\ (forall fail_safe,
        exists msg,
          find_latest_checkpoint superscript_dir Posix.normpath "ckpt" fail_safe
          = Raise (ValueError msg)).
Proof.
  split; [reflexivity |]. split; [reflexivity |].
  split; [eexists; reflexivity |]. split; [reflexivity |].
  split; [reflexivity |].
  intros fail_safe. eexists. destruct fail_safe; vm_compute; reflexivity.
Qed.

(** C6. When [str.isdigit] accepts the epoch of no entry,
    [find_latest_checkpoint] raises [ValueError] with [fail_safe] false and
    returns [None], raising nothing, with [fail_safe] true (the value of the
    keyword argument when the caller leaves it out). *)
Theorem find_latest_checkpoint_no_match :
  forall (glob : string -> list string) (normpath : string -> string)
         (checkpoints_path : string),
    numbered_files glob normpath checkpoints_path = [] ->
    find_latest_checkpoint glob normpath checkpoints_path false
    = Raise (ValueError ("Checkpoint path " ++ checkpoints_path ++ " invalid")%string)
    /\ find_latest_checkpoint glob normpath checkpoints_path true = Ok None
    /\ find_latest_checkpoint glob normpath checkpoints_path fail_safe_default = Ok None.
Proof.
  intros glob normpath checkpoints_path H.
  repeat split; rewrite (find_latest_checkpoint_none _ _ _ _ H); reflexivity.
Qed.

Lemma find_latest_checkpoint_no_match_witness :
  numbered_files bare_dir Posix.normpath "ckpt" = []
  /\ find_latest_checkpoint bare_dir Posix.normpath "ckpt" false
     = Raise (ValueError "Checkpoint path ckpt invalid")
  /\ find_latest_checkpoint bare_dir Posix.normpath "ckpt" true = Ok None.
Proof.
  split; [vm_compute; reflexivity |].
  destruct (find_latest_checkpoint_no_match bare_dir Posix.normpath "ckpt" eq_refl)
    as (H1 & H2 & _).
  split; [exact H1 | exact H2].
Defined.

(** ** Lists and arrays *)

Lemma nth_error_zip_with {A B C : Type} (f : A -> B -> C) (a : list A) (b : list B)
    (i : nat) :
  nth_error (zip_with f a b) i =
  match nth_error a i, nth_error b i with
  | Some x, Some y => Some (f x y)
  | _, _ => None
  end.
Proof.
  revert b i. induction a as [| x a IH]; intros [| y b] [| i]; simpl; auto.
  - destruct (nth_error a i); reflexivity.
Qed.

Lemma at2_zip_with {A B C : Type} (f : A -> B -> C) (a : list (list A))
    (b : list (list B)) (i j : nat) :
  at2 (zip_with (zip_with f) a b) i j =
  match at2 a i j, at2 b i j with
  | Some x, Some y => Some (f x y)
  | _, _ => None
  end.
Proof.
  unfold at2. rewrite nth_error_zip_with.
  destruct (nth_error a i) as [ra |]; [| reflexivity].
  destruct (nth_error b i) as [rb |].
  - apply nth_error_zip_with.
  - destruct (nth_error ra j); reflexivity.
Qed.

Lemma at2_bounds {A : Type} (a : list (list A)) (i j : nat) (v : A) :
  rectangular a -> at2 a i j = Some v -> (i < height a)%nat /\ (j < width a)%nat.
Proof.
  unfold at2, rectangular, height. intros Hrect H.
  destruct (nth_error a i) as [row |] eqn:E; [| discriminate].
  split.
  - apply nth_error_Some. congruence.
  - rewrite Forall_forall in Hrect.
    rewrite <- (Hrect row (nth_error_In _ _ E)).
    apply nth_error_Some. congruence.
Qed.

Lemma at2_zeros (h w i j : nat) :
  (i < h)%nat -> (j < w)%nat -> at2 (zeros h w) i j = Some (0, 0, 0).
Proof.
  intros Hi Hj. unfold at2, zeros.
  rewrite nth_error_repeat by exact Hi. apply nth_error_repeat, Hj.
Qed.

Lemma foldM_total {A S : Type} (f : S -> A -> result S) (g : S -> A -> S)
    (l : list A) :
  forall s, (forall s x, In x l -> f s x = Ok (g s x)) ->
            foldM f l s = Ok (fold_left g l s).
Proof.
  induction l as [| x t IH]; intros s H; simpl; [reflexivity |].
  rewrite (H s x (or_introl eq_refl)). simpl. apply IH.
  intros s' y Hy. apply H. right. exact Hy.
Qed.

Lemma in_range (n v : Z) : In v (Py.range n) <-> 0 <= v < n.
Proof.
  unfold Py.range. rewrite in_map_iff. split.
  - intros (k & <- & Hk). apply in_seq in Hk. lia.
  - intros H. exists (Z.to_nat v). split; [lia |]. apply in_seq. lia.
Qed.

Lemma NoDup_range (n : Z) : NoDup (Py.range n).
Proof.
  unfold Py.range. apply Finite.Injective_map_NoDup.
  - intros x y. apply Nat2Z.inj.
  - apply seq_NoDup.
Qed.

(** ** Colouring *)

(** A colour of a palette: each component fits a byte. *)
Definition rgb (col : color) : Prop :=
  let '(c0, c1, c2) := col in
  0 <= c0 <= 255 /\ 0 <= c1 <= 255 /\ 0 <= c2 <= 255.

Definition black : pixel := (0, 0, 0).

Definition color_at (colors : list color) (c : Z) : color :=
  nth (Z.to_nat c) colors black.

Lemma getitem_color (colors : list color) (c : Z) :
  0 <= c < Z.of_nat (List.length colors) ->
  getitem colors c = Ok (color_at colors c).
Proof.
  intros H. unfold getitem, color_at.
  destruct (nth_error colors (Z.to_nat c)) as [col |] eqn:E.
  - rewrite (nth_error_nth _ _ _ E). reflexivity.
  - apply nth_error_None in E. lia.
Qed.

Lemma add_pixel_other (c : Z) (col : color) (p : pixel) (v : Z) :
  v <> c -> add_pixel c col p v = p.
Proof.
  intros H. destruct col as [[c0 c1] c2], p as [[p0 p1] p2]. unfold add_pixel.
  destruct (Z.eqb_spec v c) as [E | _]; [contradiction |].
  unfold b2z, astype_uint8. simpl. rewrite !Z.add_0_r. reflexivity.
Qed.

Lemma add_pixel_same (c : Z) (col : color) :
  rgb col -> add_pixel c col black c = col.
Proof.
  destruct col as [[c0 c1] c2]. intros (H0 & H1 & H2). unfold add_pixel, black.
  rewrite Z.eqb_refl. unfold b2z, astype_uint8. rewrite !Z.mul_1_l.
  rewrite !Z.mod_small by lia. reflexivity.
Qed.

(** The passes over the classes [cs], seen from one pixel of class [v]. *)
Lemma fold_add_pixel (colors : list color) (v : Z) (cs : list Z) :
  forall p,
    fold_left (fun p c => add_pixel c (color_at colors c) p v) cs p =
    fold_left (fun p c => if v =? c then add_pixel c (color_at colors c) p v else p) cs p.
Proof.
  induction cs as [| c cs IH]; intros p; simpl; [reflexivity |].
  destruct (Z.eqb_spec v c) as [E | E].
  - apply IH.
  - rewrite add_pixel_other by exact E. apply IH.
Qed.

Lemma fold_add_pixel_absent (colors : list color) (v : Z) (cs : list Z) (p : pixel) :
  ~ In v cs ->
  fold_left (fun p c => add_pixel c (color_at colors c) p v) cs p = p.
Proof.
  revert p. induction cs as [| c cs IH]; intros p H; simpl; [reflexivity |].
  rewrite add_pixel_other by (intros ->; apply H; left; reflexivity).
  apply IH. intros Hin. apply H. right. exact Hin.
Qed.

Lemma fold_add_pixel_present (colors : list color) (v : Z) (cs : list Z) :
  NoDup cs -> In v cs -> rgb (color_at colors v) ->
  fold_left (fun p c => add_pixel c (color_at colors c) p v) cs black
  = color_at colors v.
Proof.
  intros Hnd Hin Hrgb. induction Hnd as [| c cs Hc Hnd IH]; [destruct Hin |].
  simpl. destruct (Z.eq_dec c v) as [-> | Hne].
  - rewrite add_pixel_same by exact Hrgb. apply fold_add_pixel_absent, Hc.
  - rewrite add_pixel_other by congruence. apply IH.
    destruct Hin as [E | Hin]; [contradiction | exact Hin].
Qed.

Lemma at2_fold_add_class (seg_arr : class_map) (colors : list color) (cs : list Z)
    (i j : nat) (v : Z) :
  at2 seg_arr i j = Some v ->
  forall (seg_img : image) (p : pixel),
    at2 seg_img i j = Some p ->
    at2 (fold_left (fun img c => add_class seg_arr c (color_at colors c) img) cs seg_img)
        i j
    = Some (fold_left (fun p c => add_pixel c (color_at colors c) p v) cs p).
Proof.
  intros Hv. induction cs as [| c cs IH]; intros seg_img p Hp; simpl; [exact Hp |].
  apply IH. unfold add_class. rewrite at2_zip_with, Hp, Hv. reflexivity.
Qed.

Lemma get_colored_segmentation_image_fold (seg_arr : class_map) (n_classes : Z)
    (colors : list color) :
  n_classes <= Z.of_nat (List.length colors) ->
  get_colored_segmentation_image seg_arr n_classes colors =
  Ok (fold_left (fun img c => add_class seg_arr c (color_at colors c) img)
                (Py.range n_classes) (zeros (height seg_arr) (width seg_arr))).
Proof.
  intros H. unfold get_colored_segmentation_image. apply foldM_total.
  intros s c Hc. apply in_range in Hc. rewrite getitem_color by lia. reflexivity.
Qed.

(** What the colouring leaves at a pixel of class [v]. *)
Lemma get_colored_segmentation_image_at (seg_arr : class_map) (n_classes : Z)
    (colors : list color) (seg_img : image) (i j : nat) (v : Z) :
  rectangular seg_arr ->
  get_colored_segmentation_image seg_arr n_classes colors = Ok seg_img ->
  n_classes <= Z.of_nat (List.length colors) ->
  Forall rgb colors ->
  at2 seg_arr i j = Some v ->
  at2 seg_img i j =
  Some (if (0 <=? v) && (v <? n_classes) then color_at colors v else black).
Proof.
  intros Hrect Hrun Hlen Hrgb Hv.
  rewrite get_colored_segmentation_image_fold in Hrun by exact Hlen.
  injection Hrun as <-.
  destruct (at2_bounds _ _ _ _ Hrect Hv) as [Hi Hj].
  rewrite (at2_fold_add_class _ _ _ _ _ _ Hv _ _ (at2_zeros _ _ _ _ Hi Hj)).
  f_equal.
  destruct (Z.leb_spec 0 v) as [H0 | H0]; [destruct (Z.ltb_spec v n_classes) as [H1 | H1] |];
    simpl.
  - apply fold_add_pixel_present; [apply NoDup_range | apply in_range; lia |].
    rewrite Forall_forall in Hrgb. apply Hrgb. unfold color_at. apply nth_In. lia.
  - apply fold_add_pixel_absent. rewrite in_range. lia.
  - apply fold_add_pixel_absent. rewrite in_range. lia.
Qed.

(** C3. For a class map (a rectangular array) and a palette of at least
    [n_classes] colours, [get_colored_segmentation_image] returns an image
    that holds, wherever the class is some [c] with [0 <= c < n_classes],
    exactly the three components of the palette's colour for [c]: summing
    over the classes assigns.  The map [[0,1],[1,0]] with the palette
    [(10,20,30), (40,50,60)] gives [(10,20,30)] at the places of class 0 and
    [(40,50,60)] at those of class 1. *)
Theorem get_colored_segmentation_image_assigns :
  forall (seg_arr : class_map) (n_classes : Z) (colors : list color),
    rectangular seg_arr ->
    n_classes <= Z.of_nat (List.length colors) ->
    Forall rgb colors ->
    (exists seg_img,
        get_colored_segmentation_image seg_arr n_classes colors = Ok seg_img /\
        forall i j c,
          at2 seg_arr i j = Some c -> 0 <= c < n_classes ->
          exists col, getitem colors c = Ok col /\ at2 seg_img i j = Some col)
    /\ get_colored_segmentation_image [[0; 1]; [1; 0]] 2 [(10, 20, 30); (40, 50, 60)]
       = Ok [[(10, 20, 30); (40, 50, 60)]; [(40, 50, 60); (10, 20, 30)]].
Proof.
  intros seg_arr n_classes colors Hrect Hlen Hrgb. split; [| reflexivity].
  eexists. split; [apply get_colored_segmentation_image_fold, Hlen |].
  intros i j c Hc Hrange. exists (color_at colors c). split.
  - apply getitem_color. lia.
  - rewrite (get_colored_segmentation_image_at seg_arr n_classes colors _ i j c Hrect
               (get_colored_segmentation_image_fold _ _ _ Hlen) Hlen Hrgb Hc).
    destruct (Z.leb_spec 0 c); [destruct (Z.ltb_spec c n_classes) |]; simpl;
      try reflexivity; lia.
Qed.

Lemma get_colored_segmentation_image_assigns_witness :
  exists seg_img,
    get_colored_segmentation_image [[0; 1]; [1; 0]] 2 [(10, 20, 30); (40, 50, 60)]
    = Ok seg_img /\
    forall i j c,
      at2 [[0; 1]; [1; 0]] i j = Some c -> 0 <= c < 2 ->
      exists col, getitem [(10, 20, 30); (40, 50, 60)] c = Ok col
                  /\ at2 seg_img i j = Some col.
Proof.
  refine (proj1 (get_colored_segmentation_image_assigns
                   [[0; 1]; [1; 0]] 2 [(10, 20, 30); (40, 50, 60)] _ _ _)).
  - repeat constructor.
  - simpl. lia.
  - repeat constructor; simpl; lia.
Defined.

(** ** Overlay *)

Lemma mapM_total {A B : Type} (f : A -> result B) (g : A -> B) (l : list A) :
  (forall x, In x l -> f x = Ok (g x)) -> mapM f l = Ok (map g l).
Proof.
  induction l as [| x t IH]; intros H; simpl; [reflexivity |].
  rewrite (H x (or_introl eq_refl)). simpl. rewrite IH; [reflexivity |].
  intros y Hy. apply H. right. exact Hy.
Qed.

Lemma zip_with_combine {A B C : Type} (f : A -> B -> C) (a : list A) (b : list B) :
  zip_with f a b = map (fun xy => f (fst xy) (snd xy)) (combine a b).
Proof.
  revert b. induction a as [| x a IH]; intros [| y b]; simpl; auto.
  rewrite IH. reflexivity.
Qed.

(** Arrays of one length pair up element by element. *)
Lemma broadcast2_same {A B C : Type} (f : A -> B -> result C) (g : A -> B -> C)
    (a : list A) (b : list B) :
  List.length a = List.length b ->
  (forall x y, In (x, y) (combine a b) -> f x y = Ok (g x y)) ->
  broadcast2 f a b = Ok (zip_with g a b).
Proof.
  intros Hlen H. unfold broadcast2. rewrite Hlen, Nat.eqb_refl.
  rewrite zip_with_combine. apply mapM_total.
  intros [x y] Hxy. apply H. exact Hxy.
Qed.

Module FuseFacts.

Import F64 F64Facts.
Local Open Scope Q_scope.

Lemma of_Z_small (n : Z) : (0 <= n < 2 ^ 53)%Z -> of_Z n = Some (inject_Z n).
Proof. intros H. unfold of_Z. rewrite round64_Z by exact H. reflexivity. Qed.

Lemma half (n : Z) : inject_Z n / inject_Z 2 == inject_Z n * pow2 (-1).
Proof. change (pow2 (-1)) with (/ 2). reflexivity. Qed.

Lemma Qfloor_half (n : Z) : Qfloor (inject_Z n * pow2 (-1)) = (n / 2)%Z.
Proof. rewrite <- half. symmetry. apply (Zdiv_Qdiv n 2). Qed.

Lemma quot_floor (q : Q) : 0 <= q -> Z.quot (Qnum q) (Zpos (Qden q)) = Qfloor q.
Proof.
  intros H. destruct q as [n d]. unfold Qfloor. simpl.
  apply Z.quot_div_nonneg; [| lia].
  unfold Qle in H. simpl in H. lia.
Qed.

(** The halves of two small integers and their sum are binary64 numbers:
    the blend is the average, rounded down. *)
Lemma fuse_average (a b : Z) :
  (0 <= a < 2 ^ 52)%Z -> (0 <= b < 2 ^ 52)%Z ->
  fuse a b = astype_uint8 ((a + b) / 2).
Proof.
  intros Ha Hb. unfold fuse.
  assert (H52 : (2 ^ 52 < 2 ^ 53)%Z) by reflexivity.
  rewrite !of_Z_small by lia. change (of_Z 2) with (Some (inject_Z 2)).
  unfold F64.div. change (Qeq_bool (inject_Z 2) 0) with false. cbv iota.
  rewrite (round64_exact _ a (-1)) by (try lia; apply half).
  rewrite (round64_exact _ b (-1)) by (try lia; apply half).
  unfold F64.add, lift2.
  assert (E : Qred (inject_Z a / inject_Z 2) + Qred (inject_Z b / inject_Z 2)
              == inject_Z (a + b) * pow2 (-1)).
  { rewrite !Qred_correct, !half, inject_Z_plus. ring. }
  rewrite (round64_exact _ (a + b) (-1)) by (try lia; exact E).
  unfold f64_astype_uint8. f_equal.
  assert (E' : Qred (Qred (inject_Z a / inject_Z 2) + Qred (inject_Z b / inject_Z 2))
               == inject_Z (a + b) * pow2 (-1))
    by (rewrite Qred_correct; exact E).
  rewrite quot_floor.
  - rewrite (Qfloor_comp _ _ E'). apply Qfloor_half.
  - rewrite E'. apply Qmult_le_0_compat; [| discriminate].
    change 0 with (inject_Z 0). rewrite <- Zle_Qle. lia.
Qed.

End FuseFacts.

(** A value of a uint8 array, and a pixel of such values. *)
Definition uint8 (x : Z) : Prop := 0 <= x <= 255.
Definition uint8_pixel (p : pixel) : Prop :=
  let '(p0, p1, p2) := p in uint8 p0 /\ uint8 p1 /\ uint8 p2.

(** The average of two values, the fraction dropped. *)
Definition average (a b : Z) : Z := (a + b) / 2.
Definition average_pixel (p q : pixel) : pixel :=
  let '(p0, p1, p2) := p in
  let '(q0, q1, q2) := q in
  (average p0 q0, average p1 q1, average p2 q2).

Definition fused_pixel (p q : pixel) : pixel :=
  let '(p0, p1, p2) := p in
  let '(q0, q1, q2) := q in
  (fuse p0 q0, fuse p1 q1, fuse p2 q2).

Lemma fuse_pixel_total (p q : pixel) : fuse_pixel p q = Ok (fused_pixel p q).
Proof. destruct p as [[? ?] ?], q as [[? ?] ?]. reflexivity. Qed.

Lemma fuse_uint8 (a b : Z) : uint8 a -> uint8 b -> fuse a b = average a b.
Proof.
  unfold uint8, average. intros Ha Hb.
  assert (H52 : 255 < 2 ^ 52) by reflexivity.
  rewrite FuseFacts.fuse_average by lia.
  unfold astype_uint8. apply Z.mod_small.
  split; [apply Z.div_pos; lia | apply Z.div_lt_upper_bound; lia].
Qed.

Lemma fused_pixel_average (p q : pixel) :
  uint8_pixel p -> uint8_pixel q -> fused_pixel p q = average_pixel p q.
Proof.
  destruct p as [[p0 p1] p2], q as [[q0 q1] q2].
  intros (H0 & H1 & H2) (K0 & K1 & K2). unfold fused_pixel, average_pixel.
  rewrite !fuse_uint8 by assumption. reflexivity.
Qed.

(** [img] has shape [(h, w, 3)]. *)
Definition has_shape (img : image) (h w : nat) : Prop :=
  List.length img = h /\ Forall (fun row => List.length row = w) img.

Lemma in_combine_rows {A B : Type} (a : list (list A)) (b : list (list B))
    (w : nat) (x : list A) (y : list B) :
  Forall (fun row => List.length row = w) a ->
  Forall (fun row => List.length row = w) b ->
  In (x, y) (combine a b) -> List.length x = List.length y.
Proof.
  intros Ha Hb Hin. rewrite Forall_forall in Ha, Hb.
  rewrite (Ha x (in_combine_l _ _ _ _ Hin)), (Hb y (in_combine_r _ _ _ _ Hin)).
  reflexivity.
Qed.

Section OverlayFacts.

Variable cv2_resize : interpolation -> image -> nat -> nat -> image.

Lemma overlay_seg_image_zip (inp_img seg_img : image) :
  rectangular inp_img ->
  has_shape (cv2_resize INTER_NEAREST seg_img (width inp_img) (height inp_img))
            (height inp_img) (width inp_img) ->
  overlay_seg_image cv2_resize inp_img seg_img =
  Ok (zip_with (zip_with fused_pixel) inp_img
        (cv2_resize INTER_NEAREST seg_img (width inp_img) (height inp_img))).
Proof.
  intros Hrect [Hh Hw]. unfold overlay_seg_image.
  apply broadcast2_same; [symmetry; exact Hh |].
  intros x y Hxy. apply broadcast2_same.
  - exact (in_combine_rows _ _ _ _ _ Hrect Hw Hxy).
  - intros p q _. apply fuse_pixel_total.
Qed.

End OverlayFacts.

(** C4. [overlay_seg_image] resizes the coloured map to the height and
    width of the source image with nearest-neighbour interpolation
    ([cv2.resize], which returns an image of the size it is asked for), and
    the image it returns holds at every pixel, in each channel, the average
    of the source's value and the resized map's, the fraction dropped.  The
    pixels [(100,100,100)] and [(0,0,0)] give [(50,50,50)]. *)
Theorem overlay_seg_image_average :
  forall (cv2_resize : interpolation -> image -> nat -> nat -> image)
         (inp_img seg_img : image),
    let resized :=
      cv2_resize INTER_NEAREST seg_img (width inp_img) (height inp_img) in
    rectangular inp_img ->
    has_shape resized (height inp_img) (width inp_img) ->
    (exists fused_img,
        overlay_seg_image cv2_resize inp_img seg_img = Ok fused_img /\
        has_shape fused_img (height inp_img) (width inp_img) /\
        forall i j p q,
          at2 inp_img i j = Some p -> at2 resized i j = Some q ->
          uint8_pixel p -> uint8_pixel q ->
          at2 fused_img i j = Some (average_pixel p q))
    /\ fuse_pixel (100, 100, 100) (0, 0, 0) = Ok (50, 50, 50).
Proof.
  intros cv2_resize inp_img seg_img resized Hrect Hshape.
  split; [| vm_compute; reflexivity].
  eexists. split; [apply overlay_seg_image_zip; assumption |]. fold resized. split.
  - destruct Hshape as [Hh Hw]. split.
    + rewrite zip_with_combine, length_map, length_combine, Hh. apply Nat.min_id.
    + rewrite Forall_forall. intros row Hrow.
      rewrite zip_with_combine in Hrow. apply in_map_iff in Hrow.
      destruct Hrow as ([x y] & <- & Hxy). simpl.
      rewrite zip_with_combine, length_map, length_combine.
      rewrite <- (in_combine_rows _ _ _ _ _ Hrect Hw Hxy), Nat.min_id.
      unfold rectangular in Hrect. rewrite Forall_forall in Hrect.
      apply Hrect. eapply in_combine_l; eauto.
  - intros i j p q Hp Hq Up Uq.
    rewrite at2_zip_with, Hp, Hq. f_equal. apply fused_pixel_average; assumption.
Qed.

(** A stand-in for [cv2.resize]: the pixel of the source nearest to each
    pixel of the result, whatever the interpolation asked for. *)
Definition nearest_resize (_ : interpolation) (img : image) (w h : nat) : image :=
  map (fun i =>
         map (fun j => nth (j * width img / w) (nth (i * height img / h) img []) black)
             (seq 0 w))
      (seq 0 h).

Lemma nearest_resize_shape (interp : interpolation) (img : image) (w h : nat) :
  has_shape (nearest_resize interp img w h) h w.
Proof.
  unfold has_shape, nearest_resize. split.
  - rewrite length_map, length_seq. reflexivity.
  - rewrite Forall_forall. intros row Hrow. apply in_map_iff in Hrow.
    destruct Hrow as (i & <- & _). rewrite length_map, length_seq. reflexivity.
Qed.

Lemma overlay_seg_image_average_witness :
  exists fused_img,
    overlay_seg_image nearest_resize [[(100, 100, 100); (7, 8, 9)]] [[(0, 0, 0)]]
    = Ok fused_img /\
    has_shape fused_img 1 2 /\
    forall i j p q,
      at2 [[(100, 100, 100); (7, 8, 9)]] i j = Some p ->
      at2 (nearest_resize INTER_NEAREST [[(0, 0, 0)]] 2 1) i j = Some q ->
      uint8_pixel p -> uint8_pixel q ->
      at2 fused_img i j = Some (average_pixel p q).
Proof.
  refine (proj1 (overlay_seg_image_average nearest_resize
                   [[(100, 100, 100); (7, 8, 9)]] [[(0, 0, 0)]] _ _)).
  - repeat constructor.
  - apply nearest_resize_shape.
Defined.

(** ** Visualisation *)

Lemma fold_left_max_ge (l : list Z) :
  forall x, x <= fold_left Z.max l x /\ forall v, In v l -> v <= fold_left Z.max l x.
Proof.
  induction l as [| y t IH]; intros x; simpl.
  - split; [lia | intros v []].
  - destruct (IH (Z.max x y)) as [H1 H2]. split; [lia |].
    intros v [<- | Hv]; [lia | apply H2, Hv].
Qed.

Lemma fold_left_max_in (l : list Z) :
  forall x, fold_left Z.max l x = x \/ In (fold_left Z.max l x) l.
Proof.
  induction l as [| y t IH]; intros x; simpl; [left; reflexivity |].
  destruct (IH (Z.max x y)) as [H | H].
  - rewrite H. destruct (Z.max_spec x y) as [[_ ->] | [_ ->]]; auto.
  - right. right. exact H.
Qed.

(** [np.max] returns a label of the map that no label exceeds. *)
Lemma np_max_spec (seg_arr : class_map) (m : Z) :
  np_max seg_arr = Ok m ->
  In m (List.concat seg_arr) /\ forall v, In v (List.concat seg_arr) -> v <= m.
Proof.
  unfold np_max. destruct (List.concat seg_arr) as [| x t]; [discriminate |].
  intros H. injection H as <-. split.
  - destruct (fold_left_max_in t x) as [-> | H]; [left; reflexivity | right; exact H].
  - destruct (fold_left_max_ge t x) as [H1 H2].
    intros v [<- | Hv]; [exact H1 | exact (H2 v Hv)].
Qed.

Lemma foldM_raise {A S : Type} (f : S -> A -> result S) (l : list A) (x : A) :
  In x l -> (forall s, is_ok (f s x) = false) ->
  forall s, is_ok (foldM f l s) = false.
Proof.
  intros Hin Hx. induction l as [| y t IH]; [destruct Hin |]. intros s. simpl.
  destruct Hin as [-> | Hin].
  - specialize (Hx s). destruct (f s x); [discriminate | reflexivity].
  - destruct (f s y); [apply IH, Hin | reflexivity].
Qed.

(** The colouring raises when the palette is shorter than [n_classes]. *)
Lemma get_colored_segmentation_image_ok (seg_arr : class_map) (n_classes : Z)
    (colors : list color) (seg_img : image) :
  get_colored_segmentation_image seg_arr n_classes colors = Ok seg_img ->
  n_classes <= Z.of_nat (List.length colors).
Proof.
  intros H. destruct (Z.le_gt_cases n_classes (Z.of_nat (List.length colors))) as [| Hgt];
    [assumption | exfalso].
  assert (Hr : is_ok (get_colored_segmentation_image seg_arr n_classes colors) = false).
  { unfold get_colored_segmentation_image.
    apply foldM_raise with (x := Z.of_nat (List.length colors)).
    - apply in_range. lia.
    - intros s. unfold getitem. rewrite Nat2Z.id.
      destruct (nth_error colors (List.length colors)) eqn:E; [| reflexivity].
      assert (nth_error colors (List.length colors) <> None) by congruence.
      apply nth_error_Some in H0. lia. }
  rewrite H in Hr. discriminate Hr.
Qed.

(** A pixel whose class is outside [[0, n_classes)] stays black. *)
Lemma get_colored_segmentation_image_outside (seg_arr : class_map) (n_classes : Z)
    (colors : list color) (seg_img : image) (i j : nat) (v : Z) :
  rectangular seg_arr ->
  get_colored_segmentation_image seg_arr n_classes colors = Ok seg_img ->
  at2 seg_arr i j = Some v ->
  ~ In v (Py.range n_classes) ->
  at2 seg_img i j = Some black.
Proof.
  intros Hrect Hrun Hv Hout.
  pose proof (get_colored_segmentation_image_ok _ _ _ _ Hrun) as Hlen.
  rewrite get_colored_segmentation_image_fold in Hrun by exact Hlen.
  injection Hrun as <-.
  destruct (at2_bounds _ _ _ _ Hrect Hv) as [Hi Hj].
  rewrite (at2_fold_add_class _ _ _ _ _ _ Hv _ _ (at2_zeros _ _ _ _ Hi Hj)).
  f_equal. apply fold_add_pixel_absent, Hout.
Qed.

(** The class count [visualize_segmentation] works with. *)
Definition resolve_n_classes (seg_arr : class_map) (n_classes : option Z) : result Z :=
  match n_classes with
  | None => np_max seg_arr
  | Some n => Ok n
  end.

Lemma at2_In_concat {A : Type} (a : list (list A)) (i j : nat) (v : A) :
  at2 a i j = Some v -> In v (List.concat a).
Proof.
  unfold at2. destruct (nth_error a i) as [row |] eqn:E; [| discriminate].
  intros H. apply in_concat. exists row.
  split; [eapply nth_error_In; exact E | eapply nth_error_In; exact H].
Qed.

Section DefaultClasses.

Variable cv2_resize : interpolation -> image -> nat -> nat -> image.
Variable cv2_putText : string -> Z * Z -> nat -> nat -> pixel -> pixel.
Variable cv2_rectangle : Z * Z -> Z * Z -> color -> nat -> nat -> pixel -> pixel.

Local Abbreviation visualize_with :=
  (visualize_segmentation cv2_resize cv2_putText cv2_rectangle).

(** With nothing but the map and the palette, the image returned is the
    coloured map. *)
Lemma visualize_segmentation_plain (seg_arr : class_map) (n_classes : option Z)
    (colors : list color) :
  visualize_with seg_arr None n_classes colors None false false None None
  = (n <- resolve_n_classes seg_arr n_classes ;;
     get_colored_segmentation_image seg_arr n colors).
Proof.
  unfold visualize_segmentation, resolve_n_classes.
  destruct n_classes as [n |]; [| destruct (np_max seg_arr) as [n | e]];
    cbn [bind]; try reflexivity;
    destruct (get_colored_segmentation_image seg_arr n colors); reflexivity.
Qed.

Lemma visualize_segmentation_default (seg_arr : class_map) (m : Z)
    (inp_img : option image) (colors : list color)
    (class_names : option (list string)) (overlay_img show_legends : bool)
    (prediction_width prediction_height : option nat) :
  np_max seg_arr = Ok m ->
  visualize_with seg_arr inp_img None colors class_names overlay_img show_legends
    prediction_width prediction_height
  = visualize_with seg_arr inp_img (Some m) colors class_names overlay_img
      show_legends prediction_width prediction_height.
Proof. intros Hm. unfold visualize_segmentation. rewrite Hm. reflexivity. Qed.

End DefaultClasses.

(** C5. With [n_classes] left out, [visualize_segmentation] colours the map
    with [n_classes = np.max(seg_arr)], the largest label of the map: the
    call is the call with that number whatever the other arguments, and
    with the map and the palette alone the image returned is
    [get_colored_segmentation_image(seg_arr, np.max(seg_arr), colors)].  The
    largest label is not one of [range(n_classes)]: in the image returned
    the pixels of a lower class (from 0 on) have its colour and the pixels
    of the largest class stay black.  A map with the classes 0 and 2 only
    is coloured with [n_classes = 2]: its pixels of class 2 are black,
    though the palette has a colour for them. *)
Theorem visualize_segmentation_default_n_classes :
  forall (cv2_resize : interpolation -> image -> nat -> nat -> image)
         (cv2_putText : string -> Z * Z -> nat -> nat -> pixel -> pixel)
         (cv2_rectangle : Z * Z -> Z * Z -> color -> nat -> nat -> pixel -> pixel)
         (seg_arr : class_map) (colors : list color),
    (forall m, np_max seg_arr = Ok m ->
       In m (List.concat seg_arr)
       /\ (forall v, In v (List.concat seg_arr) -> v <= m)
       /\ visualize_segmentation cv2_resize cv2_putText cv2_rectangle seg_arr None
            None colors None false false None None
          = get_colored_segmentation_image seg_arr m colors
       /\ forall (inp_img : option image) (class_names : option (list string))
                 (overlay_img show_legends : bool)
                 (prediction_width prediction_height : option nat),
            visualize_segmentation cv2_resize cv2_putText cv2_rectangle seg_arr
              inp_img None colors class_names overlay_img show_legends
              prediction_width prediction_height
            = visualize_segmentation cv2_resize cv2_putText cv2_rectangle seg_arr
                inp_img (Some m) colors class_names overlay_img show_legends
                prediction_width prediction_height)
    /\ (forall seg_img i j v,
          rectangular seg_arr -> Forall rgb colors ->
          visualize_segmentation cv2_resize cv2_putText cv2_rectangle seg_arr None
            None colors None false false None None = Ok seg_img ->
          at2 seg_arr i j = Some v ->
          exists m,
            np_max seg_arr = Ok m /\ v <= m /\
            at2 seg_img i j
            = Some (if (0 <=? v) && (v <? m) then color_at colors v else black) /\
            (v = m -> at2 seg_img i j = Some black))
    /\ np_max [[0; 2]; [2; 0]] = Ok 2
    /\ visualize_segmentation cv2_resize cv2_putText cv2_rectangle [[0; 2]; [2; 0]]
         None None [(10, 20, 30); (40, 50, 60); (70, 80, 90)] None false false
         None None
       = Ok [[(10, 20, 30); black]; [black; (10, 20, 30)]].
Proof.
  intros cv2_resize cv2_putText cv2_rectangle seg_arr colors.
  split; [| split; [| split]].
  - intros m Hm. destruct (np_max_spec _ _ Hm) as [H1 H2].
    split; [exact H1 |]. split; [exact H2 |]. split.
    + rewrite visualize_segmentation_plain. unfold resolve_n_classes.
      rewrite Hm. reflexivity.
    + intros. apply visualize_segmentation_default, Hm.
  - intros seg_img i j v Hrect Hrgb Hrun Hv.
    rewrite visualize_segmentation_plain in Hrun. unfold resolve_n_classes in Hrun.
    inv_bind_as Hrun m Hm. exists m. split; [exact Hm |].
    destruct (np_max_spec _ _ Hm) as [_ Hmax].
    split; [apply Hmax; eapply at2_In_concat; exact Hv |].
    pose proof (get_colored_segmentation_image_at seg_arr m colors seg_img i j v Hrect
                  Hrun (get_colored_segmentation_image_ok _ _ _ _ Hrun) Hrgb Hv) as Hat.
    split; [exact Hat |].
    intros ->. rewrite Hat, Z.ltb_irrefl, andb_false_r. reflexivity.
  - reflexivity.
  - reflexivity.
Qed.

(** C8. [visualize_segmentation] asked for the overlay without a source
    image raises [AssertionError] once the map is coloured, before any
    blending; asked for the legend without class names it raises
    [AssertionError] where the call without the legend would have returned,
    before any legend is drawn.  Neither call returns an image. *)
Theorem visualize_segmentation_preconditions :
  forall (cv2_resize : interpolation -> image -> nat -> nat -> image)
         (cv2_putText : string -> Z * Z -> nat -> nat -> pixel -> pixel)
         (cv2_rectangle : Z * Z -> Z * Z -> color -> nat -> nat -> pixel -> pixel)
         (seg_arr : class_map) (n_classes : option Z) (colors : list color)
         (prediction_width prediction_height : option nat),
    (forall (class_names : option (list string)) (show_legends : bool),
        let r := visualize_segmentation cv2_resize cv2_putText cv2_rectangle seg_arr
                   None n_classes colors class_names true show_legends
                   prediction_width prediction_height in
        r = (n <- resolve_n_classes seg_arr n_classes ;;
             get_colored_segmentation_image seg_arr n colors ;;;
             Raise (AssertionError ""))
        /\ is_ok r = false)
    /\ (forall (inp_img : option image) (overlay_img : bool),
        let r := visualize_segmentation cv2_resize cv2_putText cv2_rectangle seg_arr
                   inp_img n_classes colors None overlay_img true
                   prediction_width prediction_height in
        r = (visualize_segmentation cv2_resize cv2_putText cv2_rectangle seg_arr
               inp_img n_classes colors None overlay_img false
               prediction_width prediction_height ;;;
             Raise (AssertionError ""))
        /\ is_ok r = false).
Proof.
  intros cv2_resize cv2_putText cv2_rectangle seg_arr n_classes colors
         prediction_width prediction_height.
  split.
  - intros class_names show_legends. cbv zeta.
    unfold visualize_segmentation, resolve_n_classes.
    destruct n_classes as [n |]; [| destruct (np_max seg_arr) as [n | e]];
      simpl; try (split; reflexivity);
      destruct (get_colored_segmentation_image seg_arr n colors); simpl;
      try (split; reflexivity);
      destruct prediction_height, prediction_width; simpl; split; reflexivity.
  - intros inp_img overlay_img. cbv zeta. unfold visualize_segmentation.
    destruct n_classes as [n |]; [| destruct (np_max seg_arr) as [n | e]];
      simpl; try (split; reflexivity);
      destruct (get_colored_segmentation_image seg_arr n colors); simpl;
      try (split; reflexivity);
      destruct inp_img, prediction_height, prediction_width, overlay_img; simpl;
      try (split; reflexivity);
      match goal with
      | |- context [overlay_seg_image ?r ?a ?b] => destruct (overlay_seg_image r a b)
      end; simpl; split; reflexivity.
Qed.

(** ** Reshaping and arg-max *)

Lemma mapM_ok {A B : Type} (f : A -> result B) (l : list A) :
  forall l', mapM f l = Ok l' ->
             List.length l' = List.length l /\
             forall i x, nth_error l i = Some x ->
                         exists y, f x = Ok y /\ nth_error l' i = Some y.
Proof.
  induction l as [| a t IH]; simpl; intros l' H.
  - injection H as <-. split; [reflexivity |]. intros [| i] x Hx; discriminate.
  - inv_bind H. rename x into y. inv_bind H. rename x into ys.
    injection H as <-. destruct (IH ys Hx0) as [Hlen Hnth]. split.
    + simpl. rewrite Hlen. reflexivity.
    + intros [| i] x Hi; simpl in *.
      * injection Hi as <-. exists y. auto.
      * apply Hnth, Hi.
Qed.

Lemma length_chunks {A : Type} (k n : nat) (l : list A) :
  List.length (chunks k n l) = n.
Proof. revert l. induction n as [| n IH]; intros l; simpl; [| rewrite IH]; reflexivity. Qed.

Lemma nth_error_chunks {A : Type} (k n : nat) :
  forall (l : list A) (i : nat),
    (i < n)%nat -> nth_error (chunks k n l) i = Some (firstn k (skipn (i * k) l)).
Proof.
  induction n as [| n IH]; intros l i Hi; [lia |].
  destruct i as [| i]; simpl; [reflexivity |].
  rewrite IH by lia. rewrite skipn_skipn. do 3 f_equal. lia.
Qed.

Lemma length_chunk {A : Type} (k n : nat) (l : list A) (i : nat) (c : list A) :
  (n * k <= List.length l)%nat -> nth_error (chunks k n l) i = Some c ->
  List.length c = k.
Proof.
  intros Hlen Hc.
  assert (Hi : (i < n)%nat).
  { rewrite <- (length_chunks k n l). apply nth_error_Some. congruence. }
  rewrite nth_error_chunks in Hc by exact Hi. injection Hc as <-.
  rewrite length_firstn, length_skipn. nia.
Qed.

(** The cell [(i, j)] of a flat array read with the shape [(h, w, n)]. *)
Definition cell {A : Type} (w n : nat) (a : list A) (i j : nat) : list A :=
  firstn n (skipn ((i * w + j) * n) a).

Lemma at2_reshape3 {A : Type} (h w n : nat) (a : list A) (r : list (list (list A)))
    (i j : nat) :
  reshape3 h w n a = Ok r -> (i < h)%nat -> (j < w)%nat ->
  at2 r i j = Some (cell w n a i j).
Proof.
  unfold reshape3. destruct (Nat.eqb_spec (List.length a) (h * w * n)) as [Hlen | _];
    [| discriminate].
  intros H Hi Hj. injection H as <-. unfold at2, cell.
  rewrite nth_error_chunks by exact Hi.
  rewrite nth_error_firstn.
  destruct (Nat.ltb_spec j w) as [_ | ?]; [| lia].
  rewrite nth_error_skipn. rewrite nth_error_chunks by nia.
  reflexivity.
Qed.

Lemma reshape3_shape {A : Type} (h w n : nat) (a : list A) (r : list (list (list A))) :
  reshape3 h w n a = Ok r ->
  List.length r = h /\ Forall (fun row => List.length row = w) r.
Proof.
  unfold reshape3. destruct (Nat.eqb_spec (List.length a) (h * w * n)) as [Hlen | _];
    [| discriminate].
  intros H. injection H as <-. split; [apply length_chunks |].
  rewrite Forall_forall. intros row Hrow. apply In_nth_error in Hrow.
  destruct Hrow as [i Hi]. eapply length_chunk; [| exact Hi].
  rewrite length_chunks. lia.
Qed.

(** [argmax_axis2] keeps the first two axes and puts the arg-max of each cell
    in its place. *)
Lemma argmax_axis2_ok {A : Type} (ltb : A -> A -> bool) (a : list (list (list A)))
    (pr : class_map) (w : nat) :
  argmax_axis2 ltb a = Ok pr ->
  Forall (fun row => List.length row = w) a ->
  List.length pr = List.length a /\
  Forall (fun row => List.length row = w) pr /\
  forall i j c, at2 a i j = Some c ->
                exists k, argmax ltb c = Ok k /\ at2 pr i j = Some k.
Proof.
  unfold argmax_axis2. intros H Hw.
  destruct (mapM_ok _ _ _ H) as [Hlen Hnth]. split; [exact Hlen |]. split.
  - rewrite Forall_forall in *. intros row Hrow. apply In_nth_error in Hrow.
    destruct Hrow as [i Hi].
    assert (Hi' : (i < List.length a)%nat).
    { rewrite <- Hlen. apply nth_error_Some. congruence. }
    destruct (nth_error a i) as [ra |] eqn:Ea; [| apply nth_error_None in Ea; lia].
    destruct (Hnth i ra Ea) as (row' & Hrow' & Hi2).
    assert (row' = row) by congruence. subst row'.
    destruct (mapM_ok _ _ _ Hrow') as [Hl _]. rewrite Hl.
    apply Hw. eapply nth_error_In; eauto.
  - intros i j c Hc. unfold at2 in *.
    destruct (nth_error a i) as [ra |] eqn:Ea; [| discriminate].
    destruct (Hnth i ra Ea) as (row & Hrow & Hi). rewrite Hi.
    destruct (mapM_ok _ _ _ Hrow) as [_ Hn]. apply Hn, Hc.
Qed.

(** The arg-max over [Q]: an index whose value none exceeds, the first such. *)
Lemma argmax_from_spec (l : list Q) :
  forall (pre : list Q) (best : nat) (vbest : Q),
    nth_error pre best = Some vbest ->
    (forall k x, nth_error pre k = Some x -> (x <= vbest)%Q) ->
    (forall k x, (k < best)%nat -> nth_error pre k = Some x -> (x < vbest)%Q) ->
    exists c vc,
      argmax_from Qltb (Z.of_nat best) vbest (Z.of_nat (List.length pre)) l
      = Z.of_nat c /\
      nth_error (pre ++ l) c = Some vc /\
      (forall k x, nth_error (pre ++ l) k = Some x -> (x <= vc)%Q) /\
      (forall k x, (k < c)%nat -> nth_error (pre ++ l) k = Some x -> (x < vc)%Q).
Proof.
  induction l as [| y t IH]; intros pre best vbest Hb Hle Hlt.
  - exists best, vbest. rewrite app_nil_r. simpl. auto.
  - simpl.
    assert (Hstep : Z.of_nat (List.length pre) + 1 = Z.of_nat (List.length (pre ++ [y])))
      by (rewrite length_app; simpl; lia).
    assert (Happ : pre ++ y :: t = (pre ++ [y]) ++ t)
      by (rewrite <- app_assoc; reflexivity).
    rewrite Hstep, Happ.
    assert (Hsplit : forall k x, nth_error (pre ++ [y]) k = Some x ->
                                 nth_error pre k = Some x \/
                                 (k = List.length pre /\ x = y)).
    { intros k x Hk. destruct (Nat.lt_ge_cases k (List.length pre)) as [Hlt' | Hge].
      - left. rewrite nth_error_app1 in Hk by exact Hlt'. exact Hk.
      - right. rewrite nth_error_app2 in Hk by exact Hge.
        destruct (k - List.length pre)%nat as [| d] eqn:E; simpl in Hk.
        + split; [lia | congruence].
        + destruct d; discriminate. }
    assert (Hbest : (best < List.length pre)%nat)
      by (apply nth_error_Some; congruence).
    unfold Qltb at 1. destruct (Qle_bool y vbest) eqn:E; simpl.
    + apply Qle_bool_iff in E. apply IH.
      * rewrite nth_error_app1 by exact Hbest. exact Hb.
      * intros k x Hk. destruct (Hsplit k x Hk) as [H | [_ ->]]; [eapply Hle; eauto | exact E].
      * intros k x Hk Hx. destruct (Hsplit k x Hx) as [H | [-> _]]; [eapply Hlt; eauto | lia].
    + assert (Hy : (vbest < y)%Q).
      { apply Qnot_le_lt. intros H. apply Qle_bool_iff in H. congruence. }
      apply IH.
      * rewrite nth_error_app2 by lia. rewrite Nat.sub_diag. reflexivity.
      * intros k x Hk. destruct (Hsplit k x Hk) as [H | [_ ->]]; [| apply Qle_refl].
        apply Qlt_le_weak. eapply Qle_lt_trans; [eapply Hle; eauto | exact Hy].
      * intros k x Hk Hx. destruct (Hsplit k x Hx) as [H | [-> _]]; [| lia].
        eapply Qle_lt_trans; [eapply Hle; eauto | exact Hy].
Qed.

Lemma argmax_spec (l : list Q) (c : Z) :
  argmax Qltb l = Ok c ->
  exists vc,
    nth_error l (Z.to_nat c) = Some vc /\ 0 <= c /\
    (forall k x, nth_error l k = Some x -> (x <= vc)%Q) /\
    (forall k x, (k < Z.to_nat c)%nat -> nth_error l k = Some x -> (x < vc)%Q).
Proof.
  destruct l as [| x t]; [discriminate |]. simpl. intros H. injection H as <-.
  destruct (argmax_from_spec t [x] 0%nat x eq_refl) as (c & vc & Hc & Hn & Hle & Hlt).
  - intros [| [| k]] y Hy; simpl in Hy; try discriminate.
    injection Hy as <-. apply Qle_refl.
  - intros k y Hk. lia.
  - change (Z.of_nat 0) with 0 in Hc. change (Z.of_nat (List.length [x])) with 1 in Hc.
    rewrite Hc, Nat2Z.id. exists vc. simpl in *. repeat split; auto. lia.
Qed.

(** ** Legends *)

Lemma has_shape_rectangular (img : image) (h w : nat) :
  has_shape img h w -> rectangular img.
Proof.
  intros [_ Hw]. unfold rectangular. destruct img as [| row t]; [constructor |].
  simpl. rewrite Forall_forall in *. intros r Hr.
  rewrite (Hw r Hr). symmetry. apply Hw. left. reflexivity.
Qed.

Lemma length_indexed {A : Type} (l : list A) :
  List.length (combine (seq 0 (List.length l)) l) = List.length l.
Proof. rewrite length_combine, length_seq. apply Nat.min_id. Qed.

Lemma draw_shape (f : nat -> nat -> pixel -> pixel) (img : image) (h w : nat) :
  has_shape img h w -> has_shape (draw f img) h w.
Proof.
  intros [Hh Hw]. unfold draw. split.
  - rewrite length_map, length_indexed. exact Hh.
  - rewrite Forall_forall in *. intros row Hrow. apply in_map_iff in Hrow.
    destruct Hrow as ([i r] & <- & Hin). simpl.
    rewrite length_map, length_indexed. apply Hw. eapply in_combine_r; eauto.
Qed.

(** [a] has shape [(h, w)]. *)
Definition has_shape_2d {A : Type} (a : list (list A)) (h w : nat) : Prop :=
  List.length a = h /\ Forall (fun row => List.length row = w) a.

Section LegendFacts.

Variable cv2_putText : string -> Z * Z -> nat -> nat -> pixel -> pixel.
Variable cv2_rectangle : Z * Z -> Z * Z -> color -> nat -> nat -> pixel -> pixel.

Lemma get_legends_shape (class_names : list string) (colors : list color) :
  has_shape (get_legends cv2_putText cv2_rectangle class_names colors)
            (List.length class_names * 25 + 25) 125.
Proof.
  unfold get_legends.
  generalize (combine (seq 0 (List.length class_names))
                (combine (firstn (List.length class_names) class_names)
                         (firstn (List.length class_names) colors))).
  assert (H0 : has_shape (repeat (repeat (255, 255, 255) 125)
                                 (List.length class_names * 25 + 25))
                         (List.length class_names * 25 + 25) 125).
  { split; [apply repeat_length |]. rewrite Forall_forall. intros r Hr.
    apply repeat_spec in Hr. subst r. apply repeat_length. }
  revert H0.
  generalize (repeat (repeat (255, 255, 255) 125) (List.length class_names * 25 + 25)).
  intros legend H l. revert legend H.
  induction l as [| [i [name col]] l IH]; intros legend H; simpl; [exact H |].
  apply IH. apply draw_shape, draw_shape, H.
Qed.

Lemma concat_legends_ok (seg_img legend_img : image) (h w : nat) :
  has_shape legend_img h w -> (0 < h)%nat -> (0 < w)%nat ->
  exists out_img, concat_legends seg_img legend_img = Ok out_img.
Proof.
  intros [Hh Hw] H0h H0w. unfold concat_legends, getitem.
  destruct legend_img as [| row0 t]; [simpl in Hh; lia |]. simpl.
  rewrite Forall_forall in Hw. specialize (Hw row0 (or_introl eq_refl)).
  destruct row0 as [| px0 r]; [simpl in Hw; lia |]. simpl. eexists. reflexivity.
Qed.

End LegendFacts.

(** ** Prediction *)

Section PredictionFacts.

Variable tensor : Type.
Variable glob : string -> list string.
Variable normpath : string -> string.
Variable isfile : string -> bool.
Variable read_config : string -> result config.
Variable model_from_name : string -> option (nat -> nat -> nat -> Model tensor).
Variable load_weights : Model tensor -> string -> result (Model tensor).
Variable imread : string -> option image.
Variable cv2_resize : interpolation -> image -> nat -> nat -> image.
Variable cv2_putText : string -> Z * Z -> nat -> nat -> pixel -> pixel.
Variable cv2_rectangle : Z * Z -> Z * Z -> color -> nat -> nat -> pixel -> pixel.
Variable get_image_array : image -> nat -> nat -> tensor.

(** [cv2.resize] returns an image of the size it is asked for. *)
Definition resize_contract : Prop :=
  forall interp img w h, has_shape (cv2_resize interp img w h) h w.

(** The model [predict_segmentation] works with, and the image. *)
Definition loaded_model (model : option (Model tensor)) (checkpoints_path : option string)
  : result (option (Model tensor)) :=
  match model, checkpoints_path with
  | None, Some checkpoints_path =>
      m <- model_from_checkpoint_path tensor glob normpath isfile read_config
             model_from_name load_weights checkpoints_path ;;
      Ok (Some m)
  | _, _ => Ok model
  end.

Definition loaded_input (inp : option input) : result image :=
  match inp with
  | None => Raise (AssertionError "")
  | Some (InpArray a) => Ok a
  | Some (InpPath p) =>
      match imread p with
      | Some a => Ok a
      | None => Raise AttributeError
      end
  end.

(** The class map alone: no visualisation, no file. *)
Definition raw_class_map (model : option (Model tensor)) (inp : option input)
    (checkpoints_path : option string) : result class_map :=
  model <- loaded_model model checkpoints_path ;;
  inp <- loaded_input inp ;;
  match model with
  | None => Raise AttributeError
  | Some model => predicted_class_map tensor get_image_array model inp
  end.

Local Abbreviation visualize_with :=
  (visualize_segmentation cv2_resize cv2_putText cv2_rectangle).

Lemma predicted_class_map_shape (model : Model tensor) (inp : image) (pr : class_map) :
  predicted_class_map tensor get_image_array model inp = Ok pr ->
  List.length pr = output_height model /\
  Forall (fun row => List.length row = output_width model) pr.
Proof.
  unfold predicted_class_map. intros H. inv_bind H. inv_bind H.
  destruct (reshape3_shape _ _ _ _ _ Hx0) as [Hh Hw].
  destruct (argmax_axis2_ok _ _ _ _ H Hw) as (Hl & Hw' & _).
  split; [congruence | exact Hw'].
Qed.

Lemma visualize_segmentation_ok (seg_arr : class_map) (inp_img : image)
    (n_classes : Z) (colors : list color) (class_names : option (list string))
    (overlay_img show_legends : bool) (prediction_width prediction_height : option nat) :
  resize_contract -> rectangular inp_img ->
  n_classes <= Z.of_nat (List.length colors) ->
  (show_legends = true -> class_names <> None) ->
  exists seg_img,
    visualize_with seg_arr (Some inp_img) (Some n_classes) colors class_names
      overlay_img show_legends prediction_width prediction_height = Ok seg_img.
Proof.
  intros Hresize Hrect Hlen Hnames. unfold visualize_segmentation. cbn [bind].
  rewrite get_colored_segmentation_image_fold by exact Hlen. cbn [bind].
  set (colored := fold_left _ _ _).
  set (seg1 := cv2_resize INTER_NEAREST colored (width inp_img) (height inp_img)).
  assert (Hfinish : forall seg_img inp',
             rectangular inp' ->
             exists out,
               (seg_img <- (if overlay_img
                            then overlay_seg_image cv2_resize inp' seg_img
                            else Ok seg_img) ;;
                seg_img <- (if show_legends then
                              match class_names with
                              | None => Raise (AssertionError "")
                              | Some class_names =>
                                  concat_legends seg_img
                                    (get_legends cv2_putText cv2_rectangle class_names colors)
                              end
                            else Ok seg_img) ;;
                Ok seg_img) = Ok out).
  { intros seg_img inp' Hrect'.
    assert (Hleg : forall s, exists out,
               (seg_img <- (if show_legends then
                              match class_names with
                              | None => Raise (AssertionError "")
                              | Some class_names =>
                                  concat_legends s
                                    (get_legends cv2_putText cv2_rectangle class_names colors)
                              end
                            else Ok s) ;;
                Ok seg_img) = Ok out).
    { intros s. destruct show_legends; [| eexists; reflexivity].
      destruct class_names as [names |]; [| exfalso; apply Hnames; reflexivity].
      destruct (concat_legends_ok s _ _ _
                  (get_legends_shape cv2_putText cv2_rectangle names colors))
        as [out ->]; [lia | lia |].
      eexists. reflexivity. }
    destruct overlay_img; [| apply Hleg].
    rewrite overlay_seg_image_zip by (try exact Hrect'; apply Hresize).
    apply Hleg. }
  destruct prediction_height as [ph |], prediction_width as [pw |]; cbn [option_map];
    try (apply Hfinish; exact Hrect).
  apply Hfinish. eapply has_shape_rectangular, Hresize.
Qed.

(** The call returns the class map and nothing else of the computation: the
    files written hold the visualisations. *)
Lemma predict_segmentation_raw (model : option (Model tensor)) (inp : option input)
    (out_fname checkpoints_path : option string) (overlay_img : bool)
    (class_names : option (list string)) (show_legends : bool) (colors : list color)
    (prediction_width prediction_height : option nat) (all_visualisations : bool)
    (out_fnames : option (list string)) (pr : class_map)
    (written : list (string * image)) :
  predict_segmentation tensor glob normpath isfile read_config model_from_name
    load_weights imread cv2_resize cv2_putText cv2_rectangle get_image_array
    model inp out_fname checkpoints_path overlay_img class_names show_legends colors
    prediction_width prediction_height all_visualisations out_fnames
  = Ok (pr, written) ->
  raw_class_map model inp checkpoints_path = Ok pr.
Proof.
  unfold predict_segmentation, raw_class_map, loaded_model, loaded_input.
  intros H. inv_bind H. rewrite Hx. cbn [bind]. clear Hx.
  inv_bind H. destruct inp as [i |]; [| discriminate]. injection Hx as ->.
  inv_bind H.
  assert (E : match x0 with
              | InpArray a => Ok a
              | InpPath p => match imread p with
                             | Some a => Ok a
                             | None => Raise AttributeError
                             end
              end = Ok x1) by (destruct x0; exact Hx).
  rewrite E. cbn [bind]. clear E Hx.
  inv_bind H. destruct x as [m |]; [| discriminate]. injection Hx as ->.
  inv_bind H. inv_bind H. injection H as -> _. exact Hx.
Qed.

(** What [predict_segmentation] does with the class map: the visualisations
    and the files. *)
Definition visualisation_stage (pr : class_map) (inp : image) (n_classes : Z)
    (out_fname : option string) (overlay_img : bool)
    (class_names : option (list string)) (show_legends : bool) (colors : list color)
    (prediction_width prediction_height : option nat) (all_visualisations : bool)
    (out_fnames : option (list string)) : result (list (string * image)) :=
  let vis overlay_img show_legends :=
    visualize_with pr (Some inp) (Some n_classes) colors class_names
      overlay_img show_legends prediction_width prediction_height in
  if all_visualisations then
    overlay_and_legends <- vis true true ;;
    overlay <- vis true false ;;
    legends <- vis false true ;;
    plain <- vis false false ;;
    match out_fnames with
    | Some out_fnames =>
        f0 <- getitem out_fnames 0 ;;
        f1 <- getitem out_fnames 1 ;;
        f2 <- getitem out_fnames 2 ;;
        f3 <- getitem out_fnames 3 ;;
        Ok [(f0, overlay_and_legends); (f1, overlay); (f2, legends); (f3, plain)]
    | None => Ok []
    end
  else
    seg_img <- vis overlay_img show_legends ;;
    match out_fname with
    | Some out_fname => Ok [(out_fname, seg_img)]
    | None => Ok []
    end.

Lemma predict_segmentation_stages (model : option (Model tensor)) (inp : option input)
    (out_fname checkpoints_path : option string) (overlay_img : bool)
    (class_names : option (list string)) (show_legends : bool) (colors : list color)
    (prediction_width prediction_height : option nat) (all_visualisations : bool)
    (out_fnames : option (list string)) :
  predict_segmentation tensor glob normpath isfile read_config model_from_name
    load_weights imread cv2_resize cv2_putText cv2_rectangle get_image_array
    model inp out_fname checkpoints_path overlay_img class_names show_legends colors
    prediction_width prediction_height all_visualisations out_fnames
  = (m <- loaded_model model checkpoints_path ;;
     a <- loaded_input inp ;;
     m <- match m with
          | None => Raise AttributeError
          | Some m => Ok m
          end ;;
     pr <- predicted_class_map tensor get_image_array m a ;;
     written <- visualisation_stage pr a (Z.of_nat (n_classes m)) out_fname
                  overlay_img class_names show_legends colors prediction_width
                  prediction_height all_visualisations out_fnames ;;
     Ok (pr, written)).
Proof.
  unfold predict_segmentation, loaded_model, loaded_input, visualisation_stage, visualize.
  destruct model as [m0 |], checkpoints_path as [cp |]; cbn [bind];
    try (destruct (model_from_checkpoint_path tensor glob normpath isfile read_config
                     model_from_name load_weights cp) as [m1 | e];
         cbn [bind]; [| reflexivity]);
    destruct inp as [[a | p] |]; cbn [bind]; try reflexivity;
    destruct (imread p); reflexivity.
Qed.

Lemma getitem_ok {A : Type} (l : list A) (i : Z) :
  0 <= i < Z.of_nat (List.length l) -> exists x, getitem l i = Ok x.
Proof.
  intros H. unfold getitem.
  destruct (nth_error l (Z.to_nat i)) eqn:E; [eexists; reflexivity |].
  apply nth_error_None in E. lia.
Qed.

Lemma visualisation_stage_ok (pr : class_map) (inp : image) (n_classes : Z)
    (out_fname : option string) (overlay_img : bool)
    (class_names : option (list string)) (show_legends : bool) (colors : list color)
    (prediction_width prediction_height : option nat) (all_visualisations : bool)
    (out_fnames : option (list string)) :
  resize_contract -> rectangular inp ->
  n_classes <= Z.of_nat (List.length colors) ->
  (show_legends = true \/ all_visualisations = true -> class_names <> None) ->
  (all_visualisations = true ->
   forall names, out_fnames = Some names -> (4 <= List.length names)%nat) ->
  exists written,
    visualisation_stage pr inp n_classes out_fname overlay_img class_names
      show_legends colors prediction_width prediction_height all_visualisations
      out_fnames = Ok written.
Proof.
  intros Hresize Hrect Hlen Hnames Hfiles. unfold visualisation_stage.
  assert (Hvis : forall o l, (l = true -> class_names <> None) ->
                   exists img,
                     visualize_with pr (Some inp) (Some n_classes) colors class_names
                       o l prediction_width prediction_height = Ok img)
    by (intros o l Hl; apply visualize_segmentation_ok; assumption).
  destruct all_visualisations.
  - destruct (Hvis true true) as [i1 ->]; [auto |].
    destruct (Hvis true false) as [i2 ->]; [discriminate |].
    destruct (Hvis false true) as [i3 ->]; [auto |].
    destruct (Hvis false false) as [i4 ->]; [discriminate |].
    cbn [bind]. destruct out_fnames as [names |]; [| eexists; reflexivity].
    specialize (Hfiles eq_refl names eq_refl).
    destruct (getitem_ok names 0) as [f0 ->]; [lia |].
    destruct (getitem_ok names 1) as [f1 ->]; [lia |].
    destruct (getitem_ok names 2) as [f2 ->]; [lia |].
    destruct (getitem_ok names 3) as [f3 ->]; [lia |].
    eexists. reflexivity.
  - destruct (Hvis overlay_img show_legends) as [img ->]; [auto |].
    cbn [bind]. destruct out_fname; eexists; reflexivity.
Qed.

(** C7. For a valid input, [predict_segmentation] reshapes the flat output
    of the model to [(output_height, output_width, n_classes)], takes the
    arg-max of each cell, and returns that class map: the value it returns
    is the class map computed without any visualisation, whichever
    visualisations are made and whichever files are written, and on a valid
    input (the class map is computed, the source image is an array, the
    palette has a colour for each class, class names come with a legend and
    four file names with the four variants) it does return. *)
Theorem predict_segmentation_returns_class_map :
  forall (model : option (Model tensor)) (inp : option input)
         (checkpoints_path : option string),
    (forall out_fname overlay_img class_names show_legends colors prediction_width
            prediction_height all_visualisations out_fnames pr written,
        predict_segmentation tensor glob normpath isfile read_config model_from_name
          load_weights imread cv2_resize cv2_putText cv2_rectangle get_image_array
          model inp out_fname checkpoints_path overlay_img class_names show_legends
          colors prediction_width prediction_height all_visualisations out_fnames
        = Ok (pr, written) ->
        raw_class_map model inp checkpoints_path = Ok pr)
    /\ (forall (m : Model tensor) (a : image) (pr : class_map),
          predicted_class_map tensor get_image_array m a = Ok pr ->
          exists flat,
            getitem (predict m [get_image_array a (input_width m) (input_height m)]) 0
            = Ok flat /\
            has_shape_2d pr (output_height m) (output_width m) /\
            forall i j, (i < output_height m)%nat -> (j < output_width m)%nat ->
              exists c,
                argmax Qltb (cell (output_width m) (n_classes m) flat i j) = Ok c /\
                at2 pr i j = Some c)
    /\ (forall out_fname overlay_img class_names show_legends colors prediction_width
              prediction_height all_visualisations out_fnames m a pr,
          resize_contract ->
          loaded_model model checkpoints_path = Ok (Some m) ->
          loaded_input inp = Ok a ->
          rectangular a ->
          predicted_class_map tensor get_image_array m a = Ok pr ->
          Z.of_nat (n_classes m) <= Z.of_nat (List.length colors) ->
          (show_legends = true \/ all_visualisations = true -> class_names <> None) ->
          (all_visualisations = true ->
           forall names, out_fnames = Some names -> (4 <= List.length names)%nat) ->
          exists written,
            predict_segmentation tensor glob normpath isfile read_config model_from_name
              load_weights imread cv2_resize cv2_putText cv2_rectangle get_image_array
              model inp out_fname checkpoints_path overlay_img class_names show_legends
              colors prediction_width prediction_height all_visualisations out_fnames
            = Ok (pr, written)).
Proof.
  intros model inp checkpoints_path. split; [| split].
  - intros. eapply predict_segmentation_raw; eauto.
  - intros m a pr H. unfold predicted_class_map in H.
    inv_bind H. rename x into flat. inv_bind H. rename x into cells.
    exists flat. split; [exact Hx |].
    destruct (reshape3_shape _ _ _ _ _ Hx0) as [Hh Hw].
    destruct (argmax_axis2_ok _ _ _ _ H Hw) as (Hl & Hw' & Hcells).
    split; [split; [congruence | exact Hw'] |].
    intros i j Hi Hj. apply Hcells. eapply at2_reshape3; eauto.
  - intros out_fname overlay_img class_names show_legends colors prediction_width
           prediction_height all_visualisations out_fnames m a pr
           Hresize Hm Ha Hrect Hpr Hlen Hnames Hfiles.
    rewrite predict_segmentation_stages, Hm, Ha. cbn [bind]. rewrite Hpr. cbn [bind].
    destruct (visualisation_stage_ok pr a (Z.of_nat (n_classes m)) out_fname overlay_img
                class_names show_legends colors prediction_width prediction_height
                all_visualisations out_fnames Hresize Hrect Hlen Hnames Hfiles)
      as [written ->].
    exists written. reflexivity.
Qed.

End PredictionFacts.

(** ** The counters of the evaluation *)

(** [a[i] += v], when [i] is an index of [a]. *)
Fixpoint bump (a : list Z) (i : nat) (v : Z) : list Z :=
  match a, i with
  | [], _ => []
  | x :: t, O => (x + v) :: t
  | x :: t, S i' => x :: bump t i' v
  end.

Lemma add_at_bump (a : list Z) (i : Z) (v : Z) :
  0 <= i < Z.of_nat (List.length a) -> add_at a i v = Ok (bump a (Z.to_nat i) v).
Proof.
  intros H. unfold add_at, getitem.
  assert (Hi : (Z.to_nat i < List.length a)%nat) by lia.
  clear H. revert Hi. generalize (Z.to_nat i) as k. clear i.
  induction a as [| x t IH]; intros k Hk; simpl in Hk; [lia |].
  destruct k as [| k]; simpl; [reflexivity |].
  specialize (IH k ltac:(lia)).
  destruct (nth_error t k) as [y |]; simpl in *; [| discriminate].
  injection IH as IH. rewrite IH. reflexivity.
Qed.

Lemma length_bump (a : list Z) (i : nat) (v : Z) :
  List.length (bump a i v) = List.length a.
Proof.
  revert i. induction a as [| x t IH]; intros [| i]; simpl; auto.
Qed.

Lemma nth_bump (a : list Z) (i k : nat) (v : Z) :
  (i < List.length a)%nat ->
  nth k (bump a i v) 0 = nth k a 0 + (if (k =? i)%nat then v else 0).
Proof.
  revert i k. induction a as [| x t IH]; intros i k Hi; simpl in Hi; [lia |].
  destruct i as [| i], k as [| k]; simpl; try lia.
  apply IH. lia.
Qed.

Lemma bump_add (a b : list Z) (i : nat) (v : Z) :
  bump (zip_with Z.add a b) i v = zip_with Z.add a (bump b i v).
Proof.
  revert b i. induction a as [| x a IH]; intros [| y b] [| i]; simpl; auto.
  - f_equal. lia.
  - f_equal. apply IH.
Qed.

(** Vectors of the shape [(n,)]. *)
Definition vectors (n : nat) (st : counters) : Prop :=
  List.length (tp st) = n /\ List.length (fp st) = n /\
  List.length (fn st) = n /\ List.length (n_pixels st) = n.

(** The four sums of one pass over the classes:
    [np.sum((pr == c) * (gt == c))], [np.sum((pr == c) * (gt != c))],
    [np.sum((pr != c) * (gt == c))] and [np.sum(gt == c)]. *)
Definition class_counts (pr gt : list Z) (cl_i : Z) : result (Z * Z * Z * Z) :=
  m_tp <- bool_mul (eq_class cl_i pr) (eq_class cl_i gt) ;;
  m_fp <- bool_mul (eq_class cl_i pr) (ne_class cl_i gt) ;;
  m_fn <- bool_mul (ne_class cl_i pr) (eq_class cl_i gt) ;;
  Ok (count_true m_tp, count_true m_fp, count_true m_fn,
      count_true (eq_class cl_i gt)).

Definition bump_counters (st : counters) (cl_i : Z) (q : Z * Z * Z * Z) : counters :=
  let '(a, b, c, d) := q in
  let i := Z.to_nat cl_i in
  {| tp := bump (tp st) i a; fp := bump (fp st) i b;
     fn := bump (fn st) i c; n_pixels := bump (n_pixels st) i d |}.

Lemma bump_counters_vectors (n : nat) (st : counters) (cl_i : Z) (q : Z * Z * Z * Z) :
  vectors n st -> vectors n (bump_counters st cl_i q).
Proof.
  intros (H1 & H2 & H3 & H4). destruct q as [[[a b] c] d].
  unfold vectors, bump_counters. simpl. rewrite !length_bump. auto.
Qed.

Lemma count_class_bump (n : nat) (pr gt : list Z) (st : counters) (cl_i : Z) :
  vectors n st -> 0 <= cl_i < Z.of_nat n ->
  count_class pr gt st cl_i =
  (q <- class_counts pr gt cl_i ;; Ok (bump_counters st cl_i q)).
Proof.
  intros (H1 & H2 & H3 & H4) Hc. unfold count_class, class_counts.
  destruct (bool_mul (eq_class cl_i pr) (eq_class cl_i gt)) as [m1 | e]; [| reflexivity].
  cbn [bind]. rewrite add_at_bump by lia. cbn [bind].
  destruct (bool_mul (eq_class cl_i pr) (ne_class cl_i gt)) as [m2 | e]; [| reflexivity].
  cbn [bind]. rewrite add_at_bump by lia. cbn [bind].
  destruct (bool_mul (ne_class cl_i pr) (eq_class cl_i gt)) as [m3 | e]; [| reflexivity].
  cbn [bind]. rewrite !add_at_bump by lia. reflexivity.
Qed.

(** Adding the counters of a pair to those of the pairs before. *)
Definition add_counters (st d : counters) : counters :=
  {| tp := zip_with Z.add (tp st) (tp d); fp := zip_with Z.add (fp st) (fp d);
     fn := zip_with Z.add (fn st) (fn d);
     n_pixels := zip_with Z.add (n_pixels st) (n_pixels d) |}.

Lemma bump_counters_add (st d : counters) (cl_i : Z) (q : Z * Z * Z * Z) :
  bump_counters (add_counters st d) cl_i q = add_counters st (bump_counters d cl_i q).
Proof.
  destruct q as [[[a b] c] e]. unfold bump_counters, add_counters. simpl.
  rewrite !bump_add. reflexivity.
Qed.

Lemma zip_with_add_zero (a : list Z) (n : nat) :
  List.length a = n -> zip_with Z.add a (repeat 0 n) = a.
Proof.
  revert n. induction a as [| x a IH]; intros n H; simpl in *; subst n; simpl;
    [reflexivity |].
  rewrite IH by reflexivity. f_equal. lia.
Qed.

Lemma add_counters_zero (n : nat) (st : counters) :
  vectors n st -> add_counters st (zero_counters n) = st.
Proof.
  intros (H1 & H2 & H3 & H4). destruct st as [a b c d]. unfold add_counters. simpl in *.
  rewrite !zip_with_add_zero by assumption. reflexivity.
Qed.

Lemma zero_counters_vectors (n : nat) : vectors n (zero_counters n).
Proof. unfold vectors, zero_counters. simpl. rewrite !repeat_length. auto. Qed.

Lemma length_zip_with {A B C : Type} (f : A -> B -> C) (a : list A) (b : list B) :
  List.length (zip_with f a b) = Nat.min (List.length a) (List.length b).
Proof.
  revert b. induction a as [| x a IH]; intros [| y b]; simpl; auto.
Qed.

Lemma add_counters_vectors (n : nat) (st d : counters) :
  vectors n st -> vectors n d -> vectors n (add_counters st d).
Proof.
  intros (H1 & H2 & H3 & H4) (K1 & K2 & K3 & K4).
  unfold vectors, add_counters. simpl. rewrite !length_zip_with. lia.
Qed.

(** The loop over the classes, from the counters [st]: the sums of each
    class are added at its index. *)
Lemma count_classes_from (n : nat) (pr gt : list Z) (cs : list Z) :
  (forall c, In c cs -> 0 <= c < Z.of_nat n) ->
  forall st, vectors n st ->
    foldM (count_class pr gt) cs st =
    (qs <- mapM (class_counts pr gt) cs ;;
     Ok (fold_left (fun s cq => bump_counters s (fst cq) (snd cq)) (combine cs qs) st)).
Proof.
  induction cs as [| c cs IH]; intros Hcs st Hst; simpl; [reflexivity |].
  rewrite (count_class_bump n) by (auto; apply Hcs; left; reflexivity).
  destruct (class_counts pr gt c) as [q | e]; [| reflexivity]. cbn [bind].
  rewrite IH by (try (intros c' Hc'; apply Hcs; right; exact Hc');
                 apply bump_counters_vectors, Hst).
  destruct (mapM (class_counts pr gt) cs) as [qs | e]; reflexivity.
Qed.

Lemma fold_bump_add (l : list (Z * (Z * Z * Z * Z))) :
  forall st d,
    fold_left (fun s cq => bump_counters s (fst cq) (snd cq)) l (add_counters st d)
    = add_counters st (fold_left (fun s cq => bump_counters s (fst cq) (snd cq)) l d).
Proof.
  induction l as [| [c q] l IH]; intros st d; simpl; [reflexivity |].
  rewrite bump_counters_add. apply IH.
Qed.

(** What one pair adds to the counters. *)
Definition class_deltas (n : nat) (pr gt : list Z) : result counters :=
  foldM (count_class pr gt) (Py.range (Z.of_nat n)) (zero_counters n).

Lemma fold_bump_vectors (n : nat) (l : list (Z * (Z * Z * Z * Z))) :
  forall st, vectors n st ->
    vectors n (fold_left (fun s cq => bump_counters s (fst cq) (snd cq)) l st).
Proof.
  induction l as [| [c q] l IH]; intros st H; simpl; [exact H |].
  apply IH, bump_counters_vectors, H.
Qed.

Lemma class_deltas_vectors (n : nat) (pr gt : list Z) (d : counters) :
  class_deltas n pr gt = Ok d -> vectors n d.
Proof.
  unfold class_deltas.
  rewrite (count_classes_from n)
    by (try (intros c Hc; apply in_range in Hc; exact Hc); apply zero_counters_vectors).
  intros H. inv_bind H. injection H as <-.
  apply fold_bump_vectors, zero_counters_vectors.
Qed.

Lemma count_classes_add (n : nat) (pr gt : list Z) (st : counters) :
  vectors n st ->
  foldM (count_class pr gt) (Py.range (Z.of_nat n)) st =
  (d <- class_deltas n pr gt ;; Ok (add_counters st d)).
Proof.
  intros Hst. unfold class_deltas.
  assert (Hr : forall c, In c (Py.range (Z.of_nat n)) -> 0 <= c < Z.of_nat n)
    by (intros c Hc; apply in_range in Hc; exact Hc).
  rewrite !(count_classes_from n) by (auto; apply zero_counters_vectors).
  destruct (mapM (class_counts pr gt) (Py.range (Z.of_nat n))) as [qs | e];
    [| reflexivity].
  cbn [bind]. f_equal.
  rewrite <- fold_bump_add, add_counters_zero by exact Hst. reflexivity.
Qed.

(** ** The scores *)

(** The score of a class with the counters [t], [p] and [f]:
    [tp / (tp + fp + fn + 0.000000000001)]. *)
Definition iou (t p f : Z) : F64.f64 :=
  F64.div (F64.of_Z t)
          (F64.add (F64.add (F64.add (F64.of_Z t) (F64.of_Z p)) (F64.of_Z f)) eps).

Module ScoreFacts.

Import F64 F64Facts.
Local Open Scope Q_scope.

Lemma eps_value : eps = Some (4951760157141521 # 4951760157141521099596496896).
Proof. vm_compute. reflexivity. Qed.

(** The quotient is a binary64 number between 0 and 1, both included. *)
Lemma iou_bounds (t p f : Z) :
  (0 <= t)%Z -> (0 <= p)%Z -> (0 <= f)%Z ->
  exists q, iou t p f = Some q /\ 0 <= q <= 1.
Proof.
  intros Ht Hp Hf. unfold iou, of_Z. rewrite eps_value.
  set (e0 := 4951760157141521 # 4951760157141521099596496896).
  assert (He0 : 0 < e0) by reflexivity.
  assert (Hinj : forall z, (0 <= z)%Z -> 0 <= inject_Z z)
    by (intros z Hz; change 0 with (inject_Z 0); rewrite <- Zle_Qle; exact Hz).
  set (T := round64 (inject_Z t)). set (P := round64 (inject_Z p)).
  set (F := round64 (inject_Z f)).
  assert (HT : 0 <= T) by (apply round64_nonneg, Hinj, Ht).
  assert (HP : 0 <= P) by (apply round64_nonneg, Hinj, Hp).
  assert (HF : 0 <= F) by (apply round64_nonneg, Hinj, Hf).
  assert (HTT : round64 T = T) by (apply round64_idempotent, Hinj, Ht).
  unfold F64.add, lift2, F64.div.
  set (s1 := round64 (T + P)).
  assert (Hs1 : T <= s1).
  { rewrite <- HTT. apply round64_mono; lra. }
  assert (Hs1' : round64 s1 = s1) by (apply round64_idempotent; lra).
  set (s2 := round64 (s1 + F)).
  assert (Hs2 : s1 <= s2).
  { rewrite <- Hs1'. apply round64_mono; lra. }
  assert (Hs2' : round64 s2 = s2) by (apply round64_idempotent; lra).
  set (den := round64 (s2 + e0)).
  assert (Hden : s2 <= den).
  { rewrite <- Hs2'. apply round64_mono; lra. }
  assert (Hpos : 0 < den) by (apply round64_pos; lra).
  destruct (Qeq_bool den 0) eqn:E.
  { apply Qeq_bool_iff in E. lra. }
  eexists. split; [reflexivity |]. split.
  - apply round64_nonneg. apply Qle_shift_div_l; [exact Hpos | lra].
  - apply round64_le_1. apply Qle_shift_div_r; [exact Hpos | lra].
Qed.

End ScoreFacts.

(** Arrays as functions of the index. *)
Lemma map_nth_seq {A B : Type} (f : A -> B) (d : A) (a : list A) :
  map f a = map (fun k => f (nth k a d)) (seq 0 (List.length a)).
Proof.
  induction a as [| x a IH]; simpl; [reflexivity |].
  rewrite <- seq_shift, map_map. f_equal. exact IH.
Qed.

Lemma zip_with_map {A B C D : Type} (f : A -> B -> C) (g : D -> A) (h : D -> B)
    (l : list D) :
  zip_with f (map g l) (map h l) = map (fun x => f (g x) (h x)) l.
Proof. induction l as [| x l IH]; simpl; [| rewrite IH]; reflexivity. Qed.

Lemma broadcast2_map {A B C D : Type} (f : A -> B -> C) (g : D -> A) (h : D -> B)
    (l : list D) :
  broadcast2 (fun x y => Ok (f x y)) (map g l) (map h l)
  = Ok (map (fun x => f (g x) (h x)) l).
Proof.
  rewrite (broadcast2_same _ f) by (rewrite ?length_map; auto).
  rewrite zip_with_map. reflexivity.
Qed.

(** The scores, class by class. *)
Definition class_iou (st : counters) (k : nat) : F64.f64 :=
  iou (nth k (tp st) 0) (nth k (fp st) 0) (nth k (fn st) 0).

(** The share of the pixels of the ground truth that are of class [k]. *)
Definition pixel_share (st : counters) (k : nat) : F64.f64 :=
  F64.div (F64.of_Z (nth k (n_pixels st) 0)) (np_sum (map F64.of_Z (n_pixels st))).

Lemma iu_scores_classes (n : nat) (st : counters) :
  vectors n st ->
  iu_scores st =
  Ok {| frequency_weighted_IU :=
          np_sum (map (fun k => F64.mul (class_iou st k) (pixel_share st k)) (seq 0 n));
        mean_IU :=
          F64.div (np_sum (map (class_iou st) (seq 0 n))) (F64.of_Z (Z.of_nat n));
        class_wise_IU := map (class_iou st) (seq 0 n) |}.
Proof.
  intros (H1 & H2 & H3 & H4). unfold iu_scores, np_add, np_div, np_mul, np_mean.
  unfold pixel_share. set (total := np_sum (map F64.of_Z (n_pixels st))).
  rewrite (map_nth_seq F64.of_Z 0 (tp st)), (map_nth_seq F64.of_Z 0 (fp st)),
    (map_nth_seq F64.of_Z 0 (fn st)), (map_nth_seq F64.of_Z 0 (n_pixels st)).
  rewrite H1, H2, H3, H4.
  rewrite broadcast2_map. cbn [bind].
  rewrite broadcast2_map. cbn [bind].
  rewrite map_map, broadcast2_map. cbn [bind].
  rewrite map_map, broadcast2_map. cbn [bind].
  rewrite length_map, length_seq. unfold class_iou, iou. reflexivity.
Qed.

(** *** [np.sum] *)

(** Fewer than 8 elements are added one after the other. *)
Lemma np_sum_short (a : list F64.f64) :
  (List.length a < 8)%nat -> np_sum a = fold_left F64.add a (Some 0%Q).
Proof.
  intros H. apply Nat.ltb_lt in H. unfold np_sum.
  generalize (List.length a) at 1. intros fuel.
  destruct fuel; cbn [pairwise_sum]; rewrite H; reflexivity.
Qed.

(** The halving of a long array ends: the number of elements is fuel enough,
    and more fuel changes nothing. *)
Lemma pairwise_sum_fuel (fuel : nat) :
  forall (fuel' : nat) (a : list F64.f64),
    (List.length a <= fuel)%nat -> (List.length a <= fuel')%nat ->
    pairwise_sum fuel a = pairwise_sum fuel' a.
Proof.
  induction fuel as [| fuel IH]; intros fuel' a H H'.
  - destruct a; [| simpl in H; lia]. destruct fuel'; reflexivity.
  - destruct fuel' as [| fuel'].
    + destruct a; [reflexivity | simpl in H'; lia].
    + cbn [pairwise_sum].
      destruct (List.length a <? 8)%nat; [reflexivity |].
      destruct (Nat.leb_spec (List.length a) 128) as [_ | Hlong]; [reflexivity |].
      set (n2 := (List.length a / 2 - (List.length a / 2) mod 8)%nat).
      assert (Hn2 : (0 < n2 < List.length a)%nat).
      { unfold n2.
        pose proof (Nat.mod_upper_bound (List.length a / 2) 8 ltac:(lia)).
        pose proof (Nat.div_mod_eq (List.length a) 2).
        pose proof (Nat.mod_upper_bound (List.length a) 2 ltac:(lia)).
        lia. }
      rewrite (IH fuel' (firstn n2 a)), (IH fuel' (skipn n2 a));
        rewrite ?length_firstn, ?length_skipn; try lia.
      reflexivity.
Qed.

(** ** The loop over the pairs *)

Lemma zip_with_add_swap (a x y : list Z) :
  zip_with Z.add (zip_with Z.add a x) y = zip_with Z.add (zip_with Z.add a y) x.
Proof.
  revert x y. induction a as [| u a IH]; intros [| v x] [| w y]; simpl; auto.
  f_equal; [lia | apply IH].
Qed.

Lemma add_counters_swap (st x y : counters) :
  add_counters (add_counters st x) y = add_counters (add_counters st y) x.
Proof.
  unfold add_counters. simpl.
  f_equal; apply zip_with_add_swap.
Qed.

(** A sum does not depend on the order of its terms. *)
Lemma fold_add_counters_perm (l l' : list counters) :
  Permutation l l' ->
  forall st, fold_left add_counters l st = fold_left add_counters l' st.
Proof.
  induction 1 as [| x l l' _ IH | x y l | l l' l'' _ IH1 _ IH2]; intros st; simpl.
  - reflexivity.
  - apply IH.
  - rewrite add_counters_swap. reflexivity.
  - rewrite IH1. apply IH2.
Qed.

Lemma mapM_perm {A B : Type} (f : A -> result B) (l l' : list A) :
  Permutation l l' ->
  forall ys, mapM f l = Ok ys -> exists ys', mapM f l' = Ok ys' /\ Permutation ys ys'.
Proof.
  induction 1 as [| x l l' _ IH | x y l | l l' l'' _ IH1 _ IH2]; intros ys H.
  - exists ys. split; [exact H | apply Permutation_refl].
  - simpl in H. inv_bind_as H y Hy. inv_bind_as H ys0 Hys0. injection H as <-.
    destruct (IH _ Hys0) as (ys' & E & P).
    exists (y :: ys'). simpl. rewrite Hy, E. split; [reflexivity | constructor; exact P].
  - simpl in H. inv_bind_as H b Hb. inv_bind_as H ys0 Hys0.
    inv_bind_as Hys0 a Ha. inv_bind_as Hys0 ys1 Hys1.
    injection Hys0 as <-. injection H as <-.
    exists (a :: b :: ys1). simpl. rewrite Ha, Hb, Hys1.
    split; [reflexivity | apply perm_swap].
  - destruct (IH1 _ H) as (ys' & E & P). destruct (IH2 _ E) as (ys'' & E' & P').
    exists ys''. split; [exact E' | eapply Permutation_trans; eauto].
Qed.

Lemma combine_fst_snd {A B : Type} (l : list (A * B)) :
  combine (map fst l) (map snd l) = l.
Proof. induction l as [| [a b] l IH]; simpl; [| rewrite IH]; reflexivity. Qed.

(** The states a loop passes through, the first one included: it stops where
    its body raises. *)
Fixpoint loop_states {A S : Type} (f : S -> A -> result S) (l : list A) (s : S)
  : list S :=
  s :: match l with
       | [] => []
       | x :: t =>
           match f s x with
           | Ok s' => loop_states f t s'
           | Raise _ => []
           end
       end.

Lemma loop_states_last {A S : Type} (f : S -> A -> result S) (l : list A) :
  forall s s', foldM f l s = Ok s' -> In s' (loop_states f l s).
Proof.
  induction l as [| x t IH]; intros s s' H; simpl in *.
  - injection H as <-. left. reflexivity.
  - destruct (f s x) as [s1 | e]; [| discriminate]. right. apply IH, H.
Qed.

Lemma loop_states_invariant {A S : Type} (f : S -> A -> result S) (P : S -> Prop)
    (l : list A) :
  (forall s x s', In x l -> P s -> f s x = Ok s' -> P s') ->
  forall s, P s -> Forall P (loop_states f l s).
Proof.
  induction l as [| x t IH]; intros Hstep s Hs; simpl.
  - constructor; [exact Hs | constructor].
  - constructor; [exact Hs |].
    destruct (f s x) as [s1 | e] eqn:E; [| constructor].
    apply IH.
    + intros s0 y s0' Hy. apply Hstep. right. exact Hy.
    + eapply Hstep; eauto. left. reflexivity.
Qed.

Lemma foldM_invariant {A S : Type} (f : S -> A -> result S) (P : S -> Prop)
    (l : list A) :
  (forall s x s', In x l -> P s -> f s x = Ok s' -> P s') ->
  forall s s', P s -> foldM f l s = Ok s' -> P s'.
Proof.
  intros Hstep s s' Hs H.
  pose proof (loop_states_invariant f P l Hstep s Hs) as Hall.
  rewrite Forall_forall in Hall. apply Hall. apply loop_states_last, H.
Qed.

(** *** The sums of one pass *)

Lemma count_true_cons (b : bool) (m : list bool) :
  count_true (b :: m) = b2z b + count_true m.
Proof.
  unfold count_true. simpl. generalize (b2z b) as z.
  assert (H : forall acc z, fold_left (fun s b0 => s + b2z b0) m (acc + z)
                            = z + fold_left (fun s b0 => s + b2z b0) m acc).
  { induction m as [| c m IH]; intros acc z; simpl; [lia |].
    replace (acc + z + b2z c) with (acc + b2z c + z) by lia. apply IH. }
  intros z. apply (H 0 z).
Qed.

Lemma count_true_nonneg (m : list bool) : 0 <= count_true m.
Proof.
  induction m as [| b m IH]; [unfold count_true; simpl; lia |].
  rewrite count_true_cons. destruct b; unfold b2z; lia.
Qed.

Lemma bool_mul_same (a b : list bool) :
  List.length a = List.length b -> bool_mul a b = Ok (zip_with andb a b).
Proof. intros H. unfold bool_mul. apply broadcast2_same; auto. Qed.

(** Of the pixels of the ground truth of a class, some are predicted of it
    and the others are not. *)
Lemma count_true_split (cl_i : Z) (pr gt : list Z) :
  List.length pr = List.length gt ->
  count_true (eq_class cl_i gt)
  = count_true (zip_with andb (eq_class cl_i pr) (eq_class cl_i gt))
    + count_true (zip_with andb (ne_class cl_i pr) (eq_class cl_i gt)).
Proof.
  revert gt. induction pr as [| x pr IH]; intros [| y gt] H; simpl in H;
    try discriminate; [reflexivity |].
  unfold eq_class, ne_class in *. cbn [map zip_with]. rewrite !count_true_cons.
  rewrite (IH gt) by lia.
  destruct (x =? cl_i), (y =? cl_i); cbn [andb negb b2z]; lia.
Qed.

Lemma class_counts_nonneg (pr gt : list Z) (cl_i a b c d : Z) :
  class_counts pr gt cl_i = Ok (a, b, c, d) -> 0 <= a /\ 0 <= b /\ 0 <= c /\ 0 <= d.
Proof.
  unfold class_counts. intros H.
  inv_bind_as H m1 H1. inv_bind_as H m2 H2. inv_bind_as H m3 H3.
  injection H as <- <- <- <-. repeat split; apply count_true_nonneg.
Qed.

Lemma class_counts_split (pr gt : list Z) (cl_i a b c d : Z) :
  List.length pr = List.length gt ->
  class_counts pr gt cl_i = Ok (a, b, c, d) -> d = a + c.
Proof.
  intros Hlen. unfold class_counts.
  rewrite !bool_mul_same by (unfold eq_class, ne_class; rewrite !length_map; exact Hlen).
  cbn [bind]. intros H. injection H as <- _ <- <-. apply count_true_split, Hlen.
Qed.

(** *** What holds of the counters *)

(** The pixels of the ground truth of each class are those predicted of the
    class and those that are not. *)
Definition balanced (st : counters) : Prop :=
  forall c, nth c (n_pixels st) 0 = nth c (tp st) 0 + nth c (fn st) 0.

Definition nonnegative (st : counters) : Prop :=
  forall c, 0 <= nth c (tp st) 0 /\ 0 <= nth c (fp st) 0 /\ 0 <= nth c (fn st) 0.

Lemma nth_repeat_zero (n k : nat) : nth k (repeat 0 n) 0 = 0.
Proof.
  destruct (Nat.lt_ge_cases k n) as [H | H].
  - apply nth_repeat_lt, H.
  - apply nth_overflow. rewrite repeat_length. exact H.
Qed.

Lemma zero_counters_balanced (n : nat) : balanced (zero_counters n).
Proof. intros c. unfold zero_counters. simpl. rewrite !nth_repeat_zero. reflexivity. Qed.

Lemma zero_counters_nonnegative (n : nat) : nonnegative (zero_counters n).
Proof. intros c. unfold zero_counters. simpl. rewrite !nth_repeat_zero. lia. Qed.

Lemma count_class_nonnegative (n : nat) (pr gt : list Z) (st st' : counters) (cl_i : Z) :
  vectors n st -> 0 <= cl_i < Z.of_nat n ->
  count_class pr gt st cl_i = Ok st' ->
  nonnegative st -> vectors n st' /\ nonnegative st'.
Proof.
  intros Hv Hc H Hn. rewrite (count_class_bump n) in H by assumption.
  inv_bind_as H q Hq. injection H as <-. split; [apply bump_counters_vectors, Hv |].
  destruct q as [[[a b] c] d].
  destruct (class_counts_nonneg _ _ _ _ _ _ _ Hq) as (Ha & Hb & Hc' & _).
  destruct Hv as (H1 & H2 & H3 & H4).
  intros k. destruct (Hn k) as (K1 & K2 & K3). unfold bump_counters. simpl.
  rewrite !nth_bump by lia. destruct (k =? Z.to_nat cl_i)%nat; lia.
Qed.

Lemma count_class_balanced (n : nat) (pr gt : list Z) (st st' : counters) (cl_i : Z) :
  vectors n st -> 0 <= cl_i < Z.of_nat n ->
  List.length pr = List.length gt ->
  count_class pr gt st cl_i = Ok st' ->
  balanced st -> balanced st'.
Proof.
  intros Hv Hc Hlen H Hb. rewrite (count_class_bump n) in H by assumption.
  inv_bind_as H q Hq. injection H as <-.
  destruct q as [[[a b] c] d]. pose proof (class_counts_split _ _ _ _ _ _ _ Hlen Hq) as Hd.
  destruct Hv as (H1 & H2 & H3 & H4).
  intros k. specialize (Hb k). unfold bump_counters. simpl.
  rewrite !nth_bump by lia. destruct (k =? Z.to_nat cl_i)%nat; lia.
Qed.

(** *** What the counters count *)

(** Of the pixels of a pair: those predicted [c] that are [c], those
    predicted [c] that are not, those that are [c] and not predicted so, and
    those that are [c]. *)
Definition true_positives (c : Z) (pr gt : list Z) : Z :=
  count_true (zip_with (fun p g => (p =? c) && (g =? c)) pr gt).
Definition false_positives (c : Z) (pr gt : list Z) : Z :=
  count_true (zip_with (fun p g => (p =? c) && negb (g =? c)) pr gt).
Definition false_negatives (c : Z) (pr gt : list Z) : Z :=
  count_true (zip_with (fun p g => negb (p =? c) && (g =? c)) pr gt).
Definition class_pixels (c : Z) (gt : list Z) : Z :=
  count_true (map (fun g => g =? c) gt).

Lemma zip_with_maps {A B C D E : Type} (f : C -> D -> E) (g : A -> C) (h : B -> D)
    (a : list A) (b : list B) :
  zip_with f (map g a) (map h b) = zip_with (fun x y => f (g x) (h y)) a b.
Proof.
  revert b. induction a as [| x a IH]; intros [| y b]; simpl; [reflexivity .. |].
  f_equal. apply IH.
Qed.

Lemma class_counts_meaning (pr gt : list Z) (c : Z) :
  List.length pr = List.length gt ->
  class_counts pr gt c
  = Ok (true_positives c pr gt, false_positives c pr gt, false_negatives c pr gt,
        class_pixels c gt).
Proof.
  intros H. unfold class_counts.
  rewrite !bool_mul_same by (unfold eq_class, ne_class; rewrite !length_map; exact H).
  cbn [bind]. unfold eq_class, ne_class. rewrite !zip_with_maps. reflexivity.
Qed.

(** The counters after the first [k] classes of a pair, from zero. *)
Definition counted_upto (n k : nat) (pr gt : list Z) : counters :=
  let upto (f : Z -> Z) :=
    map (fun c => f (Z.of_nat c)) (seq 0 k) ++ repeat 0 (n - k) in
  {| tp := upto (fun c => true_positives c pr gt);
     fp := upto (fun c => false_positives c pr gt);
     fn := upto (fun c => false_negatives c pr gt);
     n_pixels := upto (fun c => class_pixels c gt) |}.

(** What a pair adds to the counters of each class. *)
Definition pair_counters (n : nat) (pr gt : list Z) : counters :=
  {| tp := map (fun c => true_positives (Z.of_nat c) pr gt) (seq 0 n);
     fp := map (fun c => false_positives (Z.of_nat c) pr gt) (seq 0 n);
     fn := map (fun c => false_negatives (Z.of_nat c) pr gt) (seq 0 n);
     n_pixels := map (fun c => class_pixels (Z.of_nat c) gt) (seq 0 n) |}.

Lemma foldM_app {A S : Type} (f : S -> A -> result S) (l1 l2 : list A) :
  forall s, foldM f (l1 ++ l2) s = (s' <- foldM f l1 s ;; foldM f l2 s').
Proof.
  induction l1 as [| x l1 IH]; intros s; simpl; [reflexivity |].
  destruct (f s x) as [s1 | e]; [apply IH | reflexivity].
Qed.

Lemma bump_upto (l : list Z) (n : nat) (v : Z) :
  (List.length l < n)%nat ->
  bump (l ++ repeat 0 (n - List.length l)) (List.length l) v
  = (l ++ [v]) ++ repeat 0 (n - S (List.length l)).
Proof.
  intros H. replace (n - List.length l)%nat with (S (n - S (List.length l))) by lia.
  cbn [repeat]. generalize (repeat 0 (n - S (List.length l))) as r. clear H.
  induction l as [| x l IH]; intros r; simpl; [reflexivity |].
  f_equal. apply IH.
Qed.

Lemma counted_upto_vectors (n k : nat) (pr gt : list Z) :
  (k <= n)%nat -> vectors n (counted_upto n k pr gt).
Proof.
  intros H. unfold vectors, counted_upto. cbn [tp fp fn n_pixels].
  rewrite !length_app, !length_map, !length_seq, !repeat_length. lia.
Qed.

Lemma count_classes_upto (n : nat) (pr gt : list Z) :
  List.length pr = List.length gt ->
  forall k, (k <= n)%nat ->
    foldM (count_class pr gt) (map Z.of_nat (seq 0 k)) (zero_counters n)
    = Ok (counted_upto n k pr gt).
Proof.
  intros Hlen. induction k as [| k IH]; intros Hk.
  - unfold counted_upto. cbn [seq map app foldM]. rewrite Nat.sub_0_r. reflexivity.
  - rewrite seq_S, map_app, foldM_app, IH by lia. cbn [bind Nat.add map foldM].
    rewrite (count_class_bump n) by (try apply counted_upto_vectors; lia).
    rewrite class_counts_meaning by exact Hlen. cbn [bind].
    unfold bump_counters, counted_upto. cbn [tp fp fn n_pixels]. rewrite Nat2Z.id.
    assert (E : forall f : Z -> Z,
               bump (map (fun c => f (Z.of_nat c)) (seq 0 k) ++ repeat 0 (n - k)) k
                    (f (Z.of_nat k))
               = map (fun c => f (Z.of_nat c)) (seq 0 (S k)) ++ repeat 0 (n - S k)).
    { intros f.
      pose proof (bump_upto (map (fun c => f (Z.of_nat c)) (seq 0 k)) n (f (Z.of_nat k)))
        as B.
      rewrite length_map, length_seq in B. rewrite B by lia.
      rewrite seq_S, map_app. reflexivity. }
    rewrite (E (fun c => true_positives c pr gt)), (E (fun c => false_positives c pr gt)),
      (E (fun c => false_negatives c pr gt)), (E (fun c => class_pixels c gt)).
    reflexivity.
Qed.

(** One pair adds to each counter, at each class, the number of its pixels
    of that kind. *)
Lemma class_deltas_meaning (n : nat) (pr gt : list Z) :
  List.length pr = List.length gt ->
  class_deltas n pr gt = Ok (pair_counters n pr gt).
Proof.
  intros Hlen. unfold class_deltas, Py.range. rewrite Nat2Z.id.
  rewrite (count_classes_upto n pr gt Hlen n) by lia.
  unfold counted_upto, pair_counters. rewrite Nat.sub_diag. cbn [repeat].
  rewrite !app_nil_r. reflexivity.
Qed.

(** The sum of [f] over a list. *)
Definition total {A : Type} (f : A -> Z) (l : list A) : Z :=
  fold_right (fun x s => f x + s) 0 l.

Lemma nth_zip_with_add (a b : list Z) (c : nat) :
  List.length a = List.length b ->
  nth c (zip_with Z.add a b) 0 = nth c a 0 + nth c b 0.
Proof.
  revert b c. induction a as [| x a IH]; intros [| y b] c H; simpl in H;
    try discriminate.
  - destruct c; reflexivity.
  - destruct c as [| c]; simpl; [reflexivity | apply IH; lia].
Qed.

(** The counters after the loop over the pairs hold, at each class, what
    the pairs add there. *)
Lemma fold_add_counters_nth (n : nat) (ds : list counters) (c : nat) :
  Forall (vectors n) ds ->
  forall st, vectors n st ->
    let st' := fold_left add_counters ds st in
    nth c (tp st') 0 = nth c (tp st) 0 + total (fun d => nth c (tp d) 0) ds /\
    nth c (fp st') 0 = nth c (fp st) 0 + total (fun d => nth c (fp d) 0) ds /\
    nth c (fn st') 0 = nth c (fn st) 0 + total (fun d => nth c (fn d) 0) ds /\
    nth c (n_pixels st') 0
    = nth c (n_pixels st) 0 + total (fun d => nth c (n_pixels d) 0) ds.
Proof.
  induction 1 as [| d ds Hd Hds IH]; intros st Hst; cbv zeta; cbn [fold_left total fold_right].
  - repeat split; lia.
  - destruct (IH (add_counters st d) (add_counters_vectors n st d Hst Hd))
      as (H1 & H2 & H3 & H4).
    cbv zeta in H1, H2, H3, H4. rewrite H1, H2, H3, H4.
    destruct Hst as (S1 & S2 & S3 & S4), Hd as (D1 & D2 & D3 & D4).
    unfold add_counters. cbn [tp fp fn n_pixels].
    rewrite !nth_zip_with_add by congruence.
    unfold total. repeat split; lia.
Qed.

Lemma pair_counters_vectors (n : nat) (pr gt : list Z) :
  vectors n (pair_counters n pr gt).
Proof.
  unfold vectors, pair_counters. cbn [tp fp fn n_pixels].
  rewrite !length_map, !length_seq. auto.
Qed.

Lemma pair_counters_nth (n : nat) (pr gt : list Z) (c : nat) :
  (c < n)%nat ->
  nth c (tp (pair_counters n pr gt)) 0 = true_positives (Z.of_nat c) pr gt /\
  nth c (fp (pair_counters n pr gt)) 0 = false_positives (Z.of_nat c) pr gt /\
  nth c (fn (pair_counters n pr gt)) 0 = false_negatives (Z.of_nat c) pr gt /\
  nth c (n_pixels (pair_counters n pr gt)) 0 = class_pixels (Z.of_nat c) gt.
Proof.
  intros Hc. unfold pair_counters. cbn [tp fp fn n_pixels].
  assert (E : forall f : nat -> Z, nth c (map f (seq 0 n)) 0 = f c).
  { intros f. rewrite (nth_indep _ 0 (f 0%nat)) by (rewrite length_map, length_seq; exact Hc).
    rewrite (map_nth f), seq_nth by exact Hc. reflexivity. }
  rewrite (E (fun c => true_positives (Z.of_nat c) pr gt)),
    (E (fun c => false_positives (Z.of_nat c) pr gt)),
    (E (fun c => false_negatives (Z.of_nat c) pr gt)),
    (E (fun c => class_pixels (Z.of_nat c) gt)).
  auto.
Qed.

Lemma total_map {A B : Type} (f : B -> Z) (g : A -> B) (l : list A) :
  total f (map g l) = total (fun x => f (g x)) l.
Proof. induction l as [| x l IH]; simpl; [| rewrite IH]; reflexivity. Qed.

Lemma total_ext {A : Type} (f g : A -> Z) (l : list A) :
  (forall x, In x l -> f x = g x) -> total f l = total g l.
Proof.
  induction l as [| x l IH]; intros H; simpl; [reflexivity |].
  rewrite (H x (or_introl eq_refl)), IH; [reflexivity |].
  intros y Hy. apply H. right. exact Hy.
Qed.

Lemma length_concat_shape {A : Type} (a : list (list A)) (h w : nat) :
  has_shape_2d a h w -> List.length (List.concat a) = (h * w)%nat.
Proof.
  intros [Hh Hw]. subst h. induction a as [| row a IH]; simpl; [reflexivity |].
  inversion Hw as [| ? ? Hrow Hrest]; subst. rewrite length_app, IH by exact Hrest.
  reflexivity.
Qed.

Section EvaluationFacts.

Variable tensor : Type.
Variable glob : string -> list string.
Variable normpath : string -> string.
Variable isfile : string -> bool.
Variable read_config : string -> result config.
Variable model_from_name : string -> option (nat -> nat -> nat -> Model tensor).
Variable load_weights : Model tensor -> string -> result (Model tensor).
Variable imread : string -> option image.
Variable cv2_resize : interpolation -> image -> nat -> nat -> image.
Variable cv2_putText : string -> Z * Z -> nat -> nat -> pixel -> pixel.
Variable cv2_rectangle : Z * Z -> Z * Z -> color -> nat -> nat -> pixel -> pixel.
Variable class_colors : list color.
Variable get_image_array : image -> nat -> nat -> tensor.
Variable annotation : Type.
Variable get_segmentation_array :
  annotation -> nat -> nat -> nat -> result (list (list (list Z))).
Variable get_pairs_from_paths : string -> string -> result (list (input * annotation)).

Local Abbreviation labels_of :=
  (pair_labels tensor glob normpath isfile read_config model_from_name load_weights
     imread cv2_resize cv2_putText cv2_rectangle class_colors get_image_array
     annotation get_segmentation_array).
Local Abbreviation count_one :=
  (count_pair tensor glob normpath isfile read_config model_from_name load_weights
     imread cv2_resize cv2_putText cv2_rectangle class_colors get_image_array
     annotation get_segmentation_array).
Local Abbreviation count_all :=
  (count_pairs tensor glob normpath isfile read_config model_from_name load_weights
     imread cv2_resize cv2_putText cv2_rectangle class_colors get_image_array
     annotation get_segmentation_array).
Local Abbreviation evaluate :=
  (evaluate_segmentation tensor glob normpath isfile read_config model_from_name
     load_weights imread cv2_resize cv2_putText cv2_rectangle class_colors
     get_image_array annotation get_segmentation_array get_pairs_from_paths).

(** [get_segmentation_array(ann, n, w, h, no_reshape=True)] returns an array
    of shape [(h, w, n)]. *)
Definition ground_truth_contract : Prop :=
  forall ann n w h gt,
    get_segmentation_array ann n w h = Ok gt -> has_shape_2d gt h w.

(** What one pair adds to the counters. *)
Definition pair_delta (model : Model tensor) (pair : input * annotation)
  : result counters :=
  let '(inp, ann) := pair in
  labels <- labels_of model inp ann ;;
  let '(pr, gt) := labels in
  class_deltas (n_classes model) pr gt.

Lemma count_pair_add (model : Model tensor) (st : counters) (pair : input * annotation) :
  vectors (n_classes model) st ->
  count_one model st pair = (d <- pair_delta model pair ;; Ok (add_counters st d)).
Proof.
  intros Hst. unfold count_pair, pair_delta. destruct pair as [inp ann].
  destruct (labels_of model inp ann) as [[pr gt] | e]; [| reflexivity].
  cbn [bind]. apply count_classes_add, Hst.
Qed.

Lemma pair_delta_vectors (model : Model tensor) (pair : input * annotation)
    (d : counters) :
  pair_delta model pair = Ok d -> vectors (n_classes model) d.
Proof.
  unfold pair_delta. destruct pair as [inp ann]. intros H.
  inv_bind_as H l Hl. destruct l as [pr gt]. eapply class_deltas_vectors, H.
Qed.

(** The loop adds up what the pairs add. *)
Lemma count_pairs_from (model : Model tensor) (pairs : list (input * annotation)) :
  forall st, vectors (n_classes model) st ->
    foldM (count_one model) pairs st =
    (ds <- mapM (pair_delta model) pairs ;; Ok (fold_left add_counters ds st)).
Proof.
  induction pairs as [| p pairs IH]; intros st Hst; simpl; [reflexivity |].
  rewrite count_pair_add by exact Hst.
  destruct (pair_delta model p) as [d | e] eqn:E; [| reflexivity]. cbn [bind].
  rewrite IH by (apply add_counters_vectors; [exact Hst | eapply pair_delta_vectors, E]).
  destruct (mapM (pair_delta model) pairs); reflexivity.
Qed.

Lemma count_pairs_sum (model : Model tensor) (pairs : list (input * annotation)) :
  count_all model pairs =
  (ds <- mapM (pair_delta model) pairs ;;
   Ok (fold_left add_counters ds (zero_counters (n_classes model)))).
Proof. apply count_pairs_from, zero_counters_vectors. Qed.

Lemma count_pairs_perm (model : Model tensor) (pairs pairs' : list (input * annotation))
    (st : counters) :
  Permutation pairs pairs' ->
  count_all model pairs = Ok st -> count_all model pairs' = Ok st.
Proof.
  intros P. rewrite !count_pairs_sum. intros H. inv_bind_as H ds Hds.
  destruct (mapM_perm _ _ _ P _ Hds) as (ds' & E & P'). rewrite E. cbn [bind].
  rewrite <- H. f_equal. symmetry. apply fold_add_counters_perm, P'.
Qed.

Lemma count_pairs_vectors (model : Model tensor) (pairs : list (input * annotation))
    (st : counters) :
  count_all model pairs = Ok st -> vectors (n_classes model) st.
Proof.
  unfold count_pairs. apply foldM_invariant with (P := vectors (n_classes model)).
  - intros s p s' _ Hs H. rewrite count_pair_add in H by exact Hs.
    inv_bind_as H d Hd. injection H as <-.
    apply add_counters_vectors; [exact Hs | eapply pair_delta_vectors, Hd].
  - apply zero_counters_vectors.
Qed.

Lemma evaluate_segmentation_lists (model : Model tensor) (inp_images : list input)
    (annotations : list annotation) (inp_images_dir annotations_dir : option string)
    (checkpoints_path : option string) :
  evaluate (Some model) (Some inp_images) (Some annotations) inp_images_dir
    annotations_dir checkpoints_path
  = (st <- count_all model (combine inp_images annotations) ;; iu_scores st).
Proof. reflexivity. Qed.

(** The model and the pairs a call of [evaluate_segmentation] works with:
    the model given or the one of the checkpoint, the lists given, paired up
    as [zip] does, or the pairs of the two directories. *)
Definition evaluation_inputs (model : option (Model tensor))
    (inp_images : option (list input)) (annotations : option (list annotation))
    (inp_images_dir annotations_dir : option string)
    (checkpoints_path : option string)
  : result (Model tensor * list (input * annotation)) :=
  model <- match model with
           | None =>
               match checkpoints_path with
               | None =>
                   Raise (AssertionError "Please provide the model or the checkpoints_path")
               | Some checkpoints_path =>
                   model_from_checkpoint_path tensor glob normpath isfile read_config
                     model_from_name load_weights checkpoints_path
               end
           | Some model => Ok model
           end ;;
  match inp_images with
  | None =>
      match inp_images_dir, annotations_dir with
      | None, _ | _, None =>
          Raise (AssertionError "Please provide inp_images or inp_images_dir")
      | Some inp_images_dir, Some annotations_dir =>
          paths <- get_pairs_from_paths inp_images_dir annotations_dir ;;
          match paths with
          | [] => Raise IndexError
          | _ => Ok (model, paths)
          end
      end
  | Some inp_images =>
      match annotations with
      | None => Raise (AssertionError "")
      | Some annotations => Ok (model, combine inp_images annotations)
      end
  end.

Lemma evaluate_segmentation_stages (model : option (Model tensor))
    (inp_images : option (list input)) (annotations : option (list annotation))
    (inp_images_dir annotations_dir : option string)
    (checkpoints_path : option string) :
  evaluate model inp_images annotations inp_images_dir annotations_dir checkpoints_path
  = (mp <- evaluation_inputs model inp_images annotations inp_images_dir
             annotations_dir checkpoints_path ;;
     st <- count_all (fst mp) (snd mp) ;;
     iu_scores st).
Proof.
  unfold evaluate_segmentation, evaluation_inputs.
  destruct (match model with
            | Some m => Ok m
            | None => _
            end) as [m | e]; [| reflexivity].
  cbn [bind]. destruct inp_images as [imgs |].
  - cbn [bind]. destruct annotations as [anns |]; reflexivity.
  - destruct inp_images_dir as [d1 |]; [| reflexivity].
    destruct annotations_dir as [d2 |]; [| reflexivity].
    destruct (get_pairs_from_paths d1 d2) as [[| p paths] | e]; try reflexivity.
    cbn [bind fst snd]. rewrite combine_fst_snd. reflexivity.
Qed.

(** C9. The loop of [evaluate_segmentation] adds up what each pair adds to
    the counters: over a permutation of the list of pairs it ends with the
    same [tp], [fp], [fn] and [n_pixels], and [evaluate_segmentation]
    returns the same [class_wise_IU], [mean_IU] and [frequency_weighted_IU];
    it raises over the one list when it raises over the other. *)
Theorem evaluate_segmentation_order_independent :
  forall (model : Model tensor) (pairs pairs' : list (input * annotation)),
    Permutation pairs pairs' ->
    (forall st,
        count_pairs tensor glob normpath isfile read_config model_from_name
          load_weights imread cv2_resize cv2_putText cv2_rectangle class_colors
          get_image_array annotation get_segmentation_array model pairs = Ok st
        <->
        count_pairs tensor glob normpath isfile read_config model_from_name
          load_weights imread cv2_resize cv2_putText cv2_rectangle class_colors
          get_image_array annotation get_segmentation_array model pairs' = Ok st)
    /\ (forall s,
        evaluate_segmentation tensor glob normpath isfile read_config model_from_name
          load_weights imread cv2_resize cv2_putText cv2_rectangle class_colors
          get_image_array annotation get_segmentation_array get_pairs_from_paths
          (Some model) (Some (map fst pairs)) (Some (map snd pairs)) None None None
        = Ok s
        <->
        evaluate_segmentation tensor glob normpath isfile read_config model_from_name
          load_weights imread cv2_resize cv2_putText cv2_rectangle class_colors
          get_image_array annotation get_segmentation_array get_pairs_from_paths
          (Some model) (Some (map fst pairs')) (Some (map snd pairs')) None None None
        = Ok s).
Proof.
  intros model pairs pairs' P.
  assert (Hst : forall st, count_all model pairs = Ok st <-> count_all model pairs' = Ok st).
  { intros st. split; apply count_pairs_perm; [exact P | apply Permutation_sym, P]. }
  split; [exact Hst |].
  intros s. rewrite !evaluate_segmentation_lists, !combine_fst_snd.
  split; intros H; inv_bind_as H st Hc; apply Hst in Hc; rewrite Hc; exact H.
Qed.

(** *** The counters throughout the loop *)

(** The counters at each turn of the loop over the pairs and, within it, of
    the loop over the classes. *)
Fixpoint accumulation_states (model : Model tensor) (pairs : list (input * annotation))
    (st : counters) : list counters :=
  st :: match pairs with
        | [] => []
        | (inp, ann) :: rest =>
            match labels_of model inp ann with
            | Raise _ => []
            | Ok (pr, gt) =>
                let classes := Py.range (Z.of_nat (n_classes model)) in
                loop_states (count_class pr gt) classes st ++
                match foldM (count_class pr gt) classes st with
                | Ok st' => accumulation_states model rest st'
                | Raise _ => []
                end
            end
        end.

Lemma accumulation_states_last (model : Model tensor)
    (pairs : list (input * annotation)) :
  forall st st',
    foldM (count_one model) pairs st = Ok st' ->
    In st' (accumulation_states model pairs st).
Proof.
  induction pairs as [| [inp ann] rest IH]; intros st st' H; simpl in *.
  - injection H as <-. left. reflexivity.
  - right. inv_bind_as H s1 Hs1. unfold count_pair in Hs1.
    destruct (labels_of model inp ann) as [[pr gt] | e]; [| discriminate].
    cbn [bind] in Hs1. rewrite Hs1. apply in_or_app. right. apply IH, H.
Qed.

Lemma pair_labels_lengths (model : Model tensor) (inp : input) (ann : annotation)
    (pr gt : list Z) :
  ground_truth_contract ->
  labels_of model inp ann = Ok (pr, gt) -> List.length pr = List.length gt.
Proof.
  intros Hgt H. unfold pair_labels in H.
  inv_bind_as H r Hr. destruct r as [prm written]. cbn [fst] in H.
  inv_bind_as H gta Hgta. inv_bind_as H gtm Hgtm. injection H as <- <-.
  apply predict_segmentation_raw in Hr. unfold raw_class_map in Hr.
  cbn [loaded_model bind] in Hr. inv_bind_as Hr a Ha.
  destruct (predicted_class_map_shape _ _ _ _ _ Hr) as [Hh Hw].
  destruct (Hgt _ _ _ _ _ Hgta) as [Gh Gw].
  destruct (argmax_axis2_ok _ _ _ _ Hgtm Gw) as (Gl & Gw' & _).
  rewrite (length_concat_shape prm (output_height model) (output_width model))
    by (split; assumption).
  rewrite (length_concat_shape gtm (output_height model) (output_width model))
    by (split; [congruence | assumption]).
  reflexivity.
Qed.

(** What holds of the counters at every turn. *)
Definition counted (n : nat) (st : counters) : Prop :=
  vectors n st /\ nonnegative st.

Lemma accumulation_states_counted (model : Model tensor)
    (pairs : list (input * annotation)) :
  forall st, counted (n_classes model) st ->
    Forall (counted (n_classes model)) (accumulation_states model pairs st).
Proof.
  assert (Hstep : forall pr gt s c s',
             In c (Py.range (Z.of_nat (n_classes model))) ->
             counted (n_classes model) s -> count_class pr gt s c = Ok s' ->
             counted (n_classes model) s').
  { intros pr gt s c s' Hc [Hv Hn] H. apply in_range in Hc.
    eapply count_class_nonnegative; eauto. }
  induction pairs as [| [inp ann] rest IH]; intros st Hst; simpl.
  - constructor; [exact Hst | constructor].
  - constructor; [exact Hst |].
    destruct (labels_of model inp ann) as [[pr gt] | e]; [| constructor].
    apply Forall_app. split.
    + apply loop_states_invariant; [apply Hstep | exact Hst].
    + destruct (foldM (count_class pr gt) (Py.range (Z.of_nat (n_classes model))) st)
        as [st' | e] eqn:E; [| constructor].
      apply IH.
      apply (foldM_invariant (count_class pr gt) (counted (n_classes model))
               (Py.range (Z.of_nat (n_classes model)))) with (s := st);
        [apply Hstep | exact Hst | exact E].
Qed.

Lemma accumulation_states_balanced (model : Model tensor)
    (pairs : list (input * annotation)) :
  ground_truth_contract ->
  forall st, vectors (n_classes model) st -> balanced st ->
    Forall balanced (accumulation_states model pairs st).
Proof.
  intros Hgt.
  assert (Hstep : forall pr gt s c s',
             List.length pr = List.length gt ->
             In c (Py.range (Z.of_nat (n_classes model))) ->
             vectors (n_classes model) s /\ balanced s ->
             count_class pr gt s c = Ok s' ->
             vectors (n_classes model) s' /\ balanced s').
  { intros pr gt s c s' Hlen Hc [Hv Hb] H. apply in_range in Hc. split.
    - rewrite (count_class_bump (n_classes model)) in H by assumption.
      inv_bind_as H q Hq. injection H as <-. apply bump_counters_vectors, Hv.
    - eapply count_class_balanced; eauto. }
  assert (Hall : forall st, vectors (n_classes model) st /\ balanced st ->
             Forall (fun s => vectors (n_classes model) s /\ balanced s)
                    (accumulation_states model pairs st)).
  { induction pairs as [| [inp ann] rest IH]; intros st Hst; simpl.
    - constructor; [exact Hst | constructor].
    - constructor; [exact Hst |].
      destruct (labels_of model inp ann) as [[pr gt] | e] eqn:El; [| constructor].
      pose proof (pair_labels_lengths _ _ _ _ _ Hgt El) as Hlen.
      apply Forall_app. split.
      + apply loop_states_invariant; [intros s c s'; apply Hstep, Hlen | exact Hst].
      + destruct (foldM (count_class pr gt) (Py.range (Z.of_nat (n_classes model))) st)
          as [st' | e] eqn:E; [| constructor].
        apply IH.
        apply (foldM_invariant (count_class pr gt)
                 (fun s => vectors (n_classes model) s /\ balanced s)
                 (Py.range (Z.of_nat (n_classes model)))) with (s := st);
          [intros s c s'; apply Hstep, Hlen | exact Hst | exact E]. }
  intros st Hv Hb. eapply Forall_impl; [| apply Hall; split; assumption].
  intros s [_ H]. exact H.
Qed.

Lemma count_pairs_nonnegative (model : Model tensor) (pairs : list (input * annotation))
    (st : counters) :
  count_all model pairs = Ok st -> nonnegative st.
Proof.
  intros H. apply accumulation_states_last in H.
  pose proof (accumulation_states_counted model pairs (zero_counters (n_classes model))
                (conj (zero_counters_vectors _) (zero_counters_nonnegative _))) as Hall.
  rewrite Forall_forall in Hall. apply Hall in H. apply H.
Qed.

(** *** What the counters hold after the loop *)

(** The flattened prediction and ground truth of each pair. *)
Definition labelled (model : Model tensor) (pairs : list (input * annotation))
  : result (list (list Z * list Z)) :=
  mapM (fun pair => labels_of model (fst pair) (snd pair)) pairs.

Lemma pair_deltas_meaning (model : Model tensor) (pairs : list (input * annotation)) :
  ground_truth_contract ->
  forall ds, mapM (pair_delta model) pairs = Ok ds ->
    exists ls,
      labelled model pairs = Ok ls /\
      ds = map (fun l => pair_counters (n_classes model) (fst l) (snd l)) ls.
Proof.
  intros Hgt. unfold labelled.
  induction pairs as [| [inp ann] pairs IH]; intros ds H; simpl in H.
  - apply Ok_inj in H. subst ds. exists []. split; reflexivity.
  - inv_bind_as H d Hd. inv_bind_as H ds' Hds. apply Ok_inj in H. subst ds.
    inv_bind_as Hd l Hl. destruct l as [pr gt].
    rewrite class_deltas_meaning in Hd by (eapply pair_labels_lengths; eauto).
    apply Ok_inj in Hd. subst d.
    destruct (IH _ Hds) as (ls & Els & ->).
    exists ((pr, gt) :: ls). cbn [mapM fst snd]. rewrite Hl, Els. split; reflexivity.
Qed.

(** Each counter holds, at each class, the number of pixels of its kind in
    all the pairs. *)
Lemma count_pairs_meaning (model : Model tensor) (pairs : list (input * annotation))
    (st : counters) :
  ground_truth_contract ->
  count_all model pairs = Ok st ->
  exists ls,
    labelled model pairs = Ok ls /\
    forall c, (c < n_classes model)%nat ->
      nth c (tp st) 0
      = total (fun l => true_positives (Z.of_nat c) (fst l) (snd l)) ls /\
      nth c (fp st) 0
      = total (fun l => false_positives (Z.of_nat c) (fst l) (snd l)) ls /\
      nth c (fn st) 0
      = total (fun l => false_negatives (Z.of_nat c) (fst l) (snd l)) ls /\
      nth c (n_pixels st) 0 = total (fun l => class_pixels (Z.of_nat c) (snd l)) ls.
Proof.
  intros Hgt H. rewrite count_pairs_sum in H. inv_bind_as H ds Hds.
  apply Ok_inj in H. subst st.
  destruct (pair_deltas_meaning model pairs Hgt ds Hds) as (ls & Els & ->).
  exists ls. split; [exact Els |]. intros c Hc.
  destruct (fold_add_counters_nth (n_classes model)
              (map (fun l => pair_counters (n_classes model) (fst l) (snd l)) ls) c)
    with (st := zero_counters (n_classes model)) as (H1 & H2 & H3 & H4).
  - rewrite Forall_forall. intros d Hd. apply in_map_iff in Hd.
    destruct Hd as (l & <- & _). apply pair_counters_vectors.
  - apply zero_counters_vectors.
  - rewrite H1, H2, H3, H4. unfold zero_counters. cbn [tp fp fn n_pixels].
    rewrite !nth_repeat_zero, !total_map. cbn [Z.add].
    repeat split; apply total_ext; intros l _;
      apply (pair_counters_nth (n_classes model) (fst l) (snd l) c Hc).
Qed.

(** A score that is a number from 0 to 1. *)
Definition unit_score (x : F64.f64) : Prop :=
  exists q, x = Some q /\ (0 <= q <= 1)%Q.

(** C10, as the code has it.  Before and after every pass of the loops of
    [evaluate_segmentation], the one over the pairs and within it the one
    over the classes, [n_pixels[c] = tp[c] + fn[c]] for every class [c]
    ([get_segmentation_array] returning an array of the shape of the
    model's output); the counters a call ends its loop with are those of the
    last turn; and every class-wise score the call returns is a number from
    0 to 1, both included. *)
Theorem evaluate_segmentation_counters_balanced :
  ground_truth_contract ->
  (forall (model : Model tensor) (pairs : list (input * annotation)),
      Forall (fun st => forall c,
                  nth c (n_pixels st) 0 = nth c (tp st) 0 + nth c (fn st) 0)
             (accumulation_states model pairs (zero_counters (n_classes model))))
  /\ (forall model inp_images annotations inp_images_dir annotations_dir
             checkpoints_path s,
        evaluate_segmentation tensor glob normpath isfile read_config
          model_from_name load_weights imread cv2_resize cv2_putText cv2_rectangle
          class_colors get_image_array annotation get_segmentation_array
          get_pairs_from_paths model inp_images annotations inp_images_dir
          annotations_dir checkpoints_path
        = Ok s ->
        exists m pairs st,
          evaluation_inputs model inp_images annotations inp_images_dir
            annotations_dir checkpoints_path = Ok (m, pairs) /\
          count_pairs tensor glob normpath isfile read_config model_from_name
            load_weights imread cv2_resize cv2_putText cv2_rectangle class_colors
            get_image_array annotation get_segmentation_array m pairs = Ok st /\
          In st (accumulation_states m pairs (zero_counters (n_classes m))) /\
          Forall unit_score (class_wise_IU s)).
Proof.
  intros Hgt. split.
  - intros model pairs. apply (accumulation_states_balanced model pairs Hgt).
    + apply zero_counters_vectors.
    + apply zero_counters_balanced.
  - intros model inp_images annotations inp_images_dir annotations_dir
           checkpoints_path s H.
    rewrite evaluate_segmentation_stages in H.
    inv_bind_as H mp Hmp. destruct mp as [m pairs]. cbn [fst snd] in H.
    inv_bind_as H st Hst.
    exists m, pairs, st. split; [exact Hmp |]. split; [exact Hst |].
    split; [apply accumulation_states_last, Hst |].
    rewrite (iu_scores_classes (n_classes m)) in H
      by (eapply count_pairs_vectors, Hst).
    apply Ok_inj in H. rewrite <- H. cbn [class_wise_IU].
    pose proof (count_pairs_nonnegative _ _ _ Hst) as Hn.
    rewrite Forall_forall. intros x Hx. apply in_map_iff in Hx.
    destruct Hx as (c & <- & _). destruct (Hn c) as (H1 & H2 & H3).
    unfold unit_score, class_iou. apply ScoreFacts.iou_bounds; assumption.
Qed.


End EvaluationFacts.

(** ** A run on a small model *)

(** The collaborators of the run: no checkpoint on disk, no file to read;
    [cv2.resize] by the nearest pixel, an image of the size asked for being
    left as it is. *)
Definition toy_glob (_ : string) : list string := [].
Definition toy_isfile (_ : string) : bool := false.
Definition toy_read_config (_ : string) : result config := Raise KeyError.
Definition toy_model_from_name (_ : string) : option (nat -> nat -> nat -> Model image) :=
  None.
Definition toy_load_weights (m : Model image) (_ : string) : result (Model image) := Ok m.
Definition toy_imread (_ : string) : option image := None.
Definition toy_putText (_ : string) (_ : Z * Z) (_ _ : nat) (p : pixel) : pixel := p.
Definition toy_rectangle (a b : Z * Z) (col : color) (i j : nat) (p : pixel) : pixel :=
  if (fst a <=? Z.of_nat j) && (Z.of_nat j <=? fst b)
     && (snd a <=? Z.of_nat i) && (Z.of_nat i <=? snd b)
  then col else p.
Definition toy_colors : list color := [(10, 20, 30); (40, 50, 60)].

Definition toy_resize (interp : interpolation) (img : image) (w h : nat) : image :=
  if (List.length img =? h)%nat && forallb (fun row => (List.length row =? w)%nat) img
  then img
  else nearest_resize interp img w h.

(** The model takes the image as it is and scores each pixel from its first
    channel: class 1 where it exceeds 127, class 0 elsewhere. *)
Definition toy_image_array (img : image) (_ _ : nat) : image := img.

Definition toy_scores (p : pixel) : list Q :=
  if 127 <? fst (fst p) then [0%Q; 1%Q] else [1%Q; 0%Q].

Definition toy_predict (batch : list image) : list (list Q) :=
  map (fun img => List.concat (map toy_scores (List.concat img))) batch.

Definition toy_model (h w : nat) : Model image :=
  {| n_classes := 2; input_width := w; input_height := h;
     output_width := w; output_height := h; predict := toy_predict |}.

(** An annotation is the class map itself; its array has a channel for each
    class, 1 in the channel of the class of the pixel. *)
Definition toy_segmentation_array (ann : class_map) (n w h : nat)
  : result (list (list (list Z))) :=
  if (List.length ann =? h)%nat && forallb (fun row => (List.length row =? w)%nat) ann
  then Ok (map (map (fun c => map (fun k => b2z (c =? Z.of_nat k)) (seq 0 n))) ann)
  else Raise (ValueError "annotation of another size").

Definition toy_pairs_from_paths (_ _ : string) : result (list (input * class_map)) :=
  Ok [].

Definition toy_count_pairs (model : Model image) (pairs : list (input * class_map))
  : result counters :=
  count_pairs image toy_glob Posix.normpath toy_isfile toy_read_config
    toy_model_from_name toy_load_weights toy_imread toy_resize toy_putText
    toy_rectangle toy_colors toy_image_array class_map toy_segmentation_array
    model pairs.

Definition toy_evaluate (model : Model image) (pairs : list (input * class_map))
  : result scores :=
  evaluate_segmentation image toy_glob Posix.normpath toy_isfile toy_read_config
    toy_model_from_name toy_load_weights toy_imread toy_resize toy_putText
    toy_rectangle toy_colors toy_image_array class_map toy_segmentation_array
    toy_pairs_from_paths (Some model) (Some (map fst pairs)) (Some (map snd pairs))
    None None None.

(** Two images of two rows and two columns with their annotations. *)
Definition toy_pairs : list (input * class_map) :=
  [ (InpArray [[(200, 0, 0); (0, 0, 0)]; [(0, 0, 0); (0, 0, 0)]], [[1; 0]; [0; 1]]);
    (InpArray [[(0, 0, 0); (255, 9, 9)]; [(130, 0, 0); (0, 0, 0)]], [[0; 1]; [0; 0]]) ].

(** An image of 128 rows and 128 columns, dark everywhere, and all of class 0. *)
Definition dark_pair : input * class_map :=
  (InpArray (repeat (repeat (0, 0, 0) 128) 128), repeat (repeat 0 128) 128).

Lemma forallb_lengths {A : Type} (a : list (list A)) (w : nat) :
  forallb (fun row => (List.length row =? w)%nat) a = true ->
  Forall (fun row => List.length row = w) a.
Proof.
  intros H. rewrite forallb_forall in H. rewrite Forall_forall.
  intros row Hrow. apply Nat.eqb_eq, H, Hrow.
Qed.

Lemma toy_resize_contract : resize_contract toy_resize.
Proof.
  intros interp img w h. unfold toy_resize.
  destruct (List.length img =? h)%nat eqn:Eh; cbn [andb];
    [| apply nearest_resize_shape].
  destruct (forallb (fun row => (List.length row =? w)%nat) img) eqn:Ew;
    [| apply nearest_resize_shape].
  split; [apply Nat.eqb_eq, Eh | apply forallb_lengths, Ew].
Qed.

Lemma toy_ground_truth_contract : ground_truth_contract class_map toy_segmentation_array.
Proof.
  intros ann n w h gt. unfold toy_segmentation_array.
  destruct (List.length ann =? h)%nat eqn:Eh; cbn [andb]; [| discriminate].
  destruct (forallb (fun row => (List.length row =? w)%nat) ann) eqn:Ew;
    [| discriminate].
  intros H. apply Ok_inj in H. subst gt. split.
  - rewrite length_map. apply Nat.eqb_eq, Eh.
  - apply Forall_map. apply forallb_lengths in Ew.
    eapply Forall_impl; [| exact Ew]. intros row Hrow. rewrite length_map. exact Hrow.
Qed.

(** The run over [toy_pairs]: in the first image the model finds class 1 at
    the first pixel only, in the second at two pixels. *)
Lemma toy_count_pairs_value :
  toy_count_pairs (toy_model 2 2) toy_pairs
  = Ok {| tp := [4; 2]; fp := [1; 1]; fn := [1; 1]; n_pixels := [5; 3] |}.
Proof. vm_compute. reflexivity. Qed.

Lemma toy_evaluate_value :
  toy_evaluate (toy_model 2 2) toy_pairs
  = Ok {| frequency_weighted_IU := Some (5441849549738301 # 9007199254740992);
          mean_IU := Some (5254199565264515 # 9007199254740992);
          class_wise_IU := [Some (1501199875789915 # 2251799813685248);
                            Some (2251799813684685 # 4503599627370496)] |}.
Proof. vm_compute. reflexivity. Qed.


(** The run over [toy_pairs] and the run over the same pairs the other way
    round. *)
Lemma evaluate_segmentation_order_independent_witness :
  Permutation toy_pairs (rev toy_pairs)
  /\ exists st s,
       toy_count_pairs (toy_model 2 2) toy_pairs = Ok st /\
       toy_count_pairs (toy_model 2 2) (rev toy_pairs) = Ok st /\
       toy_evaluate (toy_model 2 2) toy_pairs = Ok s /\
       toy_evaluate (toy_model 2 2) (rev toy_pairs) = Ok s.
Proof.
  assert (P : Permutation toy_pairs (rev toy_pairs)) by apply Permutation_rev.
  split; [exact P |].
  destruct (evaluate_segmentation_order_independent image toy_glob Posix.normpath
              toy_isfile toy_read_config toy_model_from_name toy_load_weights toy_imread
              toy_resize toy_putText toy_rectangle toy_colors toy_image_array
              class_map toy_segmentation_array toy_pairs_from_paths
              (toy_model 2 2) toy_pairs (rev toy_pairs) P) as [Hst Hs].
  eexists. eexists.
  split; [exact toy_count_pairs_value |].
  split; [apply Hst; exact toy_count_pairs_value |].
  split; [exact toy_evaluate_value |].
  apply Hs. exact toy_evaluate_value.
Defined.

(** The counters of the run over [toy_pairs] at every turn, and its scores. *)
Lemma evaluate_segmentation_counters_balanced_witness :
  ground_truth_contract class_map toy_segmentation_array
  /\ Forall balanced
       (accumulation_states image toy_glob Posix.normpath toy_isfile toy_read_config
          toy_model_from_name toy_load_weights toy_imread toy_resize toy_putText
          toy_rectangle toy_colors toy_image_array class_map toy_segmentation_array
          (toy_model 2 2) toy_pairs (zero_counters 2))
  /\ exists s,
       toy_evaluate (toy_model 2 2) toy_pairs = Ok s /\
       Forall unit_score (class_wise_IU s).
Proof.
  split; [exact toy_ground_truth_contract |].
  destruct (evaluate_segmentation_counters_balanced image toy_glob Posix.normpath
              toy_isfile toy_read_config toy_model_from_name toy_load_weights toy_imread
              toy_resize toy_putText toy_rectangle toy_colors toy_image_array
              class_map toy_segmentation_array toy_pairs_from_paths
              toy_ground_truth_contract) as (Hbal & Hunit).
  split; [exact (Hbal (toy_model 2 2) toy_pairs) |].
  eexists. split; [exact toy_evaluate_value |].
  destruct (Hunit (Some (toy_model 2 2)) (Some (map fst toy_pairs))
              (Some (map snd toy_pairs)) None None None _ toy_evaluate_value) as (m & pairs & st & _ & _ & _ & H).
  exact H.
Defined.

(** The states the counters go through over [toy_pairs], as [tp], [fn] and
    [n_pixels]: those at the start of each turn over the pairs and at its
    end, and within it those before and after each class. *)
Lemma toy_accumulation_states :
  map (fun st => (tp st, fn st, n_pixels st))
      (accumulation_states image toy_glob Posix.normpath toy_isfile toy_read_config
         toy_model_from_name toy_load_weights toy_imread toy_resize toy_putText
         toy_rectangle toy_colors toy_image_array class_map toy_segmentation_array
         (toy_model 2 2) toy_pairs (zero_counters 2))
  = [([0; 0], [0; 0], [0; 0]);
     ([0; 0], [0; 0], [0; 0]); ([2; 0], [0; 0], [2; 0]); ([2; 1], [0; 1], [2; 2]);
     ([2; 1], [0; 1], [2; 2]);
     ([2; 1], [0; 1], [2; 2]); ([4; 1], [1; 1], [5; 2]); ([4; 2], [1; 1], [5; 3]);
     ([4; 2], [1; 1], [5; 3])].
Proof. vm_compute. reflexivity. Qed.

(** *** A class found at every one of its 16384 pixels *)

(** With [tp = 16384] and [fp = fn = 0] the sum [tp + fp + fn + 1e-12] rounds
    to [tp]: the score is 1.  The hardware's float64 gives the same. *)
Lemma iou_full_class : iou 16384 0 0 = Some 1%Q.
Proof. vm_compute. reflexivity. Qed.

Lemma iou_full_class_hardware :
  F64.of_prim (16384 / (16384 + 0 + 0 + 0x1.19799812dea11p-40))%float = iou 16384 0 0
  /\ F64.of_prim 0x1.19799812dea11p-40%float = eps
  /\ F64.of_prim (3 / (3 + 1 + 0 + 0x1.19799812dea11p-40))%float = iou 3 1 0.
Proof. repeat split; vm_compute; reflexivity. Qed.

(** A pair of 128 rows and 128 columns, every pixel of class 0 and predicted
    so: [evaluate_segmentation] returns the score 1 for class 0. *)
Lemma evaluate_segmentation_score_reaches_one :
  ground_truth_contract class_map toy_segmentation_array
  /\ toy_count_pairs (toy_model 128 128) [dark_pair]
     = Ok {| tp := [16384; 0]; fp := [0; 0]; fn := [0; 0]; n_pixels := [16384; 0] |}
  /\ exists s q,
       toy_evaluate (toy_model 128 128) [dark_pair] = Ok s /\
       In (Some q) (class_wise_IU s) /\
       (1 <= q)%Q.
Proof.
  split; [exact toy_ground_truth_contract |].
  split; [vm_compute; reflexivity |].
  exists {| frequency_weighted_IU := Some 1%Q; mean_IU := Some (1 # 2)%Q;
            class_wise_IU := [Some 1%Q; Some 0%Q] |}, 1%Q.
  split; [vm_compute; reflexivity |].
  split; [left; reflexivity | apply Qle_refl].
Qed.

(** *** A prediction with its four visualisations *)

Definition toy_image : image := [[(200, 0, 0); (0, 0, 0)]; [(0, 0, 0); (0, 0, 0)]].
Definition toy_names : list string := ["ink"%string; "paper"%string].
Definition toy_files : list string :=
  ["a.png"%string; "b.png"%string; "c.png"%string; "d.png"%string].

(** The class map of [toy_image], returned with all four visualisations
    made and written. *)
Lemma predict_segmentation_returns_class_map_witness :
  exists written,
    predict_segmentation image toy_glob Posix.normpath toy_isfile toy_read_config
      toy_model_from_name toy_load_weights toy_imread toy_resize toy_putText
      toy_rectangle toy_image_array (Some (toy_model 2 2)) (Some (InpArray toy_image))
      None None false (Some toy_names) false toy_colors None None true (Some toy_files)
    = Ok ([[1; 0]; [0; 0]], written)
    /\ raw_class_map image toy_glob Posix.normpath toy_isfile toy_read_config
         toy_model_from_name toy_load_weights toy_imread toy_image_array
         (Some (toy_model 2 2)) (Some (InpArray toy_image)) None
       = Ok [[1; 0]; [0; 0]].
Proof.
  destruct (predict_segmentation_returns_class_map image toy_glob Posix.normpath
              toy_isfile toy_read_config toy_model_from_name toy_load_weights toy_imread
              toy_resize toy_putText toy_rectangle toy_image_array
              (Some (toy_model 2 2)) (Some (InpArray toy_image)) None)
    as (Hraw & _ & Hrun).
  destruct (Hrun None false (Some toy_names) false toy_colors None None true
              (Some toy_files) (toy_model 2 2) toy_image [[1; 0]; [0; 0]]
              toy_resize_contract eq_refl eq_refl) as [written Hw].
  - repeat constructor.
  - vm_compute. reflexivity.
  - vm_compute. discriminate.
  - intros _. discriminate.
  - intros _ names H. injection H as <-. vm_compute. lia.
  - exists written. split; [exact Hw |]. eapply Hraw, Hw.
Defined.

(** *** A call that leaves [fail_safe] out *)

Definition bare_config (_ : string) : result config :=
  Ok {| model_class := "toy"; cfg_n_classes := 2;
        cfg_input_height := 2; cfg_input_width := 2 |}.

(** In a directory with no numbered entry, [find_latest_checkpoint("ckpt")]
    returns [None] and raises nothing; [model_from_checkpoint_path], which
    calls it so, raises the [AssertionError] of its own check. *)
Lemma find_latest_checkpoint_default_returns_none :
  numbered_files bare_dir Posix.normpath "ckpt" = []
  /\ fail_safe_default = true
  /\ find_latest_checkpoint bare_dir Posix.normpath "ckpt" fail_safe_default = Ok None
  /\ model_from_checkpoint_path image bare_dir Posix.normpath (fun _ => true)
       bare_config toy_model_from_name toy_load_weights "ckpt"
     = Raise (AssertionError "Checkpoint weights aren't found").
Proof. repeat split; vm_compute; reflexivity. Qed.

(** ** More on the colouring *)

Lemma zip_with_shape {A B C : Type} (f : A -> B -> C) (a : list (list A))
    (b : list (list B)) (h w : nat) :
  has_shape_2d a h w -> has_shape_2d b h w ->
  has_shape_2d (zip_with (zip_with f) a b) h w.
Proof.
  intros [Ha Wa] [Hb Wb]. split.
  - rewrite length_zip_with, Ha, Hb. apply Nat.min_id.
  - rewrite Forall_forall in *. intros row Hrow.
    rewrite zip_with_combine in Hrow. apply in_map_iff in Hrow.
    destruct Hrow as ([x y] & <- & Hxy). cbn [fst snd].
    rewrite length_zip_with, (Wa x), (Wb y);
      [apply Nat.min_id | eapply in_combine_r; eauto | eapply in_combine_l; eauto].
Qed.

Lemma zeros_shape (h w : nat) : has_shape (zeros h w) h w.
Proof.
  unfold zeros. split; [apply repeat_length |].
  rewrite Forall_forall. intros row Hrow. apply repeat_spec in Hrow. subst row.
  apply repeat_length.
Qed.

Lemma fold_add_class_shape (seg_arr : class_map) (colors : list color) (cs : list Z)
    (h w : nat) :
  has_shape_2d seg_arr h w ->
  forall seg_img, has_shape seg_img h w ->
    has_shape (fold_left (fun img c => add_class seg_arr c (color_at colors c) img)
                 cs seg_img) h w.
Proof.
  intros Hs. induction cs as [| c cs IH]; intros seg_img Hi; simpl; [exact Hi |].
  apply IH. unfold add_class. apply (zip_with_shape _ _ _ h w); assumption.
Qed.

(** [range(n)] in two parts. *)
Lemma range_split (k n : nat) :
  (k <= n)%nat ->
  Py.range (Z.of_nat n)
  = (Py.range (Z.of_nat k) ++ Z.of_nat k :: map Z.of_nat (seq (S k) (n - S k)))%list
    \/ k = n.
Proof.
  intros H. destruct (Nat.eq_dec k n) as [-> | Hne]; [right; reflexivity | left].
  unfold Py.range. rewrite !Nat2Z.id.
  replace n with (k + S (n - S k))%nat at 1 by lia.
  rewrite seq_app, map_app. cbn [seq map Nat.add]. reflexivity.
Qed.

(** Components that fit the integers of numpy, [int64]: [(seg_arr == c) *
    colors[c][k]] raises [OverflowError] for another. *)
Definition int64_color (col : color) : Prop :=
  let '(c0, c1, c2) := col in
  - 2 ^ 63 <= c0 < 2 ^ 63 /\ - 2 ^ 63 <= c1 < 2 ^ 63 /\ - 2 ^ 63 <= c2 < 2 ^ 63.

(** X2. With a palette of integers that fit [int64],
    [get_colored_segmentation_image] looks up [colors[c]] for every [c] of
    [range(n_classes)], whether or not a pixel has the class: with at least
    [n_classes] colours it returns an image of the height and width of the
    class map, and with fewer it raises [IndexError]. *)
Theorem get_colored_segmentation_image_palette :
  forall (seg_arr : class_map) (n_classes : Z) (colors : list color),
    Forall int64_color colors ->
    (n_classes <= Z.of_nat (List.length colors) ->
     exists seg_img,
       get_colored_segmentation_image seg_arr n_classes colors = Ok seg_img /\
       (rectangular seg_arr ->
        has_shape seg_img (height seg_arr) (width seg_arr)))
    /\ (Z.of_nat (List.length colors) < n_classes ->
        get_colored_segmentation_image seg_arr n_classes colors = Raise IndexError).
Proof.
  intros seg_arr n_classes colors _. split.
  - intros Hlen. eexists. split; [apply get_colored_segmentation_image_fold, Hlen |].
    intros Hrect. apply fold_add_class_shape; [| apply zeros_shape].
    split; [reflexivity | exact Hrect].
  - intros Hshort. unfold get_colored_segmentation_image.
    set (step := fun (seg_img : image) (c : Z) =>
                   col <- getitem colors c ;; Ok (add_class seg_arr c col seg_img)).
    replace n_classes with (Z.of_nat (Z.to_nat n_classes)) by lia.
    destruct (range_split (List.length colors) (Z.to_nat n_classes)) as [-> | E]; [lia | | lia].
    rewrite foldM_app.
    rewrite (foldM_total step
               (fun img c => add_class seg_arr c (color_at colors c) img)).
    + cbn [bind foldM]. unfold step at 1, getitem. rewrite Nat2Z.id.
      destruct (nth_error colors (List.length colors)) eqn:En; [| reflexivity].
      assert (Hn : nth_error colors (List.length colors) <> None) by congruence.
      apply nth_error_Some in Hn. lia.
    + intros s c Hc. apply in_range in Hc. unfold step.
      rewrite getitem_color by lia. reflexivity.
Qed.

(** A palette of two colours, for two classes and for three. *)
Lemma get_colored_segmentation_image_palette_witness :
  Forall int64_color [(10, 20, 30); (300, -1, 256)]
  /\ (exists seg_img,
        get_colored_segmentation_image [[0; 1]; [7; 0]] 2 [(10, 20, 30); (300, -1, 256)]
        = Ok seg_img /\ has_shape seg_img 2 2)
  /\ get_colored_segmentation_image [[0; 1]; [7; 0]] 3 [(10, 20, 30); (300, -1, 256)]
     = Raise IndexError.
Proof.
  assert (Hint : Forall int64_color [(10, 20, 30); (300, -1, 256)])
    by (repeat constructor; cbn; lia).
  split; [exact Hint |]. split.
  - destruct (get_colored_segmentation_image_palette [[0; 1]; [7; 0]] 2
                [(10, 20, 30); (300, -1, 256)] Hint) as [Hok _].
    destruct (Hok ltac:(cbn; lia)) as (seg_img & Hrun & Hshape).
    exists seg_img. split; [exact Hrun |]. apply Hshape. repeat constructor.
  - destruct (get_colored_segmentation_image_palette [[0; 1]; [7; 0]] 3
                [(10, 20, 30); (300, -1, 256)] Hint) as [_ Hshort].
    apply Hshort. cbn. lia.
Defined.

(** A palette component as the [uint8] it is cast to. *)
Definition wrap_uint8 (col : color) : pixel :=
  let '(c0, c1, c2) := col in (c0 mod 256, c1 mod 256, c2 mod 256).

Lemma add_pixel_wrap (c : Z) (col : color) :
  add_pixel c col black c = wrap_uint8 col.
Proof.
  destruct col as [[c0 c1] c2]. unfold add_pixel, black, wrap_uint8, astype_uint8.
  rewrite Z.eqb_refl. cbn [b2z]. rewrite !Z.mul_1_l. reflexivity.
Qed.

Lemma fold_add_pixel_wrap (colors : list color) (v : Z) (cs : list Z) :
  NoDup cs -> In v cs ->
  fold_left (fun p c => add_pixel c (color_at colors c) p v) cs black
  = wrap_uint8 (color_at colors v).
Proof.
  intros Hnd Hin. induction Hnd as [| c cs Hc Hnd IH]; [destruct Hin |].
  simpl. destruct (Z.eq_dec c v) as [-> | Hne].
  - rewrite add_pixel_wrap. apply fold_add_pixel_absent, Hc.
  - rewrite add_pixel_other by congruence. apply IH.
    destruct Hin as [E | Hin]; [contradiction | exact Hin].
Qed.

(** X3. The image [get_colored_segmentation_image] returns holds, at a
    pixel of a class [v] of [range(n_classes)], the components of
    [colors[v]] cast to [uint8], that is modulo 256, and at a pixel of any
    other class zeros. *)
Theorem get_colored_segmentation_image_pixels :
  forall (seg_arr : class_map) (n_classes : Z) (colors : list color)
         (seg_img : image) (i j : nat) (v : Z),
    rectangular seg_arr ->
    Forall int64_color colors ->
    get_colored_segmentation_image seg_arr n_classes colors = Ok seg_img ->
    at2 seg_arr i j = Some v ->
    at2 seg_img i j
    = Some (if (0 <=? v) && (v <? n_classes)
            then wrap_uint8 (color_at colors v) else black).
Proof.
  intros seg_arr n_classes colors seg_img i j v Hrect _ Hrun Hv.
  pose proof (get_colored_segmentation_image_ok _ _ _ _ Hrun) as Hlen.
  rewrite get_colored_segmentation_image_fold in Hrun by exact Hlen.
  apply Ok_inj in Hrun. subst seg_img.
  destruct (at2_bounds _ _ _ _ Hrect Hv) as [Hi Hj].
  rewrite (at2_fold_add_class _ _ _ _ _ _ Hv _ _ (at2_zeros _ _ _ _ Hi Hj)).
  f_equal.
  destruct (Z.leb_spec 0 v) as [H0 | H0];
    [destruct (Z.ltb_spec v n_classes) as [H1 | H1] |]; cbn [andb].
  - apply fold_add_pixel_wrap; [apply NoDup_range | apply in_range; lia].
  - apply fold_add_pixel_absent. rewrite in_range. lia.
  - apply fold_add_pixel_absent. rewrite in_range. lia.
Qed.

Lemma get_colored_segmentation_image_pixels_witness :
  at2 [[0; 1]; [7; 0]] 0 1 = Some 1
  /\ exists seg_img,
       get_colored_segmentation_image [[0; 1]; [7; 0]] 2 [(10, 20, 30); (300, -1, 256)]
       = Ok seg_img
       /\ at2 seg_img 0 1 = Some (44, 255, 0)
       /\ at2 seg_img 1 0 = Some (0, 0, 0).
Proof.
  split; [reflexivity |]. eexists. split; [reflexivity |].
  assert (Hrect : rectangular [[0; 1]; [7; 0]]) by (repeat constructor).
  assert (Hint : Forall int64_color [(10, 20, 30); (300, -1, 256)])
    by (repeat constructor; cbn; lia).
  split.
  - exact (get_colored_segmentation_image_pixels [[0; 1]; [7; 0]] 2
             [(10, 20, 30); (300, -1, 256)] _ 0 1 1 Hrect Hint eq_refl eq_refl).
  - exact (get_colored_segmentation_image_pixels [[0; 1]; [7; 0]] 2
             [(10, 20, 30); (300, -1, 256)] _ 1 0 7 Hrect Hint eq_refl eq_refl).
Defined.

(** ** The legend beside the image *)

(** [legend_img[0, 0, 0]] as a [uint8]: the value that fills what neither
    image covers. *)
Definition background (legend_img : image) : Z :=
  match legend_img with
  | (px :: _) :: _ => fst (fst px) mod 256
  | _ => 0
  end.

Definition blank_row (legend_img : image) (w : nat) : list pixel :=
  repeat (background legend_img, background legend_img, background legend_img) w.

Definition concat_row (seg_img legend_img : image) (i : nat) : list pixel :=
  nth i legend_img (blank_row legend_img (width legend_img)) ++
  nth i (map (map wrap_uint8) seg_img) (blank_row legend_img (width seg_img)).

Lemma width_shape {A : Type} (a : list (list A)) (h w : nat) :
  has_shape_2d a h w -> (0 < h)%nat -> width a = w.
Proof.
  intros [Hh Hw] H0. destruct a as [| row t]; [simpl in Hh; lia |].
  inversion Hw; subst. reflexivity.
Qed.

Lemma concat_legends_rows (seg_img legend_img : image) (lh lw : nat) :
  has_shape legend_img lh lw -> (0 < lh)%nat -> (0 < lw)%nat ->
  concat_legends seg_img legend_img
  = Ok (map (concat_row seg_img legend_img) (seq 0 (Nat.max (height seg_img) lh))).
Proof.
  intros [Hh Hw] H0h H0w. unfold concat_legends, getitem, height.
  destruct legend_img as [| row0 t]; [simpl in Hh; lia |].
  inversion Hw as [| ? ? Hrow0 _]; subst.
  destruct row0 as [| px0 r]; [simpl in H0w; lia |].
  cbn [Z.to_nat nth_error bind]. reflexivity.
Qed.

Lemma nth_error_map_seq {A : Type} (f : nat -> A) (n i : nat) :
  (i < n)%nat -> nth_error (map f (seq 0 n)) i = Some (f i).
Proof.
  intros H. rewrite nth_error_map, nth_error_seq.
  destruct (Nat.ltb_spec i n); [reflexivity | lia].
Qed.

Lemma row_or_blank_length {A : Type} (a : list (list A)) (h w i : nat) (x : A) :
  has_shape_2d a h w -> List.length (nth i a (repeat x w)) = w.
Proof.
  intros [Hh Hw]. destruct (nth_in_or_default i a (repeat x w)) as [Hin | ->].
  - rewrite Forall_forall in Hw. apply Hw, Hin.
  - apply repeat_length.
Qed.

Lemma nth_row {A : Type} (a : list (list A)) (i : nat) (d : list A) :
  (i < List.length a)%nat -> nth_error a i = Some (nth i a d).
Proof. intros H. apply nth_error_nth'. exact H. Qed.

(** The rows of [concat_legends]: the legend, then the image cast to
    [uint8]. *)
Lemma concat_legends_cast_layout :
  forall (seg_img legend_img : image) (h w lh lw : nat),
    has_shape seg_img h w -> (0 < h)%nat ->
    has_shape legend_img lh lw -> (0 < lh)%nat -> (0 < lw)%nat ->
    exists out_img,
      concat_legends seg_img legend_img = Ok out_img /\
      has_shape out_img (Nat.max h lh) (lw + w) /\
      (forall i j, (i < lh)%nat -> (j < lw)%nat ->
         at2 out_img i j = at2 legend_img i j) /\
      (forall i j, (i < h)%nat -> (j < w)%nat ->
         at2 out_img i (lw + j) = option_map wrap_uint8 (at2 seg_img i j)) /\
      (forall i j, (lh <= i < h)%nat -> (j < lw)%nat ->
         at2 out_img i j
         = Some (background legend_img, background legend_img, background legend_img)) /\
      (forall i j, (h <= i < lh)%nat -> (j < w)%nat ->
         at2 out_img i (lw + j)
         = Some (background legend_img, background legend_img, background legend_img)).
Proof.
  intros seg_img legend_img h w lh lw Hs H0 Hl Hlh Hlw.
  pose proof (width_shape _ _ _ Hs H0) as Ws.
  pose proof (width_shape _ _ _ Hl Hlh) as Wl.
  assert (Hs' : has_shape_2d (map (map wrap_uint8) seg_img) h w).
  { destruct Hs as [Hh Hw]. split; [rewrite length_map; exact Hh |].
    apply Forall_map. eapply Forall_impl; [| exact Hw].
    intros row Hrow. rewrite length_map. exact Hrow. }
  assert (Hleft : forall i, List.length (nth i legend_img (blank_row legend_img lw)) = lw)
    by (intros i; apply (row_or_blank_length legend_img lh lw i), Hl).
  assert (Hright : forall i,
             List.length (nth i (map (map wrap_uint8) seg_img) (blank_row legend_img w)) = w)
    by (intros i; apply (row_or_blank_length _ h w i), Hs').
  assert (Hat : forall i j, (i < Nat.max h lh)%nat ->
             at2 (map (concat_row seg_img legend_img) (seq 0 (Nat.max h lh))) i j
             = nth_error (concat_row seg_img legend_img i) j).
  { intros i j Hi. unfold at2. rewrite nth_error_map_seq by exact Hi. reflexivity. }
  eexists. split.
  { rewrite (concat_legends_rows seg_img legend_img lh lw Hl Hlh Hlw).
    destruct Hs as [Hh _]. unfold height. rewrite Hh. reflexivity. }
  destruct Hs as [Hh Hw], Hl as [Lh Lw].
  split; [| split; [| split; [| split]]].
  - split; [rewrite length_map, length_seq; reflexivity |].
    rewrite Forall_forall. intros row Hrow. apply in_map_iff in Hrow.
    destruct Hrow as (i & <- & _). unfold concat_row.
    rewrite length_app, Wl, Ws, Hleft, Hright. reflexivity.
  - intros i j Hi Hj. rewrite Hat by lia. unfold concat_row. rewrite Wl, Ws.
    rewrite nth_error_app1 by (rewrite Hleft; exact Hj).
    unfold at2. rewrite (nth_row legend_img i (blank_row legend_img lw)) by lia.
    reflexivity.
  - intros i j Hi Hj. rewrite Hat by lia. unfold concat_row. rewrite Wl, Ws.
    rewrite nth_error_app2 by (rewrite Hleft; lia).
    rewrite Hleft. replace (lw + j - lw)%nat with j by lia.
    unfold at2.
    rewrite (nth_indep _ (blank_row legend_img w) [])
      by (rewrite length_map; exact (eq_ind_r (fun n => (i < n)%nat) Hi Hh)).
    change [] with (map wrap_uint8 []). rewrite map_nth.
    rewrite (nth_row seg_img i []) by lia. rewrite nth_error_map. reflexivity.
  - intros i j Hi Hj. rewrite Hat by lia. unfold concat_row. rewrite Wl, Ws.
    rewrite nth_error_app1 by (rewrite Hleft; exact Hj).
    rewrite nth_overflow by lia. unfold blank_row. apply nth_error_repeat, Hj.
  - intros i j Hi Hj. rewrite Hat by lia. unfold concat_row. rewrite Wl, Ws.
    rewrite nth_error_app2 by (rewrite Hleft; lia).
    rewrite Hleft. replace (lw + j - lw)%nat with j by lia.
    rewrite nth_overflow
      by (rewrite length_map; exact (eq_ind_r (fun n => (n <= i)%nat) (proj1 Hi) Hh)).
    unfold blank_row. apply nth_error_repeat, Hj.
Qed.

(** Values a [uint8] array holds. *)
Definition uint8_image (img : image) : Prop := Forall (Forall uint8_pixel) img.

Lemma Ok_inj_option {A : Type} (a b : A) : Some a = Some b -> a = b.
Proof. intros H. injection H as H. exact H. Qed.

Lemma wrap_uint8_small (p : pixel) : uint8_pixel p -> wrap_uint8 p = p.
Proof.
  destruct p as [[p0 p1] p2]. unfold uint8_pixel, uint8, wrap_uint8.
  intros (H0 & H1 & H2). rewrite !Z.mod_small by lia. reflexivity.
Qed.

Lemma at2_uint8 (img : image) (i j : nat) (p : pixel) :
  uint8_image img -> at2 img i j = Some p -> uint8_pixel p.
Proof.
  intros Himg H. unfold at2 in H.
  destruct (nth_error img i) as [row |] eqn:E; [| discriminate].
  unfold uint8_image in Himg. rewrite Forall_forall in Himg.
  specialize (Himg row (nth_error_In _ _ E)). rewrite Forall_forall in Himg.
  apply Himg. eapply nth_error_In; exact H.
Qed.

(** X4. For [uint8] images, as the legend of [get_legends] and the images
    of [visualize_segmentation] are, [concat_legends] puts the legend on
    the left and the image on its right, both from the top and both as
    they are: the result is as high as the higher of the two and as wide as
    both together, and what lies under the shorter one is filled with
    [legend_img[0, 0, 0]] in the three channels. *)
Theorem concat_legends_layout :
  forall (seg_img legend_img : image) (h w lh lw : nat),
    has_shape seg_img h w -> (0 < h)%nat -> uint8_image seg_img ->
    has_shape legend_img lh lw -> (0 < lh)%nat -> (0 < lw)%nat ->
    uint8_image legend_img ->
    exists out_img fill,
      concat_legends seg_img legend_img = Ok out_img /\
      option_map (fun px : pixel => fst (fst px)) (at2 legend_img 0 0) = Some fill /\
      has_shape out_img (Nat.max h lh) (lw + w) /\
      (forall i j, (i < lh)%nat -> (j < lw)%nat ->
         at2 out_img i j = at2 legend_img i j) /\
      (forall i j, (i < h)%nat -> (j < w)%nat ->
         at2 out_img i (lw + j) = at2 seg_img i j) /\
      (forall i j, (lh <= i < h)%nat -> (j < lw)%nat ->
         at2 out_img i j = Some (fill, fill, fill)) /\
      (forall i j, (h <= i < lh)%nat -> (j < w)%nat ->
         at2 out_img i (lw + j) = Some (fill, fill, fill)).
Proof.
  intros seg_img legend_img h w lh lw Hs H0 Us Hl Hlh Hlw Ul.
  destruct (concat_legends_cast_layout seg_img legend_img h w lh lw Hs H0 Hl Hlh Hlw)
    as (out_img & Hout & Hshape & Hleg & Hseg & Hunder & Hbeside).
  exists out_img, (background legend_img).
  split; [exact Hout |]. split; [| split; [exact Hshape |]].
  - destruct Hl as [Lh Lw].
    destruct legend_img as [| row0 rest]; [simpl in Lh; lia |].
    inversion Lw as [| ? ? Hrow0 _]; subst.
    destruct row0 as [| px0 row0]; [simpl in Hlw; lia |].
    inversion Ul as [| ? ? Urow0 _]; subst. inversion Urow0 as [| ? ? Upx0 _]; subst.
    cbn [at2 nth_error option_map background]. f_equal.
    destruct px0 as [[p0 p1] p2]. destruct Upx0 as (Hp0 & _).
    cbn [fst]. unfold uint8 in Hp0. rewrite Z.mod_small by lia. reflexivity.
  - split; [exact Hleg |]. split; [| split; [exact Hunder | exact Hbeside]].
    intros i j Hi Hj. rewrite (Hseg i j Hi Hj).
    destruct (at2 seg_img i j) as [p |] eqn:E; [| reflexivity].
    cbn [option_map]. f_equal. apply wrap_uint8_small.
    eapply at2_uint8; [exact Us | exact E].
Qed.

Lemma concat_legends_layout_witness :
  exists out_img,
    concat_legends [[(200, 1, 2)]] [[(255, 254, 253)]; [(9, 9, 9)]] = Ok out_img /\
    has_shape out_img 2 2 /\
    at2 out_img 0 0 = Some (255, 254, 253) /\
    at2 out_img 0 1 = Some (200, 1, 2) /\
    at2 out_img 1 1 = Some (255, 255, 255).
Proof.
  destruct (concat_legends_layout [[(200, 1, 2)]] [[(255, 254, 253)]; [(9, 9, 9)]]
              1 1 2 1) as (out & fill & Hout & Hfill0 & Hshape & Hleg & Hseg & _ & Hfill).
  - repeat constructor.
  - lia.
  - repeat constructor; unfold uint8; lia.
  - repeat constructor.
  - lia.
  - lia.
  - repeat constructor; unfold uint8; lia.
  - exists out. split; [exact Hout |]. split; [exact Hshape |].
    split; [exact (Hleg 0%nat 0%nat ltac:(lia) ltac:(lia)) |].
    split; [exact (Hseg 0%nat 0%nat ltac:(lia) ltac:(lia)) |].
    cbn [at2 nth_error option_map fst] in Hfill0. apply Ok_inj_option in Hfill0.
    rewrite <- Hfill0 in Hfill.
    exact (Hfill 1%nat 0%nat ltac:(lia) ltac:(lia)).
Defined.

Lemma concat_legends_shape (seg_img legend_img out_img : image) (h w lh lw : nat) :
  has_shape seg_img h w -> (0 < h)%nat ->
  has_shape legend_img lh lw -> (0 < lh)%nat -> (0 < lw)%nat ->
  concat_legends seg_img legend_img = Ok out_img ->
  has_shape out_img (Nat.max h lh) (lw + w).
Proof.
  intros Hs H0 Hl Hlh Hlw H.
  rewrite (concat_legends_rows seg_img legend_img lh lw Hl Hlh Hlw) in H.
  apply Ok_inj in H. subst out_img.
  pose proof (width_shape _ _ _ Hs H0) as Ws.
  pose proof (width_shape _ _ _ Hl Hlh) as Wl.
  assert (Hs' : has_shape_2d (map (map wrap_uint8) seg_img) h w).
  { destruct Hs as [Hh Hw]. split; [rewrite length_map; exact Hh |].
    apply Forall_map. eapply Forall_impl; [| exact Hw].
    intros row Hrow. rewrite length_map. exact Hrow. }
  destruct Hs as [Hh _]. unfold height. rewrite Hh.
  split; [rewrite length_map, length_seq; reflexivity |].
  rewrite Forall_forall. intros row Hrow. apply in_map_iff in Hrow.
  destruct Hrow as (i & <- & _). unfold concat_row.
  rewrite length_app, Wl, Ws. unfold blank_row.
  rewrite (row_or_blank_length legend_img lh lw i) by exact Hl.
  rewrite (row_or_blank_length _ h w i) by exact Hs'. reflexivity.
Qed.

(** ** The size of a visualisation *)

Section VisualisationSize.

Variable cv2_resize : interpolation -> image -> nat -> nat -> image.
Variable cv2_putText : string -> Z * Z -> nat -> nat -> pixel -> pixel.
Variable cv2_rectangle : Z * Z -> Z * Z -> color -> nat -> nat -> pixel -> pixel.

Hypothesis resize_size : resize_contract cv2_resize.

Lemma overlay_seg_image_shape (inp_img seg_img fused_img : image) (h w : nat) :
  has_shape inp_img h w ->
  overlay_seg_image cv2_resize inp_img seg_img = Ok fused_img ->
  has_shape fused_img h w.
Proof.
  intros Hi H.
  rewrite (overlay_seg_image_zip cv2_resize) in H
    by (try (eapply has_shape_rectangular; exact Hi); apply resize_size).
  apply Ok_inj in H. subst fused_img.
  apply (zip_with_shape _ _ _ h w); [exact Hi |].
  destruct (resize_size INTER_NEAREST seg_img (width inp_img) (height inp_img))
    as [Rh Rw].
  pose proof (width_shape inp_img h w Hi) as Wi.
  destruct Hi as [Hh Hw].
  pose proof (eq_trans Rh Hh) as Rh'. split; [exact Rh' |].
  destruct (Nat.eq_dec h 0) as [E | E].
  - rewrite E in Rh'. apply length_zero_iff_nil in Rh'. rewrite Rh'. constructor.
  - rewrite <- Wi by lia. exact Rw.
Qed.

End VisualisationSize.

(** The height and width [visualize_segmentation] works at: those asked
    for, or else those of the source image. *)
Definition visual_size (inp_img : image) (prediction_width prediction_height : option nat)
  : nat * nat :=
  match prediction_height, prediction_width with
  | Some prediction_height, Some prediction_width =>
      (prediction_height, prediction_width)
  | _, _ => (height inp_img, width inp_img)
  end.

(** The height of the legend of [get_legends]. *)
Definition legend_rows (class_names : option (list string)) : nat :=
  match class_names with
  | Some class_names => List.length class_names * 25 + 25
  | None => 0
  end.

(** X5. Given a source image, [visualize_segmentation] returns an image of
    the height and width of the source, or of [prediction_height] and
    [prediction_width] when both are given, whatever the size of the class
    map and with or without the overlay; with the legend it is 125 columns
    wider and at least [25 * len(class_names) + 25] rows high
    ([cv2.resize] returning an image of the size it is asked for). *)
Theorem visualize_segmentation_size :
  forall (cv2_resize : interpolation -> image -> nat -> nat -> image)
         (cv2_putText : string -> Z * Z -> nat -> nat -> pixel -> pixel)
         (cv2_rectangle : Z * Z -> Z * Z -> color -> nat -> nat -> pixel -> pixel)
         (seg_arr : class_map) (inp_img : image) (n_classes : option Z)
         (colors : list color) (class_names : option (list string))
         (overlay_img show_legends : bool)
         (prediction_width prediction_height : option nat) (seg_img : image),
    resize_contract cv2_resize ->
    rectangular inp_img ->
    (0 < fst (visual_size inp_img prediction_width prediction_height))%nat ->
    visualize_segmentation cv2_resize cv2_putText cv2_rectangle seg_arr (Some inp_img)
      n_classes colors class_names overlay_img show_legends
      prediction_width prediction_height = Ok seg_img ->
    let '(h, w) := visual_size inp_img prediction_width prediction_height in
    if show_legends
    then has_shape seg_img (Nat.max h (legend_rows class_names)) (125 + w)
    else has_shape seg_img h w.
Proof.
  intros cv2_resize cv2_putText cv2_rectangle seg_arr inp_img n_classes colors
         class_names overlay_img show_legends prediction_width prediction_height
         seg_img Hresize Hrect Hpos H.
  unfold visualize_segmentation in H.
  inv_bind_as H n Hn. inv_bind_as H colored Hcolored.
  set (seg1 := cv2_resize INTER_NEAREST colored (width inp_img) (height inp_img)) in H.
  assert (Hfinish : forall (seg inp' : image) (h w : nat),
             has_shape seg h w -> has_shape inp' h w -> (0 < h)%nat ->
             (seg_img0 <- (if overlay_img
                           then overlay_seg_image cv2_resize inp' seg
                           else Ok seg) ;;
              seg_img0 <- (if show_legends then
                             match class_names with
                             | None => Raise (AssertionError "")
                             | Some class_names =>
                                 concat_legends seg_img0
                                   (get_legends cv2_putText cv2_rectangle class_names colors)
                             end
                           else Ok seg_img0) ;;
              Ok seg_img0) = Ok seg_img ->
             if show_legends
             then has_shape seg_img (Nat.max h (legend_rows class_names)) (125 + w)
             else has_shape seg_img h w).
  { intros seg inp' h w Hseg Hinp Hh Hrun.
    inv_bind_as Hrun s1 Hs1.
    assert (Hshape1 : has_shape s1 h w).
    { destruct overlay_img.
      - eapply overlay_seg_image_shape; eauto.
      - apply Ok_inj in Hs1. subst s1. exact Hseg. }
    inv_bind_as Hrun s2 Hs2. apply Ok_inj in Hrun. subst s2.
    destruct show_legends.
    - destruct class_names as [names |]; [| discriminate]. cbn [legend_rows].
      exact (concat_legends_shape s1 _ seg_img h w (List.length names * 25 + 25) 125
               Hshape1 Hh (get_legends_shape cv2_putText cv2_rectangle names colors)
               ltac:(lia) ltac:(lia) Hs2).
    - apply Ok_inj in Hs2. subst seg_img. exact Hshape1. }
  assert (Hinp : has_shape inp_img (height inp_img) (width inp_img))
    by (split; [reflexivity | exact Hrect]).
  unfold visual_size in *.
  destruct prediction_height as [ph |]; [destruct prediction_width as [pw |] |];
    cbn [fst] in Hpos.
  - apply (Hfinish _ _ ph pw) in H; [exact H | apply Hresize | apply Hresize | exact Hpos].
  - apply (Hfinish _ _ (height inp_img) (width inp_img)) in H;
      [exact H | apply Hresize | exact Hinp | exact Hpos].
  - apply (Hfinish _ _ (height inp_img) (width inp_img)) in H;
      [exact H | apply Hresize | exact Hinp | exact Hpos].
Qed.

Lemma visualize_segmentation_size_witness :
  exists seg_img,
    visualize_segmentation nearest_resize (fun _ _ _ _ p => p) (fun _ _ _ _ _ p => p)
      [[0; 1; 1]] (Some [[(9, 9, 9); (8, 8, 8)]; [(7, 7, 7); (6, 6, 6)]]) (Some 2)
      [(10, 20, 30); (40, 50, 60)] (Some ["a"%string; "b"%string; "c"%string])
      true true None None = Ok seg_img
    /\ has_shape seg_img 100 127.
Proof.
  eexists. split; [vm_compute; reflexivity |].
  refine (visualize_segmentation_size nearest_resize (fun _ _ _ _ p => p)
            (fun _ _ _ _ _ p => p) [[0; 1; 1]]
            [[(9, 9, 9); (8, 8, 8)]; [(7, 7, 7); (6, 6, 6)]] (Some 2)
            [(10, 20, 30); (40, 50, 60)] (Some ["a"%string; "b"%string; "c"%string])
            true true None None _ _ _ _ _).
  - intros interp img w h. apply nearest_resize_shape.
  - repeat constructor.
  - cbn. lia.
  - vm_compute. reflexivity.
Defined.

(** ** The model of a checkpoint *)

Section CheckpointModel.

Local Open Scope string_scope.

Variable tensor : Type.
Variable glob : string -> list string.
Variable normpath : string -> string.
Variable isfile : string -> bool.
Variable read_config : string -> result config.
Variable model_from_name : string -> option (nat -> nat -> nat -> Model tensor).
Variable load_weights : Model tensor -> string -> result (Model tensor).

(** X1. [model_from_checkpoint_path] raises [AssertionError] when
    [<checkpoints_path>_config.json] is no file, whatever weights there
    are, and, the configuration read, when [str.isdigit] accepts the epoch
    of no entry.
    The model it returns is the one [model_from_name] builds for the
    [model_class], [n_classes], [input_height] and [input_width] of the
    configuration, with the weights loaded from the entry of the largest
    epoch. *)
Theorem model_from_checkpoint_path_latest :
  forall (checkpoints_path : string),
    (isfile (checkpoints_path ++ "_config.json") = false ->
     model_from_checkpoint_path tensor glob normpath isfile read_config
       model_from_name load_weights checkpoints_path
     = Raise (AssertionError "Checkpoint config isn't found"))
    /\ (forall cfg,
          isfile (checkpoints_path ++ "_config.json") = true ->
          read_config (checkpoints_path ++ "_config.json") = Ok cfg ->
          numbered_files glob normpath checkpoints_path = [] ->
          model_from_checkpoint_path tensor glob normpath isfile read_config
            model_from_name load_weights checkpoints_path
          = Raise (AssertionError "Checkpoint weights aren't found"))
    /\ (forall m,
          model_from_checkpoint_path tensor glob normpath isfile read_config
            model_from_name load_weights checkpoints_path = Ok m ->
          exists cfg f n constructor,
            isfile (checkpoints_path ++ "_config.json") = true /\
            read_config (checkpoints_path ++ "_config.json") = Ok cfg /\
            In f (numbered_files glob normpath checkpoints_path) /\
            Py.int (get_epoch_number_from_path normpath checkpoints_path f) = Ok n /\
            (forall g, In g (numbered_files glob normpath checkpoints_path) ->
               exists k,
                 Py.int (get_epoch_number_from_path normpath checkpoints_path g) = Ok k
                 /\ (k <= n)%Z) /\
            model_from_name (model_class cfg) = Some constructor /\
            load_weights
              (constructor (cfg_n_classes cfg) (cfg_input_height cfg)
                           (cfg_input_width cfg)) f
            = Ok m).
Proof.
  intros checkpoints_path. unfold model_from_checkpoint_path, assert.
  split; [| split].
  - intros ->. reflexivity.
  - intros cfg -> -> Hnone. cbn [bind].
    rewrite (find_latest_checkpoint_none glob normpath checkpoints_path
               fail_safe_default Hnone).
    reflexivity.
  - intros m H.
    destruct (isfile (checkpoints_path ++ "_config.json")); [| discriminate].
    cbn [bind] in H. inv_bind_as H cfg Hcfg. inv_bind_as H latest Hlatest.
    destruct latest as [f |]; [| discriminate].
    destruct (find_latest_checkpoint_inv glob normpath checkpoints_path
                fail_safe_default f Hlatest) as (Hin & n & Hn & Hmax).
    destruct (model_from_name (model_class cfg)) as [constructor |] eqn:Ector;
      [| discriminate].
    exists cfg, f, n, constructor. repeat split; auto.
Qed.

End CheckpointModel.

(** ** The classes of a prediction *)

Section PredictedLabels.

Variable tensor : Type.
Variable get_image_array : image -> nat -> nat -> tensor.

Lemma at2_inside {A : Type} (a : list (list A)) (h w i j : nat) (v : A) :
  has_shape_2d a h w -> at2 a i j = Some v -> (i < h)%nat /\ (j < w)%nat.
Proof.
  intros [Hh Hw] H. unfold at2 in H.
  destruct (nth_error a i) as [row |] eqn:E; [| discriminate]. split.
  - rewrite <- Hh. apply nth_error_Some. congruence.
  - rewrite Forall_forall in Hw. rewrite <- (Hw row (nth_error_In _ _ E)).
    apply nth_error_Some. congruence.
Qed.

(** The classes of the map are indices of [range(n_classes)]: at each
    pixel the first index at which the scores are largest. *)
Lemma predicted_class_map_argmax (m : Model tensor) (a : image) (pr : class_map) :
  predicted_class_map tensor get_image_array m a = Ok pr ->
  exists flat,
    getitem (predict m [get_image_array a (input_width m) (input_height m)]) 0
    = Ok flat /\
    forall i j c,
      at2 pr i j = Some c ->
      let scores := cell (output_width m) (n_classes m) flat i j in
      (0 <= c < Z.of_nat (n_classes m))%Z /\
      exists vc,
        nth_error scores (Z.to_nat c) = Some vc /\
        (forall k x, nth_error scores k = Some x -> (x <= vc)%Q) /\
        (forall k x, (k < Z.to_nat c)%nat -> nth_error scores k = Some x ->
                     (x < vc)%Q).
Proof.
  intros H.
  pose proof (predicted_class_map_shape tensor get_image_array m a pr H) as Hshape.
  unfold predicted_class_map in H.
  inv_bind_as H flat Hflat. inv_bind_as H cells Hcells.
  exists flat. split; [exact Hflat |]. intros i j c Hc. cbv zeta.
  destruct (at2_inside pr _ _ i j c Hshape Hc) as [Hi Hj].
  destruct (reshape3_shape _ _ _ _ _ Hcells) as [Hh Hw].
  destruct (argmax_axis2_ok _ _ _ _ H Hw) as (_ & _ & Hall).
  destruct (Hall i j _ (at2_reshape3 _ _ _ _ _ i j Hcells Hi Hj)) as (k & Hk & Hat).
  rewrite Hc in Hat. apply (f_equal (fun o => match o with Some x => x | None => c end)) in Hat.
  subst k.
  destruct (argmax_spec _ _ Hk) as (vc & Hvc & H0 & Hle & Hlt).
  split.
  - split; [exact H0 |].
    assert (Hlen : (Z.to_nat c < List.length (cell (output_width m) (n_classes m) flat i j))%nat)
      by (apply nth_error_Some; congruence).
    unfold cell in Hlen. rewrite length_firstn in Hlen. lia.
  - exists vc. split; [exact Hvc |]. split; [exact Hle | exact Hlt].
Qed.

End PredictedLabels.

Section PredictionLabels.

Variable tensor : Type.
Variable glob : string -> list string.
Variable normpath : string -> string.
Variable isfile : string -> bool.
Variable read_config : string -> result config.
Variable model_from_name : string -> option (nat -> nat -> nat -> Model tensor).
Variable load_weights : Model tensor -> string -> result (Model tensor).
Variable imread : string -> option image.
Variable cv2_resize : interpolation -> image -> nat -> nat -> image.
Variable cv2_putText : string -> Z * Z -> nat -> nat -> pixel -> pixel.
Variable cv2_rectangle : Z * Z -> Z * Z -> color -> nat -> nat -> pixel -> pixel.
Variable get_image_array : image -> nat -> nat -> tensor.

(** X6. Every class of the map [predict_segmentation] returns is an index
    of [range(n_classes)] of the model it worked with: at each pixel the
    first index at which the scores of the model are largest. *)
Theorem predict_segmentation_labels :
  forall (model : option (Model tensor)) (inp : option input)
         (out_fname checkpoints_path : option string) (overlay_img : bool)
         (class_names : option (list string)) (show_legends : bool)
         (colors : list color) (prediction_width prediction_height : option nat)
         (all_visualisations : bool) (out_fnames : option (list string))
         (pr : class_map) (written : list (string * image)),
    predict_segmentation tensor glob normpath isfile read_config model_from_name
      load_weights imread cv2_resize cv2_putText cv2_rectangle get_image_array
      model inp out_fname checkpoints_path overlay_img class_names show_legends
      colors prediction_width prediction_height all_visualisations out_fnames
    = Ok (pr, written) ->
    exists m a flat,
      loaded_model tensor glob normpath isfile read_config model_from_name
        load_weights model checkpoints_path = Ok (Some m) /\
      loaded_input imread inp = Ok a /\
      getitem (predict m [get_image_array a (input_width m) (input_height m)]) 0
      = Ok flat /\
      forall i j c,
        at2 pr i j = Some c ->
        let scores := cell (output_width m) (n_classes m) flat i j in
        (0 <= c < Z.of_nat (n_classes m))%Z /\
        exists vc,
          nth_error scores (Z.to_nat c) = Some vc /\
          (forall k x, nth_error scores k = Some x -> (x <= vc)%Q) /\
          (forall k x, (k < Z.to_nat c)%nat -> nth_error scores k = Some x ->
                       (x < vc)%Q).
Proof.
  intros model inp out_fname checkpoints_path overlay_img class_names show_legends
         colors prediction_width prediction_height all_visualisations out_fnames
         pr written H.
  apply predict_segmentation_raw in H. unfold raw_class_map in H.
  inv_bind_as H om Hm. inv_bind_as H a Ha.
  destruct om as [m |]; [| discriminate].
  destruct (predicted_class_map_argmax tensor get_image_array m a pr H)
    as (flat & Hflat & Hall).
  exists m, a, flat. repeat split; try assumption; apply (Hall i j c H0).
Qed.

End PredictionLabels.

(** A model of three classes that scores a pixel by its three channels. *)
Definition channel_scores (p : pixel) : list Q :=
  let '(p0, p1, p2) := p in [inject_Z p0; inject_Z p1; inject_Z p2].

Definition channel_model (h w : nat) : Model image :=
  {| n_classes := 3; input_width := w; input_height := h;
     output_width := w; output_height := h;
     predict := map (fun img => List.concat (map channel_scores (List.concat img))) |}.

(** A prediction for a pixel with the largest score at the last channel and
    for a pixel with the same score at all three. *)
Lemma predict_segmentation_labels_witness :
  exists written,
    predict_segmentation image toy_glob Posix.normpath toy_isfile toy_read_config
      toy_model_from_name toy_load_weights toy_imread toy_resize toy_putText
      toy_rectangle (fun img _ _ => img) (Some (channel_model 1 2))
      (Some (InpArray [[(1, 5, 9); (4, 4, 4)]])) None None false None false
      [(10, 20, 30); (40, 50, 60); (70, 80, 90)] None None false None
    = Ok ([[2; 0]], written)
    /\ forall i j c,
         at2 [[2; 0]] i j = Some c ->
         (0 <= c < 3)%Z /\
         exists vc,
           nth_error (cell 2 3 [1; 5; 9; 4; 4; 4]%Q i j) (Z.to_nat c) = Some vc /\
           (forall k x, nth_error (cell 2 3 [1; 5; 9; 4; 4; 4]%Q i j) k = Some x ->
                        (x <= vc)%Q) /\
           (forall k x, (k < Z.to_nat c)%nat ->
                        nth_error (cell 2 3 [1; 5; 9; 4; 4; 4]%Q i j) k = Some x ->
                        (x < vc)%Q).
Proof.
  eexists. split; [vm_compute; reflexivity |].
  destruct (predict_segmentation_labels image toy_glob Posix.normpath toy_isfile
              toy_read_config toy_model_from_name toy_load_weights toy_imread
              toy_resize toy_putText toy_rectangle (fun img _ _ => img)
              (Some (channel_model 1 2)) (Some (InpArray [[(1, 5, 9); (4, 4, 4)]]))
              None None false None false [(10, 20, 30); (40, 50, 60); (70, 80, 90)]
              None None false None [[2; 0]] _ eq_refl)
    as (m & a & flat & Hm & Ha & Hflat & Hall).
  apply Ok_inj in Hm. injection Hm as <-. apply Ok_inj in Ha. subst a.
  apply Ok_inj in Hflat. subst flat. exact Hall.
Defined.

(** ** What makes a prediction fail *)

Section PredictionFailures.

Variable tensor : Type.
Variable glob : string -> list string.
Variable normpath : string -> string.
Variable isfile : string -> bool.
Variable read_config : string -> result config.
Variable model_from_name : string -> option (nat -> nat -> nat -> Model tensor).
Variable load_weights : Model tensor -> string -> result (Model tensor).
Variable imread : string -> option image.
Variable cv2_resize : interpolation -> image -> nat -> nat -> image.
Variable cv2_putText : string -> Z * Z -> nat -> nat -> pixel -> pixel.
Variable cv2_rectangle : Z * Z -> Z * Z -> color -> nat -> nat -> pixel -> pixel.
Variable get_image_array : image -> nat -> nat -> tensor.

Local Abbreviation predict_with :=
  (predict_segmentation tensor glob normpath isfile read_config model_from_name
     load_weights imread cv2_resize cv2_putText cv2_rectangle get_image_array).


End PredictionFailures.

(** ** More on the evaluation *)

(** *** Sums of equal terms *)

Module SumFacts.

Import F64.

Lemma fold_add_constant (x : f64) (l : list f64) :
  add x x = x -> Forall (eq x) l -> fold_left add l x = x.
Proof.
  intros Hx. induction 1 as [| y l <- _ IH]; cbn [fold_left]; [reflexivity |].
  rewrite Hx. exact IH.
Qed.

Lemma Forall_eq_repeat {A : Type} (x : A) (l : list A) :
  Forall (eq x) l -> l = repeat x (List.length l).
Proof. induction 1 as [| y l <- _ IH]; simpl; [| rewrite <- IH]; reflexivity. Qed.

Lemma Forall_parts {A : Type} (P : A -> Prop) (n : nat) (l : list A) :
  Forall P l -> Forall P (firstn n l) /\ Forall P (skipn n l).
Proof.
  intros H. rewrite <- (firstn_skipn n l) in H. apply Forall_app in H. exact H.
Qed.

Lemma add_blocks_constant (x : f64) (k : nat) :
  add x x = x ->
  forall r a, Forall (eq x) r -> List.length r = 8%nat ->
    Forall (eq x) a -> (8 * k <= List.length a)%nat ->
    Forall (eq x) (fst (add_blocks k r a)) /\
    List.length (fst (add_blocks k r a)) = 8%nat /\
    Forall (eq x) (snd (add_blocks k r a)).
Proof.
  intros Hx. induction k as [| k IH]; intros r a Hr Lr Ha La; cbn [add_blocks].
  - auto.
  - apply IH.
    + destruct (Forall_parts _ 8 a Ha) as [Hf _].
      rewrite Forall_forall in *. intros y Hy.
      rewrite zip_with_combine in Hy. apply in_map_iff in Hy.
      destruct Hy as ([u v] & <- & Huv). cbn [fst snd].
      rewrite <- (Hr u) by (eapply in_combine_l; eauto).
      rewrite <- (Hf v) by (eapply in_combine_r; eauto).
      symmetry. exact Hx.
    + rewrite length_zip_with, length_firstn. lia.
    + apply (Forall_parts _ 8 a Ha).
    + rewrite length_skipn. lia.
Qed.

(** The sum of terms that are all [x], where [x + x = x] and [0 + x = x]:
    zeros, or values that are no number. *)
Lemma pairwise_sum_constant (x : f64) :
  add x x = x -> add (Some 0%Q) x = x ->
  forall fuel l,
    (List.length l <= fuel)%nat -> l <> [] -> Forall (eq x) l ->
    pairwise_sum fuel l = x.
Proof.
  intros Hx H0.
  assert (Hshort : forall l, l <> [] -> Forall (eq x) l ->
             fold_left add l (Some 0%Q) = x).
  { intros l Hne Hl. destruct Hl as [| y l <- Hl]; [congruence |].
    cbn [fold_left]. rewrite H0. apply fold_add_constant; assumption. }
  assert (Hblocks : forall l, (8 <= List.length l)%nat -> Forall (eq x) l ->
             (let '(r, rest) :=
                add_blocks (List.length l / 8 - 1) (firstn 8 l) (skipn 8 l) in
              fold_left add rest (sum8 r)) = x).
  { intros l Hlen Hl.
    destruct (add_blocks_constant x (List.length l / 8 - 1) Hx (firstn 8 l) (skipn 8 l))
      as (Hr & Lr & Hrest).
    - apply (Forall_parts _ 8 l Hl).
    - rewrite length_firstn. lia.
    - apply (Forall_parts _ 8 l Hl).
    - rewrite length_skipn.
      pose proof (Nat.div_mod_eq (List.length l) 8). lia.
    - destruct (add_blocks (List.length l / 8 - 1) (firstn 8 l) (skipn 8 l))
        as [r rest]. cbn [fst snd] in *.
      rewrite (Forall_eq_repeat x r Hr), Lr. cbn [repeat sum8].
      rewrite !Hx. apply fold_add_constant; assumption. }
  induction fuel as [| fuel IH]; intros l Hlen Hne Hl.
  - destruct l; [congruence | simpl in Hlen; lia].
  - cbn [pairwise_sum].
    destruct (Nat.ltb_spec (List.length l) 8) as [Hs | Hs]; [apply Hshort; assumption |].
    destruct (Nat.leb_spec (List.length l) 128) as [Hm | Hm];
      [apply Hblocks; assumption |].
    set (n2 := (List.length l / 2 - (List.length l / 2) mod 8)%nat).
    assert (Hn2 : (0 < n2 < List.length l)%nat).
    { unfold n2.
      pose proof (Nat.mod_upper_bound (List.length l / 2) 8 ltac:(lia)).
      pose proof (Nat.div_mod_eq (List.length l) 2).
      pose proof (Nat.mod_upper_bound (List.length l) 2 ltac:(lia)).
      lia. }
    rewrite (IH (firstn n2 l)), (IH (skipn n2 l)).
    + exact Hx.
    + rewrite length_skipn. lia.
    + intros E. apply (f_equal (@List.length f64)) in E.
      rewrite length_skipn in E. simpl in E. lia.
    + apply (Forall_parts _ n2 l Hl).
    + rewrite length_firstn. lia.
    + intros E. apply (f_equal (@List.length f64)) in E.
      rewrite length_firstn in E. simpl in E. lia.
    + apply (Forall_parts _ n2 l Hl).
Qed.

Lemma np_sum_constant (x : f64) (l : list f64) :
  add x x = x -> add (Some 0%Q) x = x -> l <> [] -> Forall (eq x) l ->
  np_sum l = x.
Proof.
  intros Hx H0 Hne Hl. unfold np_sum. apply pairwise_sum_constant; auto.
Qed.

Lemma np_sum_nil : np_sum [] = Some 0%Q.
Proof. reflexivity. Qed.

End SumFacts.

(** *** The counters are counts *)

(** Four vectors of [n] counts. *)
Definition counts (n : nat) (st : counters) : Prop :=
  vectors n st /\
  forall c, 0 <= nth c (tp st) 0 /\ 0 <= nth c (fp st) 0 /\
            0 <= nth c (fn st) 0 /\ 0 <= nth c (n_pixels st) 0.

Lemma count_class_counts (n : nat) (pr gt : list Z) (st st' : counters) (cl_i : Z) :
  In cl_i (Py.range (Z.of_nat n)) ->
  counts n st -> count_class pr gt st cl_i = Ok st' -> counts n st'.
Proof.
  intros Hc [Hv Hn] H. apply in_range in Hc.
  rewrite (count_class_bump n) in H by assumption.
  inv_bind_as H q Hq. apply Ok_inj in H. subst st'.
  split; [apply bump_counters_vectors, Hv |].
  destruct q as [[[a b] c] d].
  destruct (class_counts_nonneg _ _ _ _ _ _ _ Hq) as (Ha & Hb & Hc' & Hd).
  destruct Hv as (H1 & H2 & H3 & H4).
  intros k. destruct (Hn k) as (K1 & K2 & K3 & K4). unfold bump_counters.
  cbn [tp fp fn n_pixels]. rewrite !nth_bump by lia.
  destruct (k =? Z.to_nat cl_i)%nat; lia.
Qed.

Lemma zero_counters_counts (n : nat) : counts n (zero_counters n).
Proof.
  split; [apply zero_counters_vectors |]. intros c. unfold zero_counters.
  cbn [tp fp fn n_pixels]. rewrite !nth_repeat_zero. lia.
Qed.

Lemma combine_surplus_l {A B : Type} (l e : list A) (l' : list B) :
  List.length l = List.length l' -> combine (l ++ e) l' = combine l l'.
Proof.
  revert l'. induction l as [| x l IH]; intros [| y l'] H; simpl in H;
    try discriminate.
  - destruct e; reflexivity.
  - simpl. rewrite IH by lia. reflexivity.
Qed.

Lemma combine_surplus_r {A B : Type} (l : list A) (l' e : list B) :
  List.length l = List.length l' -> combine l (l' ++ e) = combine l l'.
Proof.
  revert l'. induction l as [| x l IH]; intros [| y l'] H; simpl in H;
    try discriminate.
  - reflexivity.
  - simpl. rewrite IH by lia. reflexivity.
Qed.

Lemma map_constant_seq {A : Type} (f : nat -> A) (x : A) (n : nat) :
  (forall k, f k = x) -> map f (seq 0 n) = repeat x n.
Proof.
  intros H. generalize 0%nat as s.
  induction n as [| n IH]; intros s; simpl; [| rewrite H, IH]; reflexivity.
Qed.

Lemma Forall_repeat {A : Type} (x : A) (n : nat) : Forall (eq x) (repeat x n).
Proof. induction n as [| n IH]; simpl; constructor; auto. Qed.

(** The scores of counters that are all zero. *)
Definition no_scores (n : nat) : scores :=
  {| frequency_weighted_IU := if (n =? 0)%nat then Some 0%Q else None;
     mean_IU := if (n =? 0)%nat then None else Some 0%Q;
     class_wise_IU := repeat (Some 0%Q) n |}.

Lemma iu_scores_zero (n : nat) : iu_scores (zero_counters n) = Ok (no_scores n).
Proof.
  rewrite (iu_scores_classes n) by apply zero_counters_vectors.
  assert (Hiou : forall k, class_iou (zero_counters n) k = Some 0%Q).
  { intros k. unfold class_iou, zero_counters. cbn [tp fp fn].
    rewrite nth_repeat_zero. vm_compute. reflexivity. }
  assert (Hzero : forall k, np_sum (repeat (Some 0%Q) k) = Some 0%Q).
  { intros [| k]; [reflexivity |].
    apply SumFacts.np_sum_constant;
      [reflexivity | reflexivity | discriminate | apply Forall_repeat]. }
  assert (Hshare : forall k, pixel_share (zero_counters n) k = None).
  { intros k. unfold pixel_share, zero_counters. cbn [n_pixels].
    rewrite nth_repeat_zero, map_repeat.
    change (F64.of_Z 0) with (Some 0%Q). rewrite Hzero. reflexivity. }
  rewrite (map_constant_seq (class_iou (zero_counters n)) (Some 0%Q) n Hiou).
  rewrite (map_constant_seq
             (fun k => F64.mul (class_iou (zero_counters n) k)
                               (pixel_share (zero_counters n) k)) None n)
    by (intros k; rewrite Hiou, Hshare; reflexivity).
  rewrite Hzero. unfold no_scores. f_equal. f_equal.
  - destruct n as [| n]; [reflexivity |]. cbn [Nat.eqb].
    apply SumFacts.np_sum_constant;
      [reflexivity | reflexivity | discriminate | apply Forall_repeat].
  - destruct n as [| n]; [reflexivity |]. cbn [Nat.eqb].
    unfold F64.div, F64.of_Z.
    assert (Hpos : (0 < F64.round64 (inject_Z (Z.of_nat (S n))))%Q).
    { apply F64Facts.round64_pos. change 0%Q with (inject_Z 0).
      rewrite <- Zlt_Qlt. lia. }
    destruct (Qeq_bool (F64.round64 (inject_Z (Z.of_nat (S n)))) 0) eqn:E.
    + apply Qeq_bool_iff in E. rewrite E in Hpos. discriminate Hpos.
    + reflexivity.
Qed.

Section EvaluationEdges.

Variable tensor : Type.
Variable glob : string -> list string.
Variable normpath : string -> string.
Variable isfile : string -> bool.
Variable read_config : string -> result config.
Variable model_from_name : string -> option (nat -> nat -> nat -> Model tensor).
Variable load_weights : Model tensor -> string -> result (Model tensor).
Variable imread : string -> option image.
Variable cv2_resize : interpolation -> image -> nat -> nat -> image.
Variable cv2_putText : string -> Z * Z -> nat -> nat -> pixel -> pixel.
Variable cv2_rectangle : Z * Z -> Z * Z -> color -> nat -> nat -> pixel -> pixel.
Variable class_colors : list color.
Variable get_image_array : image -> nat -> nat -> tensor.
Variable annotation : Type.
Variable get_segmentation_array :
  annotation -> nat -> nat -> nat -> result (list (list (list Z))).
Variable get_pairs_from_paths : string -> string -> result (list (input * annotation)).

Local Abbreviation states :=
  (accumulation_states tensor glob normpath isfile read_config model_from_name
     load_weights imread cv2_resize cv2_putText cv2_rectangle class_colors
     get_image_array annotation get_segmentation_array).
Local Abbreviation labels_of :=
  (pair_labels tensor glob normpath isfile read_config model_from_name load_weights
     imread cv2_resize cv2_putText cv2_rectangle class_colors get_image_array
     annotation get_segmentation_array).
Local Abbreviation count_all :=
  (count_pairs tensor glob normpath isfile read_config model_from_name load_weights
     imread cv2_resize cv2_putText cv2_rectangle class_colors get_image_array
     annotation get_segmentation_array).
Local Abbreviation evaluate :=
  (evaluate_segmentation tensor glob normpath isfile read_config model_from_name
     load_weights imread cv2_resize cv2_putText cv2_rectangle class_colors
     get_image_array annotation get_segmentation_array get_pairs_from_paths).

Lemma accumulation_states_invariant (P : counters -> Prop) (model : Model tensor) :
  (forall pr gt s c s',
      In c (Py.range (Z.of_nat (n_classes model))) ->
      P s -> count_class pr gt s c = Ok s' -> P s') ->
  forall pairs st, P st -> Forall P (states model pairs st).
Proof.
  intros Hstep. induction pairs as [| [inp ann] rest IH]; intros st Hst; simpl.
  - constructor; [exact Hst | constructor].
  - constructor; [exact Hst |].
    destruct (labels_of model inp ann) as [[pr gt] | e]; [| constructor].
    apply Forall_app. split.
    + apply loop_states_invariant; [apply Hstep | exact Hst].
    + destruct (foldM (count_class pr gt) (Py.range (Z.of_nat (n_classes model))) st)
        as [st' | e] eqn:E; [| constructor].
      apply IH.
      apply (foldM_invariant (count_class pr gt) P
               (Py.range (Z.of_nat (n_classes model)))) with (s := st);
        [apply Hstep | exact Hst | exact E].
Qed.

(** X8. Whatever the model, the images and the annotations, the counters of
    [evaluate_segmentation] are, before and after every pass of its loops,
    four vectors of [n_classes] entries none of which is negative, and so
    are those the loop ends with. *)
Theorem evaluate_segmentation_counters_are_counts :
  forall (model : Model tensor) (pairs : list (input * annotation)),
    Forall (counts (n_classes model))
           (accumulation_states tensor glob normpath isfile read_config
              model_from_name load_weights imread cv2_resize cv2_putText
              cv2_rectangle class_colors get_image_array annotation
              get_segmentation_array model pairs (zero_counters (n_classes model)))
    /\ forall st,
         count_pairs tensor glob normpath isfile read_config model_from_name
           load_weights imread cv2_resize cv2_putText cv2_rectangle class_colors
           get_image_array annotation get_segmentation_array model pairs = Ok st ->
         counts (n_classes model) st.
Proof.
  intros model pairs.
  assert (Hall : Forall (counts (n_classes model))
                   (states model pairs (zero_counters (n_classes model)))).
  { apply accumulation_states_invariant; [| apply zero_counters_counts].
    intros pr gt s c s'. apply count_class_counts. }
  split; [exact Hall |].
  intros st Hst. rewrite Forall_forall in Hall. apply Hall.
  apply accumulation_states_last, Hst.
Qed.

(** X9. [evaluate_segmentation] pairs the images with the annotations as
    [zip] does: where one list is longer than the other, what it has beyond
    the length of the other is not looked at, and nothing is raised for
    it. *)
Theorem evaluate_segmentation_surplus_ignored :
  forall (model : Model tensor) (inp_images more_images : list input)
         (annotations more_annotations : list annotation)
         (inp_images_dir annotations_dir checkpoints_path : option string),
    List.length inp_images = List.length annotations ->
    evaluate_segmentation tensor glob normpath isfile read_config model_from_name
      load_weights imread cv2_resize cv2_putText cv2_rectangle class_colors
      get_image_array annotation get_segmentation_array get_pairs_from_paths
      (Some model) (Some (inp_images ++ more_images)) (Some annotations)
      inp_images_dir annotations_dir checkpoints_path
    = evaluate (Some model) (Some inp_images) (Some annotations)
        inp_images_dir annotations_dir checkpoints_path
    /\ evaluate (Some model) (Some inp_images) (Some (annotations ++ more_annotations))
         inp_images_dir annotations_dir checkpoints_path
       = evaluate (Some model) (Some inp_images) (Some annotations)
           inp_images_dir annotations_dir checkpoints_path.
Proof.
  intros model inp_images more_images annotations more_annotations
         inp_images_dir annotations_dir checkpoints_path Hlen.
  rewrite !evaluate_segmentation_lists.
  rewrite combine_surplus_l, combine_surplus_r by exact Hlen.
  split; reflexivity.
Qed.

(** X10. With no image or no annotation in the lists,
    [evaluate_segmentation] predicts nothing and returns the score 0 for
    every class, the mean 0 and, [n_pixels / np.sum(n_pixels)] being
    [0 / 0], a frequency-weighted score that is no number; from two
    directories without a pair it raises [IndexError] instead. *)
Theorem evaluate_segmentation_no_pairs :
  forall (model : Model tensor)
         (inp_images_dir annotations_dir checkpoints_path : option string),
    (forall inp_images annotations,
        inp_images = [] \/ annotations = [] ->
        evaluate_segmentation tensor glob normpath isfile read_config model_from_name
          load_weights imread cv2_resize cv2_putText cv2_rectangle class_colors
          get_image_array annotation get_segmentation_array get_pairs_from_paths
          (Some model) (Some inp_images) (Some annotations)
          inp_images_dir annotations_dir checkpoints_path
        = Ok (no_scores (n_classes model)))
    /\ (forall annotations d1 d2,
          get_pairs_from_paths d1 d2 = Ok [] ->
          evaluate (Some model) None annotations (Some d1) (Some d2) checkpoints_path
          = Raise IndexError).
Proof.
  intros model inp_images_dir annotations_dir checkpoints_path. split.
  - intros inp_images annotations Hnone. rewrite evaluate_segmentation_lists.
    assert (E : combine inp_images annotations = []).
    { destruct Hnone as [-> | ->]; [reflexivity | apply combine_nil]. }
    rewrite E. unfold count_pairs. cbn [foldM bind]. apply iu_scores_zero.
  - intros annotations d1 d2 Hd. unfold evaluate_segmentation. cbn [bind].
    rewrite Hd. reflexivity.
Qed.

End EvaluationEdges.

(** The images and annotations of [toy_pairs] with one more image, a file that
    cannot be read, or one more annotation, of another size: the scores are
    those of [toy_pairs]. *)
Lemma evaluate_segmentation_surplus_ignored_witness :
  List.length (map fst toy_pairs) = List.length (map snd toy_pairs)
  /\ evaluate_segmentation image toy_glob Posix.normpath toy_isfile toy_read_config
       toy_model_from_name toy_load_weights toy_imread toy_resize toy_putText
       toy_rectangle toy_colors toy_image_array class_map toy_segmentation_array
       toy_pairs_from_paths (Some (toy_model 2 2))
       (Some (map fst toy_pairs ++ [InpPath "missing.png"]))
       (Some (map snd toy_pairs)) None None None
     = toy_evaluate (toy_model 2 2) toy_pairs
  /\ evaluate_segmentation image toy_glob Posix.normpath toy_isfile toy_read_config
       toy_model_from_name toy_load_weights toy_imread toy_resize toy_putText
       toy_rectangle toy_colors toy_image_array class_map toy_segmentation_array
       toy_pairs_from_paths (Some (toy_model 2 2))
       (Some (map fst toy_pairs))
       (Some (map snd toy_pairs ++ [[[5; 5; 5]]])) None None None
     = toy_evaluate (toy_model 2 2) toy_pairs.
Proof.
  split; [reflexivity |].
  exact (evaluate_segmentation_surplus_ignored image toy_glob Posix.normpath
           toy_isfile toy_read_config toy_model_from_name toy_load_weights toy_imread
           toy_resize toy_putText toy_rectangle toy_colors toy_image_array
           class_map toy_segmentation_array toy_pairs_from_paths
           (toy_model 2 2) (map fst toy_pairs) [InpPath "missing.png"]
           (map snd toy_pairs) [[[5; 5; 5]]] None None None eq_refl).
Defined.

(** *** Every pixel is counted once *)

(** [np.sum] of a vector of counts. *)
Definition vector_sum (v : list Z) : Z := fold_right Z.add 0 v.

(** Labels that are indices of [range(n)]. *)
Definition classes_of (n : nat) (l : list Z) : Prop :=
  Forall (fun c => 0 <= c < Z.of_nat n) l.

Lemma total_cons {A : Type} (f : A -> Z) (x : A) (l : list A) :
  total f (x :: l) = f x + total f l.
Proof. reflexivity. Qed.

Lemma total_constant {A : Type} (f : A -> Z) (v : Z) (l : list A) :
  (forall x, In x l -> f x = v) -> total f l = Z.of_nat (List.length l) * v.
Proof.
  induction l as [| x l IH]; intros H; [reflexivity |].
  rewrite total_cons, (H x (or_introl eq_refl)), IH
    by (intros y Hy; apply H; right; exact Hy).
  cbn [List.length]. lia.
Qed.

Lemma total_add {A : Type} (f g : A -> Z) (l : list A) :
  total (fun x => f x + g x) l = total f l + total g l.
Proof. induction l as [| x l IH]; simpl; [reflexivity | rewrite IH; lia]. Qed.

Lemma total_swap {A B : Type} (f : A -> B -> Z) (la : list A) (lb : list B) :
  total (fun a => total (f a) lb) la = total (fun b => total (fun a => f a b) la) lb.
Proof.
  induction la as [| a la IH]; simpl.
  - induction lb as [| b lb IHb]; simpl; [reflexivity | rewrite <- IHb; reflexivity].
  - rewrite IH, <- total_add. reflexivity.
Qed.

Lemma vector_sum_nth (v : list Z) :
  vector_sum v = total (fun c => nth c v 0) (seq 0 (List.length v)).
Proof.
  induction v as [| x v IH]; [reflexivity |].
  cbn [List.length seq]. rewrite <- seq_shift, total_cons, total_map.
  cbn [nth]. rewrite <- IH. reflexivity.
Qed.

(** Of the indices of [range(n)], one is [p]. *)
Lemma total_at (F : Z -> Z) (p : Z) (n : nat) :
  forall s : nat,
    total (fun c => if p =? Z.of_nat c then F (Z.of_nat c) else 0) (seq s n)
    = if (Z.of_nat s <=? p) && (p <? Z.of_nat (s + n)) then F p else 0.
Proof.
  induction n as [| n IH]; intros s.
  - cbn [seq total fold_right].
    destruct (Z.leb_spec (Z.of_nat s) p), (Z.ltb_spec p (Z.of_nat (s + 0)));
      cbn [andb]; try reflexivity. lia.
  - cbn [seq]. rewrite total_cons, IH.
    destruct (Z.leb_spec (Z.of_nat (S s)) p), (Z.ltb_spec p (Z.of_nat (S s + n))),
             (Z.leb_spec (Z.of_nat s) p), (Z.ltb_spec p (Z.of_nat (s + S n)));
      cbn [andb]; destruct (Z.eqb_spec p (Z.of_nat s)) as [E | Hne];
      try rewrite <- E; lia.
Qed.

Lemma total_at_class (F : Z -> Z) (p : Z) (n : nat) :
  0 <= p < Z.of_nat n ->
  total (fun c => if p =? Z.of_nat c then F (Z.of_nat c) else 0) (seq 0 n) = F p.
Proof.
  intros H. rewrite total_at.
  destruct (Z.leb_spec (Z.of_nat 0) p), (Z.ltb_spec p (Z.of_nat (0 + n)));
    cbn [andb]; try reflexivity; lia.
Qed.

(** Each pixel is a true or a false positive of the class predicted for it,
    and of no other. *)
Lemma predicted_once (n : nat) (pr : list Z) :
  classes_of n pr ->
  forall gt, List.length pr = List.length gt ->
    total (fun c => true_positives (Z.of_nat c) pr gt
                    + false_positives (Z.of_nat c) pr gt) (seq 0 n)
    = Z.of_nat (List.length pr).
Proof.
  induction 1 as [| p pr Hp Hpr IH]; intros [| g gt] Hlen; simpl in Hlen;
    try discriminate.
  - rewrite (total_constant _ 0) by reflexivity. cbn [List.length]. lia.
  - rewrite (total_ext _
               (fun c => (if p =? Z.of_nat c then 1 else 0)
                         + (true_positives (Z.of_nat c) pr gt
                            + false_positives (Z.of_nat c) pr gt))).
    + rewrite total_add, (total_at_class (fun _ => 1) p n Hp), IH by lia.
      cbn [List.length]. lia.
    + intros c _. unfold true_positives, false_positives. cbn [zip_with].
      rewrite !count_true_cons.
      destruct (p =? Z.of_nat c), (g =? Z.of_nat c); cbn [andb negb b2z]; lia.
Qed.

(** Each pixel is of the class of the ground truth, and of no other. *)
Lemma labelled_once (n : nat) (gt : list Z) :
  classes_of n gt ->
  total (fun c => class_pixels (Z.of_nat c) gt) (seq 0 n) = Z.of_nat (List.length gt).
Proof.
  induction 1 as [| g gt Hg Hgt IH].
  - rewrite (total_constant _ 0) by reflexivity. cbn [List.length]. lia.
  - rewrite (total_ext _
               (fun c => (if g =? Z.of_nat c then 1 else 0)
                         + class_pixels (Z.of_nat c) gt)).
    + rewrite total_add, (total_at_class (fun _ => 1) g n Hg), IH.
      cbn [List.length]. lia.
    + intros c _. unfold class_pixels. cbn [map]. rewrite !count_true_cons.
      destruct (g =? Z.of_nat c); cbn [b2z]; lia.
Qed.

(** A pixel predicted of another class than its own is a false positive of
    the one and a false negative of the other. *)
Lemma mistaken_once (n : nat) (pr : list Z) :
  classes_of n pr ->
  forall gt, classes_of n gt -> List.length pr = List.length gt ->
    total (fun c => false_positives (Z.of_nat c) pr gt) (seq 0 n)
    = total (fun c => false_negatives (Z.of_nat c) pr gt) (seq 0 n).
Proof.
  induction 1 as [| p pr Hp Hpr IH]; intros gt Hgt Hlen;
    destruct Hgt as [| g gt Hg Hgt]; simpl in Hlen; try discriminate.
  - reflexivity.
  - rewrite (total_ext (fun c => false_positives (Z.of_nat c) (p :: pr) (g :: gt))
               (fun c => (if p =? Z.of_nat c
                          then b2z (negb (g =? Z.of_nat c)) else 0)
                         + false_positives (Z.of_nat c) pr gt)).
    2:{ intros c _. unfold false_positives. cbn [zip_with]. rewrite !count_true_cons.
        destruct (p =? Z.of_nat c); cbn [andb b2z]; lia. }
    rewrite (total_ext (fun c => false_negatives (Z.of_nat c) (p :: pr) (g :: gt))
               (fun c => (if g =? Z.of_nat c
                          then b2z (negb (p =? Z.of_nat c)) else 0)
                         + false_negatives (Z.of_nat c) pr gt)).
    2:{ intros c _. unfold false_negatives. cbn [zip_with]. rewrite !count_true_cons.
        destruct (g =? Z.of_nat c), (p =? Z.of_nat c); cbn [andb negb b2z]; lia. }
    rewrite !total_add, (IH gt Hgt) by lia.
    rewrite (total_at_class (fun k => b2z (negb (g =? k))) p n Hp).
    rewrite (total_at_class (fun k => b2z (negb (p =? k))) g n Hg).
    rewrite (Z.eqb_sym g p). reflexivity.
Qed.

Lemma mapM_In {A B : Type} (f : A -> result B) (l : list A) :
  forall l', mapM f l = Ok l' ->
    forall y, In y l' -> exists x, In x l /\ f x = Ok y.
Proof.
  induction l as [| a t IH]; simpl; intros l' H y Hy.
  - apply Ok_inj in H. subst l'. destruct Hy.
  - inv_bind_as H b Hb. inv_bind_as H t' Ht. apply Ok_inj in H. subst l'.
    destruct Hy as [<- | Hy].
    + exists a. split; [left; reflexivity | exact Hb].
    + destruct (IH t' Ht y Hy) as (x & Hx & Hfx). exists x. split; [right |]; assumption.
Qed.

Lemma In_concat_at2 {A : Type} (a : list (list A)) (x : A) :
  In x (List.concat a) -> exists i j, at2 a i j = Some x.
Proof.
  intros H. apply in_concat in H. destruct H as (row & Hrow & Hx).
  apply In_nth_error in Hrow. destruct Hrow as [i Hi].
  apply In_nth_error in Hx. destruct Hx as [j Hj].
  exists i, j. unfold at2. rewrite Hi. exact Hj.
Qed.

Lemma argmax_from_range {A : Type} (ltb : A -> A -> bool) (t : list A) :
  forall best vbest i,
    0 <= best < i -> 0 <= argmax_from ltb best vbest i t < i + Z.of_nat (List.length t).
Proof.
  induction t as [| x t IH]; intros best vbest i H; cbn [argmax_from List.length].
  - lia.
  - destruct (ltb vbest x).
    + specialize (IH i x (i + 1) ltac:(lia)). lia.
    + specialize (IH best vbest (i + 1) ltac:(lia)). lia.
Qed.

(** [np.argmax] is an index of its argument. *)
Lemma argmax_range {A : Type} (ltb : A -> A -> bool) (l : list A) (k : Z) :
  argmax ltb l = Ok k -> 0 <= k < Z.of_nat (List.length l).
Proof.
  destruct l as [| x t]; [discriminate |]. cbn [argmax]. intros H.
  apply Ok_inj in H. subst k.
  pose proof (argmax_from_range ltb t 0 x 1 ltac:(lia)). cbn [List.length]. lia.
Qed.

Section PixelConservation.

Variable tensor : Type.
Variable glob : string -> list string.
Variable normpath : string -> string.
Variable isfile : string -> bool.
Variable read_config : string -> result config.
Variable model_from_name : string -> option (nat -> nat -> nat -> Model tensor).
Variable load_weights : Model tensor -> string -> result (Model tensor).
Variable imread : string -> option image.
Variable cv2_resize : interpolation -> image -> nat -> nat -> image.
Variable cv2_putText : string -> Z * Z -> nat -> nat -> pixel -> pixel.
Variable cv2_rectangle : Z * Z -> Z * Z -> color -> nat -> nat -> pixel -> pixel.
Variable class_colors : list color.
Variable get_image_array : image -> nat -> nat -> tensor.
Variable annotation : Type.
Variable get_segmentation_array :
  annotation -> nat -> nat -> nat -> result (list (list (list Z))).

Local Abbreviation labels_of :=
  (pair_labels tensor glob normpath isfile read_config model_from_name load_weights
     imread cv2_resize cv2_putText cv2_rectangle class_colors get_image_array
     annotation get_segmentation_array).
Local Abbreviation count_all :=
  (count_pairs tensor glob normpath isfile read_config model_from_name load_weights
     imread cv2_resize cv2_putText cv2_rectangle class_colors get_image_array
     annotation get_segmentation_array).
Local Abbreviation labels_of_all :=
  (labelled tensor glob normpath isfile read_config model_from_name load_weights
     imread cv2_resize cv2_putText cv2_rectangle class_colors get_image_array
     annotation get_segmentation_array).

(** [get_segmentation_array(ann, n, w, h, no_reshape=True)] returns an array
    of shape [(h, w, n)]: [n] channels at each pixel. *)
Definition ground_truth_channels : Prop :=
  forall ann n w h gt,
    get_segmentation_array ann n w h = Ok gt ->
    has_shape_2d gt h w /\ Forall (Forall (fun cell => List.length cell = n)) gt.

Lemma ground_truth_channels_contract :
  ground_truth_channels -> ground_truth_contract annotation get_segmentation_array.
Proof. intros H ann n w h gt Hgt. apply (H ann n w h gt Hgt). Qed.

(** The labels of a pair: as many as the model's output has pixels, all of
    them classes of the model. *)
Lemma pair_labels_classes (model : Model tensor) (inp : input) (ann : annotation)
    (pr gt : list Z) :
  ground_truth_channels ->
  labels_of model inp ann = Ok (pr, gt) ->
  List.length pr = (output_height model * output_width model)%nat /\
  List.length pr = List.length gt /\
  classes_of (n_classes model) pr /\ classes_of (n_classes model) gt.
Proof.
  intros Hgt H.
  pose proof (pair_labels_lengths _ _ _ _ _ _ _ _ _ _ _ _ _ _ _ model inp ann pr gt
                (ground_truth_channels_contract Hgt) H) as Hlen.
  unfold pair_labels in H.
  inv_bind_as H r Hr. destruct r as [prm written]. cbn [fst] in H.
  inv_bind_as H gta Hgta. inv_bind_as H gtm Hgtm. injection H as <- <-.
  apply predict_segmentation_raw in Hr. unfold raw_class_map in Hr.
  cbn [loaded_model bind] in Hr. inv_bind_as Hr a Ha.
  split; [| split; [exact Hlen | split]].
  - apply length_concat_shape. exact (predicted_class_map_shape _ _ _ _ _ Hr).
  - destruct (predicted_class_map_argmax _ _ _ _ _ Hr) as (flat & _ & Hcells).
    unfold classes_of. rewrite Forall_forall. intros c Hc.
    apply In_concat_at2 in Hc. destruct Hc as (i & j & Hc).
    apply (Hcells i j c Hc).
  - destruct (Hgt _ _ _ _ _ Hgta) as [_ Hn].
    unfold classes_of. rewrite Forall_forall. intros c Hc.
    apply in_concat in Hc. destruct Hc as (row & Hrow & Hc).
    destruct (mapM_In _ _ _ Hgtm row Hrow) as (cells & Hcells & Hmap).
    destruct (mapM_In _ _ _ Hmap c Hc) as (cell & Hcell & Hk).
    apply argmax_range in Hk.
    rewrite Forall_forall in Hn. specialize (Hn cells Hcells).
    rewrite Forall_forall in Hn. rewrite (Hn cell Hcell) in Hk. exact Hk.
Qed.

Lemma labelled_classes (model : Model tensor) (pairs : list (input * annotation))
    (ls : list (list Z * list Z)) :
  ground_truth_channels ->
  labels_of_all model pairs = Ok ls ->
  List.length ls = List.length pairs /\
  forall l, In l ls ->
    List.length (fst l) = (output_height model * output_width model)%nat /\
    List.length (fst l) = List.length (snd l) /\
    classes_of (n_classes model) (fst l) /\ classes_of (n_classes model) (snd l).
Proof.
  intros Hgt H. unfold labelled in H. split; [apply (mapM_ok _ _ _ H) |].
  intros [pr gt] Hl. destruct (mapM_In _ _ _ H _ Hl) as ([inp ann] & _ & Hpair).
  cbn [fst snd] in *. eapply pair_labels_classes; eauto.
Qed.

(** X11. With ground truth of the model's output height and width and
    [n_classes] channels, the counters [evaluate_segmentation]'s loop ends
    with count every pixel once: the true and false positives of all
    classes are together the pixels of all the pairs, [output_height *
    output_width] for each, as are the entries of [n_pixels] together, and
    there are as many false positives as false negatives. *)
Theorem evaluate_segmentation_pixels_counted_once :
  forall (model : Model tensor) (pairs : list (input * annotation)) (st : counters),
    ground_truth_channels ->
    count_pairs tensor glob normpath isfile read_config model_from_name load_weights
      imread cv2_resize cv2_putText cv2_rectangle class_colors get_image_array
      annotation get_segmentation_array model pairs = Ok st ->
    let pixels :=
      Z.of_nat (List.length pairs * (output_height model * output_width model)) in
    vector_sum (tp st) + vector_sum (fp st) = pixels /\
    vector_sum (n_pixels st) = pixels /\
    vector_sum (fp st) = vector_sum (fn st).
Proof.
  intros model pairs st Hgt Hst pixels.
  destruct (count_pairs_vectors _ _ _ _ _ _ _ _ _ _ _ _ _ _ _ model pairs st Hst)
    as (Ltp & Lfp & Lfn & Lpx).
  destruct (count_pairs_meaning _ _ _ _ _ _ _ _ _ _ _ _ _ _ _ model pairs st
              (ground_truth_channels_contract Hgt) Hst) as (ls & Els & Hnth).
  destruct (labelled_classes model pairs ls Hgt Els) as [Hlen Hls].
  assert (Hsum : forall (v : list Z) (f : nat -> list Z * list Z -> Z),
             List.length v = n_classes model ->
             (forall c, (c < n_classes model)%nat -> nth c v 0 = total (f c) ls) ->
             vector_sum v
             = total (fun l => total (fun c => f c l) (seq 0 (n_classes model))) ls).
  { intros v f Lv Hv. rewrite vector_sum_nth, Lv, <- total_swap.
    apply total_ext. intros c Hc. apply in_seq in Hc. apply Hv. lia. }
  rewrite (Hsum (tp st) (fun c l => true_positives (Z.of_nat c) (fst l) (snd l)))
    by (try exact Ltp; intros c Hc; apply (Hnth c Hc)).
  rewrite (Hsum (fp st) (fun c l => false_positives (Z.of_nat c) (fst l) (snd l)))
    by (try exact Lfp; intros c Hc; apply (Hnth c Hc)).
  rewrite (Hsum (fn st) (fun c l => false_negatives (Z.of_nat c) (fst l) (snd l)))
    by (try exact Lfn; intros c Hc; apply (Hnth c Hc)).
  rewrite (Hsum (n_pixels st) (fun c l => class_pixels (Z.of_nat c) (snd l)))
    by (try exact Lpx; intros c Hc; apply (Hnth c Hc)).
  assert (Hpixels : pixels
                    = Z.of_nat (List.length ls)
                      * Z.of_nat (output_height model * output_width model))
    by (unfold pixels; rewrite Hlen; lia).
  split; [| split].
  - rewrite <- total_add, Hpixels. apply total_constant. intros l Hl.
    destruct (Hls l Hl) as (Hhw & Hsame & Hpr & _).
    rewrite <- total_add, (predicted_once _ _ Hpr _ Hsame), Hhw. reflexivity.
  - rewrite Hpixels. apply total_constant. intros l Hl.
    destruct (Hls l Hl) as (Hhw & Hsame & _ & Hg).
    rewrite (labelled_once _ _ Hg), <- Hsame, Hhw. reflexivity.
  - apply total_ext. intros l Hl.
    destruct (Hls l Hl) as (_ & Hsame & Hpr & Hg).
    apply (mistaken_once _ _ Hpr _ Hg Hsame).
Qed.

End PixelConservation.

Lemma toy_ground_truth_channels :
  ground_truth_channels class_map toy_segmentation_array.
Proof.
  intros ann n w h gt H. split; [apply (toy_ground_truth_contract ann n w h gt H) |].
  unfold toy_segmentation_array in H.
  destruct ((List.length ann =? h)%nat
            && forallb (fun row => (List.length row =? w)%nat) ann); [| discriminate].
  apply Ok_inj in H. subst gt.
  apply Forall_map, Forall_forall. intros row _.
  apply Forall_map, Forall_forall. intros c _.
  rewrite length_map, length_seq. reflexivity.
Qed.

(** The counters of the run over [toy_pairs], two pairs of four pixels. *)
Lemma evaluate_segmentation_pixels_counted_once_witness :
  ground_truth_channels class_map toy_segmentation_array
  /\ toy_count_pairs (toy_model 2 2) toy_pairs
     = Ok {| tp := [4; 2]; fp := [1; 1]; fn := [1; 1]; n_pixels := [5; 3] |}
  /\ vector_sum [4; 2] + vector_sum [1; 1] = 8
  /\ vector_sum [5; 3] = 8
  /\ vector_sum [1; 1] = vector_sum [1; 1].
Proof.
  split; [exact toy_ground_truth_channels |].
  split; [exact toy_count_pairs_value |].
  exact (evaluate_segmentation_pixels_counted_once image toy_glob Posix.normpath
           toy_isfile toy_read_config toy_model_from_name toy_load_weights toy_imread
           toy_resize toy_putText toy_rectangle toy_colors toy_image_array
           class_map toy_segmentation_array (toy_model 2 2) toy_pairs _
           toy_ground_truth_channels toy_count_pairs_value).
Defined.

(** ** The checkpoint of the largest epoch *)

(** X12. Of the entries [find_latest_checkpoint] looks at (those of the
    glob, normalised, with [.index] removed) it keeps those whose epoch
    [str.isdigit] accepts.  When it returns an entry, [int] has read the
    epoch of every entry kept and that of the entry returned is the
    largest; it returns one whenever the epochs of the entries kept are
    written with the characters [0] to [9], and the comparison is that of
    the numbers, not of the strings.  The epoch is
    [get_epoch_number_from_path]: for an entry made of the normalised
    checkpoint path and a rest where that path does not occur again, the
    rest without the dots around it.  Among [ckpt.1], [ckpt.5] and
    [ckpt.10] the entry returned is [ckpt.10], [ckpt.bak] is not kept, and
    an epoch written 12 in fullwidth digits is above 5. *)
Theorem find_latest_checkpoint_largest_epoch :
  forall (glob : string -> list string) (normpath : string -> string)
         (checkpoints_path : string) (fail_safe : bool),
    (forall f, In f (numbered_files glob normpath checkpoints_path) <->
               In f (checkpoint_files glob normpath checkpoints_path) /\
               Py.isdigit (get_epoch_number_from_path normpath checkpoints_path f) = true)
    /\ (forall f,
          find_latest_checkpoint glob normpath checkpoints_path fail_safe = Ok (Some f) ->
          In f (numbered_files glob normpath checkpoints_path) /\
          exists n,
            Py.int (get_epoch_number_from_path normpath checkpoints_path f) = Ok n /\
            forall g, In g (numbered_files glob normpath checkpoints_path) ->
              exists m, Py.int (get_epoch_number_from_path normpath checkpoints_path g) = Ok m
                        /\ m <= n)
    /\ (numbered_files glob normpath checkpoints_path <> [] ->
        (forall g, In g (numbered_files glob normpath checkpoints_path) ->
           decimal_literal (get_epoch_number_from_path normpath checkpoints_path g) = true
           /\ (String.length (get_epoch_number_from_path normpath checkpoints_path g)
               <= Py.max_str_digits)%nat) ->
        exists f,
          find_latest_checkpoint glob normpath checkpoints_path fail_safe = Ok (Some f) /\
          In f (numbered_files glob normpath checkpoints_path) /\
          forall g, In g (numbered_files glob normpath checkpoints_path) ->
            decimal_value (get_epoch_number_from_path normpath checkpoints_path g)
            <= decimal_value (get_epoch_number_from_path normpath checkpoints_path f))
    /\ (forall rest,
          normpath checkpoints_path <> EmptyString ->
          ~ occurs (normpath checkpoints_path) rest ->
          get_epoch_number_from_path normpath checkpoints_path
            (normpath checkpoints_path ++ rest)
          = Py.strip dot rest)
    /\ find_latest_checkpoint ckpt_dir Posix.normpath "ckpt" fail_safe
       = Ok (Some "ckpt.10"%string)
    /\ numbered_files ckpt_dir Posix.normpath "ckpt"
       = ["ckpt.1"; "ckpt.5"; "ckpt.10"]%string
    /\ find_latest_checkpoint fullwidth_dir Posix.normpath "ckpt" fail_safe
       = Ok (Some ("ckpt." ++ fullwidth_twelve)%string).
Proof.
  intros glob normpath checkpoints_path fail_safe.
  split; [| split; [| split; [| split; [| split; [| split]]]]].
  - intros f. unfold numbered_files.
    apply (filter_In (fun f => Py.isdigit (get_epoch_number_from_path normpath checkpoints_path f))).
  - intros f. apply find_latest_checkpoint_inv.
  - intros Hne Hdec.
    assert (Hint : forall g, In g (numbered_files glob normpath checkpoints_path) ->
              Py.int (get_epoch_number_from_path normpath checkpoints_path g)
              = Ok (decimal_value (get_epoch_number_from_path normpath checkpoints_path g))).
    { intros g Hg. destruct (Hdec g Hg) as [Hlit Hlen].
      apply (PyFacts.decimal_literal_int _ Hlit Hlen). }
    destruct (find_latest_checkpoint_some glob normpath checkpoints_path fail_safe Hne)
      as (f & n & Hf & Hin & Hn & Hmax).
    + intros g Hg. eexists. apply Hint, Hg.
    + exists f. split; [exact Hf |]. split; [exact Hin |]. intros g Hg.
      rewrite (Hint f Hin) in Hn. apply Ok_inj in Hn. rewrite Hn.
      apply (Hmax g _ Hg (Hint g Hg)).
  - intros rest. apply get_epoch_number_from_path_suffix.
  - destruct fail_safe; vm_compute; reflexivity.
  - vm_compute. reflexivity.
  - destruct fail_safe; vm_compute; reflexivity.
Qed.
